(** * Warzone 2100 projectile subsystem: a shallow embedding of
    [src/src/projectile.cpp] and the properties its specification states.

    Layout of the development:
    - [Machine]   : fixed-width integer conversions of the C++ code;
    - [Geometry]  : the swept collision tests ([collisionZ], [collisionXY],
                    [collisionXYZ]);
    - [Trajectory]: [randomVariation] and [projCalcIndirectVelocities];
    - the object world, the damage dispatcher, the per-projectile state
      machine and the projectile registry follow. *)

From Stdlib Require Import ZArith Lia Bool List.
From stdpp Require Import base gmap list.

Local Open Scope Z_scope.

(* ===================================================================== *)
(** ** Fixed-width integers *)
(* ===================================================================== *)

Module Machine.

(** Conversion of a mathematical integer to a [w]-bit two's complement
    value: what an assignment to [int32_t] / [int64_t] keeps. *)
Definition wrap_signed (w : Z) (n : Z) : Z :=
  (n + 2 ^ (w - 1)) mod 2 ^ w - 2 ^ (w - 1).

Definition int32 (n : Z) : Z := wrap_signed 32 n.
Definition int64 (n : Z) : Z := wrap_signed 64 n.
Definition uint32 (n : Z) : Z := n mod 2 ^ 32.
Definition uint64 (n : Z) : Z := n mod 2 ^ 64.

(** C++ integer division truncates toward zero. *)
Definition cdiv (a b : Z) : Z := Z.quot a b.

(** The [MAX] and [MIN] macros of the framework headers. *)
Definition MAX (a b : Z) : Z := if a >? b then a else b.
Definition MIN (a b : Z) : Z := if a <? b then a else b.

Definition INT32_MIN : Z := - 2 ^ 31.
Definition INT32_MAX : Z := 2 ^ 31 - 1.

Lemma int32_small n : INT32_MIN <= n <= INT32_MAX -> int32 n = n.
Proof.
  unfold int32, wrap_signed, INT32_MIN, INT32_MAX. intros H.
  rewrite Z.mod_small; lia.
Qed.

Lemma int64_small n : - 2 ^ 63 <= n < 2 ^ 63 -> int64 n = n.
Proof.
  unfold int64, wrap_signed. intros H.
  rewrite Z.mod_small; lia.
Qed.

Lemma uint64_small n : 0 <= n < 2 ^ 64 -> uint64 n = n.
Proof. unfold uint64. intros H. apply Z.mod_small; lia. Qed.

Lemma uint32_small n : 0 <= n < 2 ^ 32 -> uint32 n = n.
Proof. unfold uint32. intros H. apply Z.mod_small; lia. Qed.

Lemma int32_range n : INT32_MIN <= int32 n <= INT32_MAX.
Proof.
  unfold int32, wrap_signed, INT32_MIN, INT32_MAX.
  pose proof (Z.mod_pos_bound (n + 2 ^ (32 - 1)) (2 ^ 32)). lia.
Qed.

Lemma MAX_spec a b : MAX a b = Z.max a b.
Proof. unfold MAX. destruct (Z.gtb_spec a b); lia. Qed.

Lemma MIN_spec a b : MIN a b = Z.min a b.
Proof. unfold MIN. destruct (Z.ltb_spec a b); lia. Qed.

(** Truncating division by a positive divisor, bracketed. *)
Lemma cdiv_nonneg a b : 0 <= a -> 0 < b -> cdiv a b = a / b.
Proof. intros. unfold cdiv. apply Z.quot_div_nonneg; lia. Qed.

Lemma cdiv_neg a b : a <= 0 -> 0 < b -> cdiv a b = - ((- a) / b).
Proof.
  intros Ha Hb. unfold cdiv.
  replace a with (- (- a)) at 1 by lia.
  rewrite Z.quot_opp_l by lia. rewrite Z.quot_div_nonneg by lia. reflexivity.
Qed.

Lemma cdiv_bounds a b :
  0 < b -> (0 <= a -> 0 <= cdiv a b /\ b * cdiv a b <= a < b * cdiv a b + b)
        /\ (a <= 0 -> cdiv a b <= 0 /\ b * cdiv a b - b < a <= b * cdiv a b).
Proof.
  intros Hb. split; intros Ha.
  - rewrite cdiv_nonneg by lia.
    pose proof (Z.div_mod a b ltac:(lia)). pose proof (Z.mod_pos_bound a b Hb).
    pose proof (Z.div_pos a b Ha Hb). lia.
  - rewrite cdiv_neg by lia.
    pose proof (Z.div_mod (- a) b ltac:(lia)). pose proof (Z.mod_pos_bound (- a) b Hb).
    pose proof (Z.div_pos (- a) b ltac:(lia) Hb). lia.
Qed.

Lemma cdiv_abs_le a b : 0 < b -> Z.abs (cdiv a b) <= Z.abs a.
Proof.
  intros Hb. destruct (cdiv_bounds a b Hb) as [Hp Hn].
  destruct (Z.le_ge_cases 0 a) as [Ha | Ha].
  - destruct (Hp Ha) as [? ?]. nia.
  - destruct (Hn Ha) as [? ?]. nia.
Qed.

End Machine.
Import Machine.

(** Rewrites every conversion whose argument is provably in range,
    innermost first. *)
Ltac unwrap_step :=
  match goal with
  | |- context [int32 ?e] =>
      lazymatch e with
      | context [int32 _] => fail
      | context [int64 _] => fail
      | _ => rewrite (int32_small e) by (unfold INT32_MIN, INT32_MAX; lia)
      end
  | |- context [int64 ?e] =>
      lazymatch e with
      | context [int32 _] => fail
      | context [int64 _] => fail
      | _ => rewrite (int64_small e) by lia
      end
  end.
Ltac unwrap := repeat unwrap_step.

(* ===================================================================== *)
(** ** Collision geometry (projectile.cpp, lines 647-739) *)
(* ===================================================================== *)

Module Geometry.

Record Vector3i := mkVector3i { vx : Z; vy : Z; vz : Z }.

(** [struct INTERVAL]: time 1 = 0, time 2 = 1024, or [begin >= end] if empty. *)
Record INTERVAL := mkINTERVAL { i_begin : Z; i_end : Z }.

(** [ObjectShape] is declared in projectile.h, which is not part of the
    examined sources; the fields are the ones [collisionXYZ] reads:
    [isRectangular], [size.x], [size.y], and [radius()] which is the
    x component of [size] for a circular shape. *)
Record ObjectShape := mkObjectShape { isRectangular : bool; size_x : Z; size_y : Z }.
Definition radius (s : ObjectShape) : Z := size_x s.

(** [i64Sqrt] lives in lib/framework/trig, outside the examined sources.
    The source states its contract where it is used (projectile.cpp:412,
    "i64Sqrt rounds down"): the integer square root of its 64-bit unsigned
    argument. *)
Definition i64Sqrt (n : Z) : Z := Z.sqrt (uint64 n).

Definition intervalIntersection (i1 i2 : INTERVAL) : INTERVAL :=
  mkINTERVAL (MAX (i_begin i1) (i_begin i2)) (MIN (i_end i1) (i_end i2)).

Definition intervalEmpty (i : INTERVAL) : bool := i_begin i >=? i_end i.

Definition collisionZ (z1 z2 height : Z) : INTERVAL :=
  let ret := mkINTERVAL (-1) (-1) in
  let '(z1, z2) :=
    if z1 >? z2 then (int32 (z1 * -1), int32 (z2 * -1)) else (z1, z2) in
  if (z1 >? height) || (z2 <? int32 (- height)) then ret
  else if z1 =? z2 then
    if (z1 >=? int32 (- height)) && (z1 <=? height)
    then mkINTERVAL 0 1024 else ret
  else
    mkINTERVAL
      (cdiv (int32 (1024 * int32 (int32 (- height) - z1))) (int32 (z2 - z1)))
      (cdiv (int32 (1024 * int32 (height - z1))) (int32 (z2 - z1))).

Definition collisionXY (x1 y1 x2 y2 radius : Z) : INTERVAL :=
  let dx := int32 (x2 - x1) in
  let dy := int32 (y2 - y1) in
  let a := int64 (int64 (dx * dx) + int64 (dy * dy)) in
  let b := int64 (int64 (x1 * dx) + int64 (y1 * dy)) in
  let c := int64 (int64 (int64 (x1 * x1) + int64 (y1 * y1)) - int64 (radius * radius)) in
  let d := int64 (int64 (b * b) - int64 (a * c)) in
  let empty := mkINTERVAL (-1) (-1) in
  let full := mkINTERVAL 0 1024 in
  if d <? 0 then empty
  else if a =? 0 then (if c <? 0 then full else empty)
  else
    let sd := int32 (i64Sqrt d) in
    mkINTERVAL
      (int32 (MAX 0 (cdiv (int64 (1024 * int64 (int64 (- b) - sd))) a)))
      (int32 (MIN 1024 (cdiv (int64 (1024 * int64 (int64 (- b) + sd))) a))).

Definition collisionXYZ (v1 v2 : Vector3i) (shape : ObjectShape) (height : Z) : Z :=
  let i := collisionZ (vz v1) (vz v2) height in
  if negb (intervalEmpty i) then
    let i :=
      if isRectangular shape then
        let i := intervalIntersection i (collisionZ (vx v1) (vx v2) (size_x shape)) in
        if negb (intervalEmpty i)
        then intervalIntersection i (collisionZ (vy v1) (vy v2) (size_y shape))
        else i
      else
        intervalIntersection i
          (collisionXY (vx v1) (vy v1) (vx v2) (vy v2) (radius shape)) in
    if negb (intervalEmpty i) then MAX 0 (i_begin i) else -1
  else -1.

(** Magnitudes for which no intermediate 32-bit or 64-bit product of the
    three tests leaves its type: relative positions and target extents of
    at most 2^14 world units (a map is at most 256 tiles of 128 units). *)
Definition LIMIT : Z := 16384.
Definition in_limit (n : Z) : Prop := - LIMIT <= n <= LIMIT.
Definition vec_in_limit (v : Vector3i) : Prop :=
  in_limit (vx v) /\ in_limit (vy v) /\ in_limit (vz v).
Definition shape_in_limit (s : ObjectShape) : Prop :=
  in_limit (size_x s) /\ in_limit (size_y s).

Lemma intervalEmpty_false i : intervalEmpty i = false <-> i_begin i < i_end i.
Proof. unfold intervalEmpty. destruct (Z.geb_spec (i_begin i) (i_end i)); split; (lia || congruence). Qed.

(** The entry time of a one-axis slab test never lies past the end of the
    tick. *)
Lemma collisionZ_begin_le z1 z2 height :
  in_limit z1 -> in_limit z2 -> in_limit height ->
  i_begin (collisionZ z1 z2 height) <= 1024.
Proof.
  unfold in_limit, LIMIT, collisionZ. intros H1 H2 Hh.
  destruct (Z.gtb_spec z1 z2) as [Hgt | Hle].
  - unwrap.
    destruct (Z.gtb_spec (z1 * -1) height); [simpl; lia |].
    destruct (Z.ltb_spec (z2 * -1) (- height)); [simpl; lia |]. cbn [orb].
    destruct (Z.eqb_spec (z1 * -1) (z2 * -1)); [lia |].
    cbn [i_begin]. unwrap.
    set (d := z2 * -1 - z1 * -1). set (m := - height - z1 * -1).
    assert (Hd : 0 < d) by (unfold d; lia).
    assert (Hn : m <= d) by (unfold m, d; lia).
    destruct (cdiv_bounds (1024 * m) d Hd) as [Hp Hq].
    destruct (Z.le_ge_cases 0 m) as [Hm | Hm].
    + destruct (Hp ltac:(lia)) as [_ [Hlo _]]. nia.
    + destruct (Hq ltac:(lia)) as [Hlo _]. lia.
  - destruct (Z.gtb_spec z1 height); [simpl; lia |].
    unwrap.
    destruct (Z.ltb_spec z2 (- height)); [simpl; lia |]. cbn [orb].
    destruct (Z.eqb_spec z1 z2).
    + destruct (_ && _); simpl; lia.
    + cbn [i_begin]. unwrap.
      set (d := z2 - z1). set (m := - height - z1).
      assert (Hd : 0 < d) by (unfold d; lia).
      assert (Hn : m <= d) by (unfold m, d; lia).
      destruct (cdiv_bounds (1024 * m) d Hd) as [Hp Hq].
      destruct (Z.le_ge_cases 0 m) as [Hm | Hm].
      * destruct (Hp ltac:(lia)) as [_ [Hlo _]]. nia.
      * destruct (Hq ltac:(lia)) as [Hlo _]. lia.
Qed.

Lemma square_bound n k : 0 <= k -> - k <= n <= k -> 0 <= n * n <= k * k.
Proof. intros. nia. Qed.

Lemma product_bound n m k l :
  0 <= k -> 0 <= l -> - k <= n <= k -> - l <= m <= l -> - (k * l) <= n * m <= k * l.
Proof. intros. nia. Qed.

(** The exit time of the circle test never lies past the end of the tick. *)
Lemma collisionXY_end_le x1 y1 x2 y2 r :
  in_limit x1 -> in_limit y1 -> in_limit x2 -> in_limit y2 -> in_limit r ->
  i_end (collisionXY x1 y1 x2 y2 r) <= 1024.
Proof.
  unfold in_limit, LIMIT, collisionXY. intros Hx1 Hy1 Hx2 Hy2 Hr.
  rewrite (int32_small (x2 - x1)), (int32_small (y2 - y1))
    by (unfold INT32_MIN, INT32_MAX; lia).
  set (dx := x2 - x1). set (dy := y2 - y1).
  assert (Hdx : - 32768 <= dx <= 32768) by (unfold dx; lia).
  assert (Hdy : - 32768 <= dy <= 32768) by (unfold dy; lia).
  pose proof (square_bound dx 32768 ltac:(lia) Hdx) as Bdx.
  pose proof (square_bound dy 32768 ltac:(lia) Hdy) as Bdy.
  pose proof (square_bound x1 16384 ltac:(lia) Hx1) as Bx1.
  pose proof (square_bound y1 16384 ltac:(lia) Hy1) as By1.
  pose proof (square_bound r 16384 ltac:(lia) Hr) as Br.
  pose proof (product_bound x1 dx 16384 32768 ltac:(lia) ltac:(lia) Hx1 Hdx) as Bxd.
  pose proof (product_bound y1 dy 16384 32768 ltac:(lia) ltac:(lia) Hy1 Hdy) as Byd.
  unwrap.
  set (a := dx * dx + dy * dy) in *.
  set (b := x1 * dx + y1 * dy) in *.
  set (c := x1 * x1 + y1 * y1 - r * r) in *.
  assert (Ha : 0 <= a <= 2147483648) by (unfold a; lia).
  assert (Hb : - 1073741824 <= b <= 1073741824) by (unfold b; lia).
  assert (Hc : - 268435456 <= c <= 536870912) by (unfold c; lia).
  pose proof (square_bound b 1073741824 ltac:(lia) Hb) as Bb.
  pose proof (product_bound a c 2147483648 536870912 ltac:(lia) ltac:(lia) ltac:(lia) ltac:(lia)) as Bac.
  unwrap.
  set (d := b * b - a * c) in *.
  destruct (Z.ltb_spec d 0) as [Hd | Hd]; [simpl; lia |].
  destruct (Z.eqb_spec a 0) as [Ha0 | Ha0]; [destruct (c <? 0); simpl; lia |].
  cbn [i_end].
  assert (Hdu : d < 2 ^ 62) by (unfold d; lia).
  unfold i64Sqrt. rewrite (uint64_small d) by lia.
  pose proof (Z.sqrt_nonneg d) as Hs0.
  pose proof (Z.sqrt_spec d Hd) as [Hs1 _].
  set (sd := Z.sqrt d) in *.
  assert (Hsd : sd < 2 ^ 31) by nia.
  unwrap. rewrite MIN_spec.
  (* Cauchy-Schwarz bounds b by the step length *)
  assert (Hcs : b * b <= 536870912 * a).
  { assert (Hid : b * b + (x1 * dy - y1 * dx) * (x1 * dy - y1 * dx)
                  = (x1 * x1 + y1 * y1) * a) by (unfold a, b; ring).
    pose proof (Z.square_nonneg (x1 * dy - y1 * dx)).
    assert ((x1 * x1 + y1 * y1) * a <= 536870912 * a)
      by (apply Z.mul_le_mono_nonneg_r; lia).
    lia. }
  assert (Hba : b <= 2097152 * a).
  { destruct (Z_le_gt_dec b (2097152 * a)) as [Hle | Hgt]; [exact Hle | exfalso].
    assert (Ha1 : 1 <= a) by lia.
    assert (2097152 * a * (2097152 * a) < b * b)
      by (apply Z.mul_lt_mono_nonneg; lia).
    assert (a * 1 <= a * a) by (apply Z.mul_le_mono_nonneg_l; lia).
    lia. }
  set (X := cdiv (1024 * (- b + sd)) a).
  assert (HX : - 2 ^ 31 <= X).
  { destruct (cdiv_bounds (1024 * (- b + sd)) a ltac:(lia)) as [Hp Hq]. fold X in Hp, Hq.
    destruct (Z.le_ge_cases 0 (1024 * (- b + sd))) as [Hpos | Hneg].
    - destruct (Hp Hpos) as [? _]. lia.
    - destruct (Hq Hneg) as [_ [_ Hhi]].
      apply (Z.mul_le_mono_pos_l _ _ a); lia. }
  rewrite int32_small by (unfold INT32_MIN, INT32_MAX; lia).
  lia.
Qed.

(** C5, as stated, fails: a box of half-extent 1 and height 1 approached
    along the diagonal is reached exactly at the end of the tick, and
    [collisionXYZ] reports the time 1024, which is neither -1 nor inside the
    half-open interval [0, 1024). *)
Lemma collisionXYZ_returns_1024 :
  collisionXYZ (mkVector3i (-2) (-2) (-2)) (mkVector3i (-1) (-1) (-1))
               (mkObjectShape true 1 1) 1 = 1024.
Proof. vm_compute. reflexivity. Qed.

(** C5, amended: for relative positions, target extents and height of
    magnitude at most [LIMIT], [collisionXYZ] returns either -1 (no
    collision) or a normalized time of impact in the closed interval
    [0, 1024]; for a circular target the time is strictly below 1024. *)
Theorem collisionXYZ_range v1 v2 shape height :
  vec_in_limit v1 -> vec_in_limit v2 -> shape_in_limit shape -> in_limit height ->
  collisionXYZ v1 v2 shape height = -1 \/
  (0 <= collisionXYZ v1 v2 shape height <= 1024 /\
   (isRectangular shape = false -> collisionXYZ v1 v2 shape height < 1024)).
Proof.
  intros (Hx1 & Hy1 & Hz1) (Hx2 & Hy2 & Hz2) (Hsx & Hsy) Hh.
  pose proof (collisionZ_begin_le _ _ _ Hz1 Hz2 Hh) as Bz.
  pose proof (collisionZ_begin_le _ _ _ Hx1 Hx2 Hsx) as Bx.
  pose proof (collisionZ_begin_le _ _ _ Hy1 Hy2 Hsy) as By.
  pose proof (collisionXY_end_le _ _ _ _ _ Hx1 Hy1 Hx2 Hy2 Hsx) as Bxy.
  unfold collisionXYZ, radius.
  set (iz := collisionZ (vz v1) (vz v2) height) in *.
  set (ix := collisionZ (vx v1) (vx v2) (size_x shape)) in *.
  set (iy := collisionZ (vy v1) (vy v2) (size_y shape)) in *.
  set (ixy := collisionXY (vx v1) (vy v1) (vx v2) (vy v2) (size_x shape)) in *.
  destruct (intervalEmpty iz) eqn:Ez; cbn [negb]; [left; reflexivity |].
  destruct (isRectangular shape) eqn:Hrect.
  - destruct (intervalEmpty (intervalIntersection iz ix)) eqn:Ezx; cbn [negb].
    + rewrite Ezx. left; reflexivity.
    + destruct (intervalEmpty (intervalIntersection (intervalIntersection iz ix) iy)) eqn:Ezxy;
        cbn [negb]; [left; reflexivity | right].
      cbn [intervalIntersection i_begin]. rewrite !MAX_spec.
      split; [lia | intros Hc; discriminate Hc].
  - destruct (intervalEmpty (intervalIntersection iz ixy)) eqn:Ezc;
      cbn [negb]; [left; reflexivity | right].
    apply intervalEmpty_false in Ezc.
    cbn [intervalIntersection i_begin i_end] in *.
    rewrite !MAX_spec, !MIN_spec in *.
    split; [lia | intros _; lia].
Qed.

(** The amended statement applied to a droid-sized sphere crossed through
    its centre. *)
Lemma collisionXYZ_range_witness :
  collisionXYZ (mkVector3i (-40) 0 0) (mkVector3i 40 0 0) (mkObjectShape false 32 32) 16 = -1 \/
  (0 <= collisionXYZ (mkVector3i (-40) 0 0) (mkVector3i 40 0 0) (mkObjectShape false 32 32) 16 <= 1024 /\
   (isRectangular (mkObjectShape false 32 32) = false ->
    collisionXYZ (mkVector3i (-40) 0 0) (mkVector3i 40 0 0) (mkObjectShape false 32 32) 16 < 1024)).
Proof.
  apply collisionXYZ_range; unfold vec_in_limit, shape_in_limit, in_limit, LIMIT; simpl; lia.
Defined.

Example collisionXYZ_sphere_centre :
  collisionXYZ (mkVector3i (-40) 0 0) (mkVector3i 40 0 0) (mkObjectShape false 32 32) 16 = 102.
Proof. vm_compute. reflexivity. Qed.

(** *** Further properties of the collision tests *)

(** An interval as the set of times it holds. *)
Definition in_interval (t : Z) (i : INTERVAL) : Prop := i_begin i <= t < i_end i.

(** [intervalIntersection] is the intersection of the two sets of times,
    it is non-empty only if both intervals are, and [intervalEmpty] holds
    exactly of the intervals without a time. *)
Theorem intervalIntersection_spec (i1 i2 : INTERVAL) :
  (forall t, in_interval t (intervalIntersection i1 i2)
             <-> in_interval t i1 /\ in_interval t i2) /\
  (intervalEmpty (intervalIntersection i1 i2) = false ->
     intervalEmpty i1 = false /\ intervalEmpty i2 = false) /\
  (intervalEmpty i1 = true <-> forall t, ~ in_interval t i1).
Proof.
  split; [| split].
  - intros t. unfold in_interval, intervalIntersection. cbn [i_begin i_end].
    rewrite MAX_spec, MIN_spec. lia.
  - rewrite !intervalEmpty_false. unfold intervalIntersection. cbn [i_begin i_end].
    rewrite MAX_spec, MIN_spec. lia.
  - unfold intervalEmpty, in_interval. split.
    + intros H t. apply Z.geb_le in H. lia.
    + intros H. apply Z.geb_le.
      destruct (Z_le_gt_dec (i_end i1) (i_begin i1)) as [Hle | Hgt]; [exact Hle |].
      exfalso. apply (H (i_begin i1)). lia.
Qed.

Definition no_interval : INTERVAL := mkINTERVAL (-1) (-1).
Definition full_interval : INTERVAL := mkINTERVAL 0 1024.

Lemma intersection_no_interval i :
  intervalEmpty (intervalIntersection i no_interval) = true.
Proof.
  unfold intervalEmpty, intervalIntersection, no_interval. cbn [i_begin i_end].
  rewrite MAX_spec, MIN_spec. apply Z.geb_le. lia.
Qed.

Lemma neg_in_limit h : in_limit h -> int32 (- h) = - h.
Proof.
  unfold in_limit, LIMIT. intros H. apply int32_small. unfold INT32_MIN, INT32_MAX. lia.
Qed.

(** One axis at rest: the slab is hit during the whole tick or not at
    all. *)
Lemma collisionZ_at_rest z h :
  in_limit h ->
  collisionZ z z h = if (- h <=? z) && (z <=? h) then full_interval else no_interval.
Proof.
  intros Hh. unfold collisionZ. rewrite (neg_in_limit h Hh).
  destruct (Z.gtb_spec z z) as [Hgt | _]; [lia |].
  rewrite Z.eqb_refl.
  destruct (Z.gtb_spec z h), (Z.ltb_spec z (- h)), (Z.leb_spec (- h) z), (Z.leb_spec z h),
    (Z.geb_spec z (- h)); cbn [orb andb]; try reflexivity; lia.
Qed.

(** One axis mirrored: the slab test does not depend on the side the
    projectile comes from. *)
Lemma collisionZ_mirror z1 z2 h :
  in_limit z1 -> in_limit z2 -> in_limit h ->
  collisionZ (- z1) (- z2) h = collisionZ z1 z2 h.
Proof.
  unfold in_limit, LIMIT. intros H1 H2 Hh.
  destruct (Z.lt_trichotomy z1 z2) as [Hlt | [Heq | Hgt]].
  - unfold collisionZ.
    destruct (Z.gtb_spec (- z1) (- z2)) as [_ | Hc]; [| lia].
    destruct (Z.gtb_spec z1 z2) as [Hc | _]; [lia |].
    rewrite (int32_small (- z1 * -1)), (int32_small (- z2 * -1))
      by (unfold INT32_MIN, INT32_MAX; lia).
    replace (- z1 * -1) with z1 by lia. replace (- z2 * -1) with z2 by lia. reflexivity.
  - subst z2. rewrite !collisionZ_at_rest by (unfold in_limit, LIMIT; lia).
    destruct (Z.leb_spec (- h) (- z1)), (Z.leb_spec (- z1) h),
      (Z.leb_spec (- h) z1), (Z.leb_spec z1 h); cbn [andb]; try reflexivity; lia.
  - unfold collisionZ.
    destruct (Z.gtb_spec (- z1) (- z2)) as [Hc | _]; [lia |].
    destruct (Z.gtb_spec z1 z2) as [_ | Hc]; [| lia].
    rewrite (int32_small (z1 * -1)), (int32_small (z2 * -1))
      by (unfold INT32_MIN, INT32_MAX; lia).
    replace (z1 * -1) with (- z1) by lia. replace (z2 * -1) with (- z2) by lia. reflexivity.
Qed.

Lemma collisionXY_mirror x1 y1 x2 y2 r :
  in_limit x1 -> in_limit y1 -> in_limit x2 -> in_limit y2 ->
  collisionXY (- x1) (- y1) (- x2) (- y2) r = collisionXY x1 y1 x2 y2 r.
Proof.
  unfold in_limit, LIMIT. intros Hx1 Hy1 Hx2 Hy2. unfold collisionXY.
  rewrite (int32_small (- x2 - - x1)), (int32_small (- y2 - - y1)),
    (int32_small (x2 - x1)), (int32_small (y2 - y1))
    by (unfold INT32_MIN, INT32_MAX; lia).
  replace (- x2 - - x1) with (- (x2 - x1)) by lia.
  replace (- y2 - - y1) with (- (y2 - y1)) by lia.
  rewrite !Z.mul_opp_opp. reflexivity.
Qed.

Definition vopp (v : Vector3i) : Vector3i := mkVector3i (- vx v) (- vy v) (- vz v).

(** The swept test is symmetric under the reflection through the centre
    of the target: mirroring both samples of the relative position gives
    the same result. *)
Theorem collisionXYZ_mirror v1 v2 shape height :
  vec_in_limit v1 -> vec_in_limit v2 -> shape_in_limit shape -> in_limit height ->
  collisionXYZ (vopp v1) (vopp v2) shape height = collisionXYZ v1 v2 shape height.
Proof.
  intros (Hx1 & Hy1 & Hz1) (Hx2 & Hy2 & Hz2) (Hsx & Hsy) Hh.
  unfold collisionXYZ, vopp. cbn [vx vy vz].
  rewrite (collisionZ_mirror _ _ _ Hz1 Hz2 Hh), (collisionZ_mirror _ _ _ Hx1 Hx2 Hsx),
    (collisionZ_mirror _ _ _ Hy1 Hy2 Hsy), (collisionXY_mirror _ _ _ _ _ Hx1 Hy1 Hx2 Hy2).
  reflexivity.
Qed.

Lemma collisionXYZ_mirror_witness :
  collisionXYZ (vopp (mkVector3i (-40) 3 5)) (vopp (mkVector3i 40 (-7) 2))
               (mkObjectShape false 32 32) 16
  = collisionXYZ (mkVector3i (-40) 3 5) (mkVector3i 40 (-7) 2) (mkObjectShape false 32 32) 16.
Proof.
  apply collisionXYZ_mirror; unfold vec_in_limit, shape_in_limit, in_limit, LIMIT; simpl; lia.
Defined.

(** Whether the relative position [v] lies in the target volume: between
    the two horizontal planes, and in the closed rectangle or the open
    disc. *)
Definition inside (v : Vector3i) (shape : ObjectShape) (height : Z) : bool :=
  (- height <=? vz v) && (vz v <=? height)
  && (if isRectangular shape
      then (- size_x shape <=? vx v) && (vx v <=? size_x shape)
           && ((- size_y shape <=? vy v) && (vy v <=? size_y shape))
      else vx v * vx v + vy v * vy v <? radius shape * radius shape).

Lemma collisionXY_at_rest x y r :
  in_limit x -> in_limit y -> in_limit r ->
  collisionXY x y x y r = if x * x + y * y <? r * r then full_interval else no_interval.
Proof.
  unfold in_limit, LIMIT. intros Hx Hy Hr. unfold collisionXY.
  rewrite !Z.sub_diag. change (int32 0) with 0.
  rewrite !Z.mul_0_r. change (int64 0) with 0. cbn [Z.add].
  change (int64 0) with 0. rewrite Z.mul_0_l. change (int64 0) with 0.
  cbn [Z.mul Z.sub Z.opp Z.add]. change (int64 0) with 0.
  change (0 <? 0) with false. change (0 =? 0) with true. cbv iota.
  pose proof (square_bound x 16384 ltac:(lia) Hx).
  pose proof (square_bound y 16384 ltac:(lia) Hy).
  pose proof (square_bound r 16384 ltac:(lia) Hr).
  unwrap.
  destruct (Z.ltb_spec (x * x + y * y - r * r) 0), (Z.ltb_spec (x * x + y * y) (r * r));
    try reflexivity; lia.
Qed.

(** A projectile at rest relative to the target collides at the start of
    the tick if it is in the target volume, and not at all otherwise. *)
Theorem collisionXYZ_at_rest v shape height :
  vec_in_limit v -> shape_in_limit shape -> in_limit height ->
  collisionXYZ v v shape height = if inside v shape height then 0 else -1.
Proof.
  intros (Hx & Hy & Hz) (Hsx & Hsy) Hh.
  unfold collisionXYZ, inside, radius.
  rewrite (collisionZ_at_rest _ _ Hh), (collisionZ_at_rest _ _ Hsx),
    (collisionZ_at_rest _ _ Hsy), (collisionXY_at_rest _ _ _ Hx Hy Hsx).
  destruct ((- height <=? vz v) && (vz v <=? height)); [| reflexivity].
  destruct (isRectangular shape).
  - destruct ((- size_x shape <=? vx v) && (vx v <=? size_x shape));
      destruct ((- size_y shape <=? vy v) && (vy v <=? size_y shape)); reflexivity.
  - destruct (vx v * vx v + vy v * vy v <? size_x shape * size_x shape); reflexivity.
Qed.

Lemma collisionXYZ_at_rest_witness :
  collisionXYZ (mkVector3i 3 4 5) (mkVector3i 3 4 5) (mkObjectShape false 6 6) 16
  = if inside (mkVector3i 3 4 5) (mkObjectShape false 6 6) 16 then 0 else -1.
Proof.
  apply collisionXYZ_at_rest; unfold vec_in_limit, shape_in_limit, in_limit, LIMIT; simpl; lia.
Defined.

(** Both samples beyond the slab on the same side. *)
Definition separated (z1 z2 h : Z) : Prop :=
  (h < z1 /\ h < z2) \/ (z1 < - h /\ z2 < - h).

Lemma collisionZ_separated z1 z2 h :
  in_limit z1 -> in_limit z2 -> in_limit h -> separated z1 z2 h ->
  collisionZ z1 z2 h = no_interval.
Proof.
  unfold in_limit, LIMIT, separated. intros H1 H2 Hh Hsep. unfold collisionZ.
  rewrite (neg_in_limit h) by (unfold in_limit, LIMIT; lia).
  destruct (Z.gtb_spec z1 z2) as [Hgt | Hle].
  - rewrite (int32_small (z1 * -1)), (int32_small (z2 * -1))
      by (unfold INT32_MIN, INT32_MAX; lia).
    destruct (Z.gtb_spec (z1 * -1) h), (Z.ltb_spec (z2 * -1) (- h));
      cbn [orb]; try reflexivity; lia.
  - destruct (Z.gtb_spec z1 h), (Z.ltb_spec z2 (- h)); cbn [orb]; try reflexivity; lia.
Qed.

(** No collision is reported when both samples lie above the target or
    both below it, and, for a rectangular target, when both lie beyond the
    same face of the rectangle. *)
Theorem collisionXYZ_separated v1 v2 shape height :
  vec_in_limit v1 -> vec_in_limit v2 -> shape_in_limit shape -> in_limit height ->
  separated (vz v1) (vz v2) height \/
  (isRectangular shape = true /\
   (separated (vx v1) (vx v2) (size_x shape) \/ separated (vy v1) (vy v2) (size_y shape))) ->
  collisionXYZ v1 v2 shape height = -1.
Proof.
  intros (Hx1 & Hy1 & Hz1) (Hx2 & Hy2 & Hz2) (Hsx & Hsy) Hh Hsep.
  unfold collisionXYZ.
  destruct Hsep as [Hz | (Hrect & [Hx | Hy])].
  - rewrite (collisionZ_separated _ _ _ Hz1 Hz2 Hh Hz). reflexivity.
  - rewrite Hrect, (collisionZ_separated _ _ _ Hx1 Hx2 Hsx Hx).
    destruct (negb (intervalEmpty (collisionZ (vz v1) (vz v2) height))); [| reflexivity].
    rewrite intersection_no_interval. cbn [negb].
    rewrite intersection_no_interval. reflexivity.
  - rewrite Hrect, (collisionZ_separated _ _ _ Hy1 Hy2 Hsy Hy).
    destruct (negb (intervalEmpty (collisionZ (vz v1) (vz v2) height))); [| reflexivity].
    destruct (negb (intervalEmpty (intervalIntersection _ (collisionZ (vx v1) _ _)))) eqn:E.
    + rewrite intersection_no_interval. reflexivity.
    + apply negb_false_iff in E. rewrite E. reflexivity.
Qed.

Lemma collisionXYZ_separated_witness :
  collisionXYZ (mkVector3i 0 0 40) (mkVector3i 10 0 20) (mkObjectShape true 64 64) 16 = -1.
Proof.
  apply collisionXYZ_separated;
    unfold vec_in_limit, shape_in_limit, in_limit, LIMIT, separated; simpl; lia.
Defined.

(** One axis whose current sample lies strictly inside the slab: the slab
    is entered before the end of the tick and not left during it. *)
Lemma collisionZ_end_inside z1 z2 h :
  in_limit z1 -> in_limit z2 -> in_limit h -> - h < z2 < h ->
  i_begin (collisionZ z1 z2 h) <= 1023 /\ 1024 <= i_end (collisionZ z1 z2 h).
Proof.
  intros H1 H2 Hh Hin.
  assert (Hnorm : forall a b, in_limit a -> in_limit b -> a <= b -> - h < b < h ->
            i_begin (collisionZ a b h) <= 1023 /\ 1024 <= i_end (collisionZ a b h)).
  { clear z1 z2 H1 H2 Hin. intros a b Ha Hb Hab Hin.
    destruct (Z.eq_dec a b) as [-> | Hne].
    - rewrite collisionZ_at_rest by exact Hh.
      destruct (Z.leb_spec (- h) b), (Z.leb_spec b h); cbn; lia.
    - unfold in_limit, LIMIT in *. unfold collisionZ.
      rewrite (neg_in_limit h) by (unfold in_limit, LIMIT; lia).
      destruct (Z.gtb_spec a b) as [Hc | _]; [lia |].
      destruct (Z.gtb_spec a h) as [Hc | _]; [lia |].
      destruct (Z.ltb_spec b (- h)) as [Hc | _]; [lia |]. cbn [orb].
      destruct (Z.eqb_spec a b) as [Hc | _]; [lia |].
      cbn [i_begin i_end]. unwrap.
      set (d := b - a). assert (Hd : 0 < d) by (unfold d; lia).
      split.
      + set (m := - h - a). assert (Hm : m < d) by (unfold m, d; lia).
        destruct (cdiv_bounds (1024 * m) d Hd) as [Hp Hq].
        destruct (Z.le_ge_cases 0 m) as [Hm0 | Hm0].
        * destruct (Hp ltac:(lia)) as [_ [Hlo _]].
          assert (d * cdiv (1024 * m) d < d * 1024) by lia.
          apply Z.mul_lt_mono_pos_l in H; lia.
        * destruct (Hq ltac:(lia)) as [Hlo _]. lia.
      + set (m := h - a). assert (Hm : d < m) by (unfold m, d; lia).
        destruct (cdiv_bounds (1024 * m) d Hd) as [Hp _].
        destruct (Hp ltac:(lia)) as [_ [_ Hhi]].
        assert (d * 1024 < d * (cdiv (1024 * m) d + 1)) by lia.
        apply Z.mul_lt_mono_pos_l in H; lia. }
  destruct (Z_le_gt_dec z1 z2) as [Hle | Hgt].
  - apply Hnorm; assumption.
  - rewrite <- collisionZ_mirror by assumption.
    unfold in_limit, LIMIT in *. apply Hnorm; unfold in_limit, LIMIT; lia.
Qed.

(** A projectile whose current sample lies strictly inside a rectangular
    target is reported as a collision, at a time before the end of the
    tick. *)
Theorem collisionXYZ_box_end_inside v1 v2 shape height :
  vec_in_limit v1 -> vec_in_limit v2 -> shape_in_limit shape -> in_limit height ->
  isRectangular shape = true ->
  - height < vz v2 < height ->
  - size_x shape < vx v2 < size_x shape ->
  - size_y shape < vy v2 < size_y shape ->
  0 <= collisionXYZ v1 v2 shape height <= 1023.
Proof.
  intros (Hx1 & Hy1 & Hz1) (Hx2 & Hy2 & Hz2) (Hsx & Hsy) Hh Hrect Hz Hx Hy.
  pose proof (collisionZ_end_inside _ _ _ Hz1 Hz2 Hh Hz) as [Bz Ez].
  pose proof (collisionZ_end_inside _ _ _ Hx1 Hx2 Hsx Hx) as [Bx Ex].
  pose proof (collisionZ_end_inside _ _ _ Hy1 Hy2 Hsy Hy) as [By Ey].
  unfold collisionXYZ. rewrite Hrect.
  set (iz := collisionZ (vz v1) (vz v2) height) in *.
  set (ix := collisionZ (vx v1) (vx v2) (size_x shape)) in *.
  set (iy := collisionZ (vy v1) (vy v2) (size_y shape)) in *.
  assert (Ez0 : intervalEmpty iz = false) by (apply intervalEmpty_false; lia).
  assert (Ezx : intervalEmpty (intervalIntersection iz ix) = false).
  { apply intervalEmpty_false. cbn [intervalIntersection i_begin i_end].
    rewrite MAX_spec, MIN_spec. lia. }
  assert (Ezxy : intervalEmpty (intervalIntersection (intervalIntersection iz ix) iy) = false).
  { apply intervalEmpty_false. cbn [intervalIntersection i_begin i_end].
    rewrite !MAX_spec, !MIN_spec. lia. }
  rewrite Ez0. cbn [negb]. rewrite Ezx. cbn [negb]. rewrite Ezxy. cbn [negb].
  cbn [intervalIntersection i_begin]. rewrite !MAX_spec. lia.
Qed.

Lemma collisionXYZ_box_end_inside_witness :
  0 <= collisionXYZ (mkVector3i (-200) 10 5) (mkVector3i (-20) 10 5)
                    (mkObjectShape true 64 64) 16 <= 1023.
Proof.
  apply collisionXYZ_box_end_inside;
    unfold vec_in_limit, shape_in_limit, in_limit, LIMIT; simpl; try lia; reflexivity.
Defined.

End Geometry.

(* ===================================================================== *)
(** ** Trajectory solver (projectile.cpp, lines 389-443) *)
(* ===================================================================== *)

Module Trajectory.
Import Geometry.

(** [ACC_GRAVITY] (projectile.h) and [GAME_TICKS_PER_SEC]
    (lib/gamelib/gtime.h) are macros of headers outside the examined
    sources.  They are fixed here to the values of the Warzone 2100
    headers, which satisfy the STATIC_ASSERT of
    [projCalcIndirectVelocities] (projectile.cpp:420). *)
Definition ACC_GRAVITY : Z := 1000.
Definition GAME_TICKS_PER_SEC : Z := 1000.

Lemma STATIC_ASSERT_ticks_gravity :
  cdiv GAME_TICKS_PER_SEC ACC_GRAVITY * ACC_GRAVITY = GAME_TICKS_PER_SEC.
Proof. reflexivity. Qed.

(** [iSqrt] is the 32-bit sibling of [i64Sqrt] in lib/framework/trig: the
    integer square root, rounded down, of its unsigned 32-bit argument. *)
Definition iSqrt (n : Z) : Z := Z.sqrt (uint32 n).

(** [randomVariation val]: "Up to +-5% random variation".  The argument
    [draw] stands for the value returned by the call [gameRand(10001)],
    a number in [0, 10000] taken from the synchronised game random
    stream (lib random.h, outside the examined sources). *)
Definition randomVariation (draw : Z) (val : Z) : Z :=
  int32 (cdiv (int64 (val * uint32 (95000 + draw))) 100000).

Section Solver.

(** The trigonometric tables of lib/framework/trig: angles are 16-bit
    fractions of a full turn, sines and cosines are scaled by 65536. *)
Variable iAtan2 : Z -> Z -> Z.
Variable iSin : Z -> Z.
Variable iCos : Z -> Z.

(** The three results of the solver: the two out-parameters and the
    returned flight time. *)
Record Velocities := mkVelocities { out_vx : Z; out_vz : Z; out_t : Z }.

(** The quantities of the first stage: [a], [b] and the discriminant [c]. *)
Definition solve_a (draw dz v : Z) : Z :=
  int32 (randomVariation draw (int32 (v * v)) - int32 (dz * ACC_GRAVITY)).

Definition solve_b (dx dz : Z) : Z :=
  uint64 (uint64 (int32 (ACC_GRAVITY * ACC_GRAVITY))
          * uint64 (uint64 (uint64 dx * uint64 dx) + uint64 (uint64 dz * uint64 dz))).

Definition solve_c (a b : Z) : Z :=
  int64 (uint64 (uint64 (uint64 a * uint64 a) - b)).

(** Lines 404-428: the solution of the ballistic equations, with the
    speed raised when the target is out of reach ([c < 0]) and the shot
    levelled when it would point downwards ([vz < 0]). *)
Definition ballistic (draw : Z) (dx dz v : Z) : Velocities :=
  let g := ACC_GRAVITY in
  let a := solve_a draw dz v in
  let b := solve_b dx dz in
  let c := solve_c a b in
  let '(a, c) :=
    if c <? 0 then
      let a' := int32 (i64Sqrt b + 1) in (a', solve_c a' b)
    else (a, c) in
  let t := int32 (MAX 1 (int32 (iSqrt (int32 (2 * int32 (a - i64Sqrt c)))
                                * cdiv GAME_TICKS_PER_SEC g))) in
  let vx := cdiv (int32 (dx * GAME_TICKS_PER_SEC)) t in
  let vz := int32 (cdiv (int32 (dz * GAME_TICKS_PER_SEC)) t
                   + cdiv (int32 (g * t)) (int32 (2 * GAME_TICKS_PER_SEC))) in
  if vz <? 0 then
    let t' := int32 (MAX 1 (i64Sqrt
                (uint64 (uint64 (uint64 (int32 (-2 * dz)) * GAME_TICKS_PER_SEC)
                         * GAME_TICKS_PER_SEC) / uint64 g))) in
    mkVelocities (cdiv (int32 (dx * GAME_TICKS_PER_SEC)) t') 0 t'
  else mkVelocities vx vz t.

(** Line 435: [tan(min_angle)], scaled by 65536.  The source divides by
    [iCos(min_angle)] without a guard; when the cosine is 0 the division
    has no result, and neither has the call. *)
Definition mytan (min_angle : Z) : option Z :=
  if iCos min_angle =? 0 then None
  else Some (cdiv (int64 (iSin min_angle * 65536)) (iCos min_angle)).

(** Lines 436-439: the trajectory that leaves at the slope [mytan]. *)
Definition clearing (dx dz mytan : Z) : Velocities :=
  let g := ACC_GRAVITY in
  let t := int32 (MAX 1 (i64Sqrt
              (cdiv (int64 (int64 (int64 (2 * int64 (int64 (dx * mytan)
                                                     - int32 (dz * 65536)))
                                   * GAME_TICKS_PER_SEC) * GAME_TICKS_PER_SEC))
                    (int32 (g * 65536))))) in
  let vx := cdiv (int32 (dx * GAME_TICKS_PER_SEC)) t in
  mkVelocities vx (int32 (cdiv (int64 (mytan * vx)) 65536)) t.

(** Line 431: whether the exit angle is below [min_angle]. *)
Definition min_angle_applies (draw : Z) (dx dz v min_angle : Z) : bool :=
  let s := ballistic draw dx dz v in
  iAtan2 (out_vz s) (out_vx s) <? min_angle.

(** The whole function: [None] where the call divides by zero. *)
Definition projCalcIndirectVelocities
    (draw : Z) (dx dz v min_angle : Z) : option Velocities :=
  if min_angle_applies draw dx dz v min_angle
  then match mytan min_angle with
       | Some m => Some (clearing dx dz m)
       | None => None
       end
  else Some (ballistic draw dx dz v).

(** The slope (scaled by 65536) the returned trajectory was forced to. *)
Definition forced_slope (draw : Z) (dx dz v min_angle : Z) : Z :=
  if min_angle_applies draw dx dz v min_angle
  then match mytan min_angle with Some m => m | None => 0 end
  else 0.

(** [2 * GAME_TICKS_PER_SEC^2] times the height by which the parabola
    [z(s) = vz*s - g*s^2/2] misses [dz] at the returned time (velocities
    are in units per second, times in ticks). *)
Definition parabola_error (s : Velocities) (dz : Z) : Z :=
  2 * GAME_TICKS_PER_SEC * out_vz s * out_t s
  - ACC_GRAVITY * out_t s * out_t s
  - 2 * GAME_TICKS_PER_SEC * GAME_TICKS_PER_SEC * dz.

(** [GAME_TICKS_PER_SEC] times the distance by which [x(s) = vx*s] falls
    short of [dx] at the returned time. *)
Definition range_error (s : Velocities) (dx : Z) : Z :=
  dx * GAME_TICKS_PER_SEC - out_vx s * out_t s.

Lemma iSqrt_range n : 0 <= iSqrt n <= 65535.
Proof.
  unfold iSqrt, uint32.
  pose proof (Z.mod_pos_bound n (2 ^ 32) ltac:(lia)) as Hm.
  split; [apply Z.sqrt_nonneg |].
  assert (Z.sqrt (n mod 2 ^ 32) < 65536); [| lia].
  apply Z.sqrt_lt_square; lia.
Qed.

Lemma sqrt_bracket n : 0 <= n -> 0 <= Z.sqrt n /\ Z.sqrt n * Z.sqrt n <= n < (Z.sqrt n + 1) * (Z.sqrt n + 1).
Proof.
  intros Hn. split; [apply Z.sqrt_nonneg |].
  pose proof (Z.sqrt_spec n Hn) as H. unfold Z.succ in H. exact H.
Qed.

Lemma slack_times T e k : 1 <= T -> - k < e -> - (k * T) < e * T.
Proof. intros. nia. Qed.

Lemma ballistic_spec draw dx dz v :
  0 <= dx <= 65536 -> - 16384 <= dz <= 16384 ->
  let s := ballistic draw dx dz v in
  1 <= out_t s <= 65535 /\
  out_vx s = cdiv (dx * GAME_TICKS_PER_SEC) (out_t s) /\
  0 <= out_vz s <= 2147483647 /\
  - (4000 * out_t s) < parabola_error s dz < 4000 * out_t s.
Proof.
  intros Hdx Hdz. unfold ballistic, parabola_error, GAME_TICKS_PER_SEC, ACC_GRAVITY.
  destruct (if solve_c _ _ <? 0 then _ else _) as [a c].
  change (cdiv 1000 1000) with 1. change (2 * 1000) with 2000.
  pose proof (iSqrt_range (int32 (2 * int32 (a - i64Sqrt c)))) as Hs.
  set (r := iSqrt _) in *.
  rewrite MAX_spec. unwrap.
  set (T := Z.max 1 (r * 1)).
  assert (HT : 1 <= T <= 65535) by (unfold T; lia).
  unwrap.
  destruct (cdiv_bounds (dz * 1000) T ltac:(lia)) as [Hp1 Hn1].
  destruct (cdiv_bounds (1000 * T) 2000 ltac:(lia)) as [Hp2 _].
  specialize (Hp2 ltac:(lia)).
  pose proof (cdiv_abs_le (dz * 1000) T ltac:(lia)) as Habs.
  set (q1 := cdiv (dz * 1000) T) in *.
  set (q2 := cdiv (1000 * T) 2000) in *.
  unwrap.
  destruct (Z.ltb_spec (q1 + q2) 0) as [Hneg | Hpos].
  - (* the shot would point downwards *)
    cbn [out_t out_vx out_vz].
    assert (Hdz0 : dz < 0).
    { destruct (Z_lt_ge_dec dz 0) as [Hlt | Hge]; [exact Hlt | exfalso].
      destruct (Hp1 ltac:(lia)) as [? _]. lia. }
    unwrap.
    rewrite (uint64_small (-2 * dz)) by lia.
    rewrite (uint64_small (-2 * dz * 1000)) by lia.
    rewrite (uint64_small (-2 * dz * 1000 * 1000)) by lia.
    rewrite (uint64_small 1000) by lia.
    replace (-2 * dz * 1000 * 1000 / 1000) with (- 2000 * dz)
      by (apply Z.div_unique_exact; lia).
    unfold i64Sqrt. rewrite (uint64_small (-2000 * dz)) by lia.
    destruct (sqrt_bracket (-2000 * dz) ltac:(lia)) as (Hs0 & Hs1 & Hs2).
    assert (Hlo : 44 <= Z.sqrt (-2000 * dz))
      by (change 44 with (Z.sqrt 1936); apply Z.sqrt_le_mono; lia).
    assert (Hhi : Z.sqrt (-2000 * dz) < 5725)
      by (apply Z.sqrt_lt_square; lia).
    set (sq := Z.sqrt (-2000 * dz)) in *.
    rewrite MAX_spec. unwrap.
    replace (Z.max 1 sq) with sq by lia.
    repeat split; lia.
  - cbn [out_t out_vx out_vz].
    repeat split; try lia.
    + assert (- (2000 * T) < 2000 * (q1 * T) - 2000000 * dz < 2000 * T).
      { destruct (Z.le_ge_cases 0 (dz * 1000)) as [H0 | H0];
          [destruct (Hp1 H0) as [_ ?] | destruct (Hn1 H0) as [_ ?]]; lia. }
      assert (- (2000 * T) < (2000 * q2 - 1000 * T) * T)
        by (apply (slack_times T (2000 * q2 - 1000 * T) 2000); lia).
      lia.
    + assert (- (2000 * T) < 2000 * (q1 * T) - 2000000 * dz < 2000 * T).
      { destruct (Z.le_ge_cases 0 (dz * 1000)) as [H0 | H0];
          [destruct (Hp1 H0) as [_ ?] | destruct (Hn1 H0) as [_ ?]]; lia. }
      assert ((2000 * q2 - 1000 * T) * T <= 0)
        by (apply Z.mul_nonpos_nonneg; lia).
      lia.
Qed.

Lemma scale_le a b t : 0 <= t -> a <= b -> a * t <= b * t.
Proof. intros. nia. Qed.

Lemma scale_lt a b t : 0 < t -> a < b -> a * t < b * t.
Proof. intros. nia. Qed.

Lemma clearing_spec dx dz M :
  0 <= dx <= 65536 -> - 16384 <= dz <= 16384 ->
  0 <= M <= 2097152 ->
  dz * 65536 <= dx * M ->
  let s := clearing dx dz M in
  1 <= out_t s <= 65535 /\
  out_vx s = cdiv (dx * GAME_TICKS_PER_SEC) (out_t s) /\
  0 <= out_vz s <= 2147483647 /\
  - (2000 * out_t s * (M + 65536) + 65536000)
    < 65536 * parabola_error s dz
    < 65536000 * (2 * out_t s + 2).
Proof.
  intros Hdx Hdz HM HD.
  unfold clearing, parabola_error, GAME_TICKS_PER_SEC, ACC_GRAVITY.
  change (1000 * 65536) with 65536000.
  assert (HdM : 0 <= dx * M <= 65536 * 2097152) by nia.
  unwrap.
  set (D := dx * M - dz * 65536) in *.
  assert (HDr : 0 <= D <= 65536 * 2097152 + 1073741824) by (unfold D; lia).
  unwrap.
  destruct (cdiv_bounds (2 * D * 1000 * 1000) 65536000 ltac:(lia)) as [HX _].
  specialize (HX ltac:(lia)). destruct HX as (HX0 & HX1 & HX2).
  set (X := cdiv (2 * D * 1000 * 1000) 65536000) in *.
  unfold i64Sqrt. rewrite (uint64_small X) by lia.
  destruct (sqrt_bracket X HX0) as (Hs0 & Hs1 & Hs2).
  assert (Hhi : Z.sqrt X < 65535) by (apply Z.sqrt_lt_square; lia).
  set (sq := Z.sqrt X) in *.
  rewrite MAX_spec. unwrap.
  set (t := Z.max 1 sq).
  assert (Ht : 1 <= t <= 65535) by (unfold t; lia).
  assert (Htt : sq * sq <= t * t /\ (sq + 1) * (sq + 1) <= (t + 1) * (t + 1)
                /\ t * t <= sq * sq + 1).
  { destruct (Z.eq_dec sq 0) as [E | E].
    - rewrite E in *. replace t with 1 by (unfold t; lia). lia.
    - replace t with sq by (unfold t; lia). lia. }
  destruct (cdiv_bounds (dx * 1000) t ltac:(lia)) as [Hvx _].
  specialize (Hvx ltac:(lia)). destruct Hvx as (Hvx0 & Hvx1 & Hvx2).
  set (vx' := cdiv (dx * 1000) t) in *.
  assert (Hvxr : vx' <= 65536000) by nia.
  assert (HP : 0 <= M * vx' <= 2097152 * 65536000) by nia.
  unwrap.
  destruct (cdiv_bounds (M * vx') 65536 ltac:(lia)) as [HQ _].
  specialize (HQ ltac:(lia)). destruct HQ as (HQ0 & HQ1 & HQ2).
  set (Q := cdiv (M * vx') 65536) in *.
  unwrap. cbn [out_t out_vx out_vz].
  pose proof (scale_le _ _ t ltac:(lia) HQ1) as A1.
  pose proof (scale_lt _ _ t ltac:(lia) HQ2) as A2.
  pose proof (scale_le _ _ M ltac:(lia) Hvx1) as A3.
  assert (A4 : dx * 1000 * M <= (t * vx' + t) * M) by (apply scale_le; lia).
  unfold D in *. repeat split; lia.
Qed.

Lemma randomVariation_bounds draw val :
  0 <= draw <= 10000 -> 0 <= val <= 2025000000 ->
  95 * val - 100 < 100 * randomVariation draw val <= 105 * val.
Proof.
  intros Hd Hv. unfold randomVariation.
  rewrite (uint32_small (95000 + draw)) by lia.
  assert (Hp : 0 <= val * (95000 + draw) <= 2025000000 * 105000) by nia.
  unwrap.
  destruct (cdiv_bounds (val * (95000 + draw)) 100000 ltac:(lia)) as [Hq _].
  specialize (Hq ltac:(lia)). destruct Hq as (Hq0 & Hq1 & Hq2).
  set (q := cdiv (val * (95000 + draw)) 100000) in *.
  assert (val * 95000 <= val * (95000 + draw) <= val * 105000) by nia.
  unwrap. lia.
Qed.

(** The unguarded division: when the minimum angle is enforced and its
    cosine is 0, the call has no result. *)
Lemma projCalcIndirectVelocities_divides_by_zero draw dx dz v min_angle :
  min_angle_applies draw dx dz v min_angle = true ->
  iCos min_angle = 0 ->
  projCalcIndirectVelocities draw dx dz v min_angle = None.
Proof.
  intros Happ Hcos. unfold projCalcIndirectVelocities, mytan.
  rewrite Happ, Hcos. reflexivity.
Qed.

(** C3, amended.  For a horizontal distance of at most 65536 units, a
    height difference of at most 16384 units, any draw and any speed, and
    whenever the minimum angle is enforced a cosine that is not 0 (the
    division by it is not guarded) and a tangent in [0, 32] that clears
    the target, the call returns; the returned flight time is at least one
    tick, so that every division by it is guarded, [vx] is non-negative
    (positive exactly when [dx * GAME_TICKS_PER_SEC] reaches the flight
    time), [vz] is non-negative, and the parabola passes through
    [(dx, dz)] at the returned time: [x] falls short of [dx] by less than
    [t / GAME_TICKS_PER_SEC] units and [z] misses [dz] by less than
    [(t * (slope + 2) + 1) / GAME_TICKS_PER_SEC] units. *)
Theorem projCalcIndirectVelocities_correct draw dx dz v min_angle :
  0 <= dx <= 65536 -> - 16384 <= dz <= 16384 ->
  (min_angle_applies draw dx dz v min_angle = true ->
     iCos min_angle <> 0 /\
     exists m, mytan min_angle = Some m /\
               0 <= m <= 2097152 /\ dz * 65536 <= dx * m) ->
  exists s,
    projCalcIndirectVelocities draw dx dz v min_angle = Some s /\
    1 <= out_t s /\
    0 <= out_vx s /\ (0 < out_vx s <-> out_t s <= dx * GAME_TICKS_PER_SEC) /\
    0 <= out_vz s /\
    0 <= range_error s dx < out_t s /\
    Z.abs (65536 * parabola_error s dz)
      < 2000 * out_t s * (forced_slope draw dx dz v min_angle + 131072) + 131072000.
Proof.
  intros Hdx Hdz Hmin. unfold projCalcIndirectVelocities, forced_slope, range_error.
  assert (H : exists s k,
              (if min_angle_applies draw dx dz v min_angle
               then match mytan min_angle with
                    | Some m => Some (clearing dx dz m)
                    | None => None
                    end
               else Some (ballistic draw dx dz v)) = Some s /\
              (if min_angle_applies draw dx dz v min_angle
               then match mytan min_angle with Some m => m | None => 0 end
               else 0) = k /\
              1 <= out_t s <= 65535 /\
              out_vx s = cdiv (dx * GAME_TICKS_PER_SEC) (out_t s) /\
              0 <= out_vz s /\ 0 <= k /\
              Z.abs (65536 * parabola_error s dz)
                < 2000 * out_t s * (k + 131072) + 131072000).
  { destruct (min_angle_applies draw dx dz v min_angle).
    - destruct (Hmin eq_refl) as (_ & m & Hm & HM & HD). rewrite Hm.
      exists (clearing dx dz m), m.
      destruct (clearing_spec dx dz m Hdx Hdz HM HD) as (Ht & Hvx & Hvz & He).
      set (E := parabola_error _ _) in *. set (T := out_t _) in *.
      split; [reflexivity | split; [reflexivity |]].
      split; [exact Ht | split; [exact Hvx | split; [lia | split; [lia |]]]].
      apply Z.abs_lt. lia.
    - exists (ballistic draw dx dz v), 0.
      destruct (ballistic_spec draw dx dz v Hdx Hdz) as (Ht & Hvx & Hvz & He).
      set (E := parabola_error _ _) in *. set (T := out_t _) in *.
      split; [reflexivity | split; [reflexivity |]].
      split; [exact Ht | split; [exact Hvx | split; [lia | split; [lia |]]]].
      apply Z.abs_lt. lia. }
  destruct H as (s & k & Hs & Hk0 & Ht & Hvx & Hvz & Hk & He).
  exists s. split; [exact Hs |]. rewrite Hk0.
  unfold GAME_TICKS_PER_SEC in *.
  destruct (cdiv_bounds (dx * 1000) (out_t s) ltac:(lia)) as [Hq _].
  specialize (Hq ltac:(lia)). rewrite <- Hvx in Hq. destruct Hq as (Hq0 & Hq1 & Hq2).
  clear Hvx Hmin Hs.
  set (T := out_t s) in *. set (V := out_vx s) in *.
  split; [lia |]. split; [exact Hq0 |]. split.
  { split.
    - intros Hpos. assert (T * 1 <= T * V) by (apply Z.mul_le_mono_nonneg_l; lia). lia.
    - intros Hle. destruct (Z.eq_dec V 0) as [E | E]; [rewrite E in *; lia | lia]. }
  split; [exact Hvz |]. split; [lia |].
  exact He.
Qed.

(** C4, amended.  [randomVariation] scales the squared speed by a factor
    [(95000 + draw) / 100000] with [draw] in [0, 10000], rounded toward
    zero, so for every draw and every speed [4 <= v <= 45000] the square
    of the effective speed lies between [(0.95 v)^2] and [(1.05 v)^2];
    and, for tables whose angles are non-negative, the draws 0 and 10000
    give different trajectories for the same target and speed. *)
Theorem randomVariation_perturbs_speed :
  (forall s c, 0 <= iAtan2 s c) ->
  (forall draw v, 0 <= draw <= 10000 -> 4 <= v <= 45000 ->
     (95 * v) * (95 * v) <= 100 * 100 * randomVariation draw (int32 (v * v))
                         <= (105 * v) * (105 * v)) /\
  projCalcIndirectVelocities 0 1000 0 2000 0
    <> projCalcIndirectVelocities 10000 1000 0 2000 0.
Proof.
  intros Hatan. split.
  - intros draw v Hd Hv.
    assert (Hvv : 16 <= v * v <= 2025000000) by nia.
    unwrap.
    pose proof (randomVariation_bounds draw (v * v) Hd ltac:(lia)) as Hb.
    set (rv := randomVariation draw (v * v)) in *.
    destruct (Z.eq_dec v 4) as [-> | Hne]; [lia |].
    assert (25 <= v * v) by nia. lia.
  - unfold projCalcIndirectVelocities, min_angle_applies.
    replace (ballistic 0 1000 0 2000) with (mkVelocities 1934 258 517)
      by (vm_compute; reflexivity).
    replace (ballistic 10000 1000 0 2000) with (mkVelocities 2036 245 491)
      by (vm_compute; reflexivity).
    cbn [out_vz out_vx].
    destruct (Z.ltb_spec (iAtan2 258 1934) 0) as [Hlt | _];
      [specialize (Hatan 258 1934); lia |].
    destruct (Z.ltb_spec (iAtan2 245 2036) 0) as [Hlt | _];
      [specialize (Hatan 245 2036); lia |].
    discriminate.
Qed.

End Solver.

(** A stand-in for the trigonometric tables, used to evaluate the solver
    on concrete inputs: exact on the coordinate axes (a quarter turn is
    16384) and on the angles 0 and 8192 (an eighth of a turn, where sine
    and cosine coincide). *)
Definition axis_iAtan2 (s c : Z) : Z :=
  if (s =? 0) && (c =? 0) then 0
  else if s =? 0 then (if c >? 0 then 0 else 32768)
  else if c =? 0 then (if s >? 0 then 16384 else 49152)
  else if s >? 0 then (if c >? 0 then 8192 else 24576)
  else (if c >? 0 then 57344 else 40960).
Definition axis_iSin (a : Z) : Z := if a =? 0 then 0 else 46341.
Definition axis_iCos (a : Z) : Z := if a =? 0 then 65536 else 46341.

Definition solve := projCalcIndirectVelocities axis_iAtan2 axis_iSin axis_iCos.

(** The scenario of the specification: [dz = 0], [dx = 1000], [v = 200],
    [min_angle = 0] yields a positive arc. *)
Example solve_scenario :
  solve 5000 1000 0 200 0 = Some (mkVelocities 707 706 1413).
Proof. vm_compute. reflexivity. Qed.

(** Tables that are exact at a quarter turn as well, where the cosine
    is 0. *)
Definition quarter_iSin (a : Z) : Z := if a =? 16384 then 65536 else axis_iSin a.
Definition quarter_iCos (a : Z) : Z := if a =? 16384 then 0 else axis_iCos a.

(** C3, as stated, fails twice.  A target straight above or below the
    muzzle ([dx = 0]) gets [vx = 0], which is not positive; and not every
    division is guarded: with a minimum angle of a quarter turn the call
    divides by [iCos(16384) = 0]. *)
Lemma projCalcIndirectVelocities_fails_as_stated :
  option_map out_vx (solve 5000 0 0 200 0) = Some 0 /\
  min_angle_applies axis_iAtan2 5000 1000 0 200 16384 = true /\
  quarter_iCos 16384 = 0 /\
  projCalcIndirectVelocities axis_iAtan2 quarter_iSin quarter_iCos 5000 1000 0 200 16384
    = None.
Proof. vm_compute. repeat split; reflexivity. Qed.

Lemma projCalcIndirectVelocities_correct_witness :
  exists s,
    solve 5000 1000 0 200 0 = Some s /\
    1 <= out_t s /\
    0 <= out_vx s /\ (0 < out_vx s <-> out_t s <= 1000 * GAME_TICKS_PER_SEC) /\
    0 <= out_vz s /\
    0 <= range_error s 1000 < out_t s /\
    Z.abs (65536 * parabola_error s 0)
      < 2000 * out_t s
        * (forced_slope axis_iAtan2 axis_iSin axis_iCos 5000 1000 0 200 0 + 131072)
        + 131072000.
Proof.
  apply (projCalcIndirectVelocities_correct axis_iAtan2 axis_iSin axis_iCos 5000 1000 0 200 0).
  - lia.
  - lia.
  - intros H. vm_compute in H. discriminate H.
Defined.

(** C4, as stated, fails: at speed 1 and draw 0 the perturbed squared
    speed is truncated to 0, so the effective speed is 0, outside
    [0.95, 1.05]. *)
Lemma randomVariation_truncates_to_zero :
  randomVariation 0 (int32 (1 * 1)) = 0 /\
  100 * 100 * randomVariation 0 (int32 (1 * 1)) < (95 * 1) * (95 * 1).
Proof. vm_compute. split; reflexivity. Qed.

Lemma randomVariation_perturbs_speed_witness :
  (forall draw v, 0 <= draw <= 10000 -> 4 <= v <= 45000 ->
     (95 * v) * (95 * v) <= 100 * 100 * randomVariation draw (int32 (v * v))
                         <= (105 * v) * (105 * v)) /\
  solve 0 1000 0 2000 0 <> solve 10000 1000 0 2000 0.
Proof.
  apply (randomVariation_perturbs_speed axis_iAtan2 axis_iSin axis_iCos).
  intros s c. unfold axis_iAtan2.
  repeat match goal with |- context [if ?b then _ else _] => destruct b end; lia.
Defined.

(** *** Further properties of the solver *)

(** The middle draw leaves the value as it is, and a larger draw never
    gives a smaller value. *)
Theorem randomVariation_monotone (val draw draw' : Z) :
  0 <= val <= 2000000000 -> 0 <= draw <= draw' -> draw' <= 10000 ->
  randomVariation 5000 val = val /\
  randomVariation draw val <= randomVariation draw' val.
Proof.
  intros Hv Hd Hd'.
  assert (Hform : forall k, 0 <= k <= 10000 ->
            randomVariation k val = val * (95000 + k) / 100000 /\
            0 <= val * (95000 + k) <= val * 105000).
  { intros k Hk. unfold randomVariation.
    rewrite (uint32_small (95000 + k)) by lia.
    assert (Hp : 0 <= val * (95000 + k) <= val * 105000).
    { split; [apply Z.mul_nonneg_nonneg; lia | apply Z.mul_le_mono_nonneg_l; lia]. }
    rewrite int64_small by lia.
    rewrite cdiv_nonneg by lia.
    assert (Hq : val * (95000 + k) / 100000 <= val * 105000 / 100000)
      by (apply Z.div_le_mono; lia).
    assert (Hq' : val * 105000 / 100000 <= 2100000000)
      by (apply Z.div_le_upper_bound; lia).
    pose proof (Z.div_pos (val * (95000 + k)) 100000 ltac:(lia) ltac:(lia)).
    rewrite int32_small by (unfold INT32_MIN, INT32_MAX; lia).
    split; [reflexivity | exact Hp]. }
  split.
  - destruct (Hform 5000 ltac:(lia)) as [-> _].
    change (95000 + 5000) with 100000. apply Z.div_mul. lia.
  - destruct (Hform draw ltac:(lia)) as [-> _].
    destruct (Hform draw' ltac:(lia)) as [-> _].
    apply Z.div_le_mono; [lia |]. apply Z.mul_le_mono_nonneg_l; lia.
Qed.

Lemma randomVariation_monotone_witness :
  randomVariation 5000 40000 = 40000 /\
  randomVariation 100 40000 <= randomVariation 9000 40000.
Proof. apply randomVariation_monotone; lia. Defined.

Lemma i64Sqrt_quotient_bound (e : Z) :
  0 <= i64Sqrt (uint64 e / uint64 ACC_GRAVITY) <= 135818791.
Proof.
  unfold i64Sqrt. change (uint64 ACC_GRAVITY) with 1000.
  pose proof (Z.mod_pos_bound e (2 ^ 64) ltac:(lia)) as He. fold (uint64 e) in He.
  assert (Hq : 0 <= uint64 e / 1000 <= 18446744073709551).
  { split; [apply Z.div_pos; lia |].
    assert (uint64 e / 1000 < 18446744073709552); [| lia].
    apply Z.div_lt_upper_bound; lia. }
  rewrite (uint64_small (uint64 e / 1000)) by lia.
  split; [apply Z.sqrt_nonneg |].
  assert (Z.sqrt (uint64 e / 1000) < 135818792); [| lia].
  apply Z.sqrt_lt_square; lia.
Qed.

(** For every input the ballistic solution has a flight time of at least
    one tick, so the divisions by the flight time never divide by zero,
    and it never points downwards; the solver returns it unless the
    minimum angle asks for a steeper shot. *)
Theorem ballistic_never_stalls (draw dx dz v : Z) :
  (1 <= out_t (ballistic draw dx dz v) <= 135818791 /\
   0 <= out_vz (ballistic draw dx dz v)) /\
  (forall iAtan2 iSin iCos min_angle,
     min_angle_applies iAtan2 draw dx dz v min_angle = false ->
     exists s,
       projCalcIndirectVelocities iAtan2 iSin iCos draw dx dz v min_angle = Some s /\
       1 <= out_t s /\ 0 <= out_vz s).
Proof.
  assert (Hshape : forall a c : Z,
    let t := int32 (MAX 1 (int32 (iSqrt (int32 (2 * int32 (a - i64Sqrt c)))
                                  * cdiv GAME_TICKS_PER_SEC ACC_GRAVITY))) in
    let vz := int32 (cdiv (int32 (dz * GAME_TICKS_PER_SEC)) t
                     + cdiv (int32 (ACC_GRAVITY * t)) (int32 (2 * GAME_TICKS_PER_SEC))) in
    let r :=
      if vz <? 0 then
        let t' := int32 (MAX 1 (i64Sqrt
                    (uint64 (uint64 (uint64 (int32 (-2 * dz)) * GAME_TICKS_PER_SEC)
                             * GAME_TICKS_PER_SEC) / uint64 ACC_GRAVITY))) in
        mkVelocities (cdiv (int32 (dx * GAME_TICKS_PER_SEC)) t') 0 t'
      else mkVelocities (cdiv (int32 (dx * GAME_TICKS_PER_SEC)) t) vz t in
    1 <= out_t r <= 135818791 /\ 0 <= out_vz r).
  { intros a c t vz r. subst r.
    destruct (vz <? 0) eqn:Evz; cbn [out_t out_vz].
    - match goal with |- context [i64Sqrt (uint64 ?e / _)] =>
        pose proof (i64Sqrt_quotient_bound e) as Hq;
        set (q := i64Sqrt (uint64 e / uint64 ACC_GRAVITY)) in * end.
      rewrite (MAX_spec 1 q).
      rewrite (int32_small (Z.max 1 q)) by (unfold INT32_MIN, INT32_MAX; lia). lia.
    - apply Z.ltb_ge in Evz. split; [| exact Evz]. subst t.
      match goal with |- context [iSqrt ?e] =>
        pose proof (iSqrt_range e) as Hs; set (s := iSqrt e) in * end.
      change (cdiv GAME_TICKS_PER_SEC ACC_GRAVITY) with 1. rewrite Z.mul_1_r.
      rewrite (int32_small s) by (unfold INT32_MIN, INT32_MAX; lia).
      rewrite (MAX_spec 1 s).
      rewrite (int32_small (Z.max 1 s)) by (unfold INT32_MIN, INT32_MAX; lia). lia. }
  assert (Hb : 1 <= out_t (ballistic draw dx dz v) <= 135818791 /\
               0 <= out_vz (ballistic draw dx dz v)).
  { unfold ballistic. cbv zeta in Hshape |- *.
    destruct (solve_c (solve_a draw dz v) (solve_b dx dz) <? 0); apply Hshape. }
  split; [exact Hb |].
  intros iAtan2 iSin iCos min_angle Hmin.
  unfold projCalcIndirectVelocities. rewrite Hmin.
  exists (ballistic draw dx dz v). split; [reflexivity |]. split; [apply Hb | apply Hb].
Qed.

End Trajectory.

(* ===================================================================== *)
(** ** The object world and the projectile record *)
(* ===================================================================== *)

Module Projectile.
Import Geometry Trajectory.

(** Game objects are referred to by address; [ptr] is that address. *)
Definition ptr := Z.

Inductive OBJECT_TYPE := OBJ_DROID | OBJ_STRUCTURE | OBJ_FEATURE | OBJ_PROJECTILE.
Inductive PROJ_STATE := PROJ_INFLIGHT | PROJ_IMPACT | PROJ_POSTIMPACT | PROJ_INACTIVE.
Inductive MOVEMENT_MODEL := MM_DIRECT | MM_INDIRECT | MM_HOMINGDIRECT | MM_HOMINGINDIRECT.
Inductive WEAPON_SUBCLASS :=
  | WSC_MGUN | WSC_CANNON | WSC_MORTARS | WSC_MISSILE | WSC_ROCKET | WSC_ENERGY
  | WSC_GAUSS | WSC_FLAME | WSC_HOWITZERS | WSC_ELECTRONIC | WSC_AAGUN
  | WSC_SLOWMISSILE | WSC_SLOWROCKET | WSC_LAS_SAT | WSC_BOMB | WSC_COMMAND | WSC_EMP.

Definition OBJECT_TYPE_eqb (a b : OBJECT_TYPE) : bool :=
  match a, b with
  | OBJ_DROID, OBJ_DROID | OBJ_STRUCTURE, OBJ_STRUCTURE
  | OBJ_FEATURE, OBJ_FEATURE | OBJ_PROJECTILE, OBJ_PROJECTILE => true
  | _, _ => false
  end.

Definition PROJ_STATE_eqb (a b : PROJ_STATE) : bool :=
  match a, b with
  | PROJ_INFLIGHT, PROJ_INFLIGHT | PROJ_IMPACT, PROJ_IMPACT
  | PROJ_POSTIMPACT, PROJ_POSTIMPACT | PROJ_INACTIVE, PROJ_INACTIVE => true
  | _, _ => false
  end.

Definition is_LAS_SAT (s : WEAPON_SUBCLASS) : bool :=
  match s with WSC_LAS_SAT => true | _ => false end.
Definition is_EMP (s : WEAPON_SUBCLASS) : bool :=
  match s with WSC_EMP => true | _ => false end.
Definition is_ELECTRONIC (s : WEAPON_SUBCLASS) : bool :=
  match s with WSC_ELECTRONIC => true | _ => false end.

(** Bits of [WEAPON_STATS::surfaceToAir]. *)
Definition SHOOT_ON_GROUND : Z := 1.
Definition SHOOT_IN_AIR : Z := 2.

(** The per-player upgradeable part of the weapon stats
    ([psStats->upgrade[player]]), with the fields this file reads. *)
Record WEAPON_UPGRADE := mkWEAPON_UPGRADE {
  maxRange : Z;
  radius : Z;
  empRadius : Z;
  periodicalDamageTime : Z;
  periodicalDamageRadius : Z;
  minimumDamage : Z
}.

Record WEAPON_STATS := mkWEAPON_STATS {
  movementModel : MOVEMENT_MODEL;
  weaponClass : Z;
  weaponSubClass : WEAPON_SUBCLASS;
  weaponEffect : Z;
  periodicalDamageWeaponClass : Z;
  periodicalDamageWeaponSubClass : WEAPON_SUBCLASS;
  periodicalDamageWeaponEffect : Z;
  flightSpeed : Z;
  penetrate : bool;
  surfaceToAir : Z;
  distanceExtensionFactor : Z;
  radiusLife : Z;
  noFriendlyFire : bool;          (* flags.test(WEAPON_FLAG_NO_FRIENDLY_FIRE) *)
  upgrade : Z -> WEAPON_UPGRADE
}.

(** The part of a game object this file reads.  The droid-only and
    feature-only members are meaningful for objects of that type. *)
Record BASE_OBJECT := mkBASE_OBJECT {
  o_type : OBJECT_TYPE;
  o_player : Z;
  o_died : Z;                     (* 0 while alive *)
  o_pos : Vector3i;
  o_prevPos : Vector3i;           (* DROID: prevSpacetime.pos *)
  o_isFlying : bool;              (* DROID: isFlying() *)
  o_isVtol : bool;                (* DROID: isVtol() *)
  o_travelsByAir : bool;          (* DROID: propulsion type travels by AIR *)
  o_moveInactive : bool;          (* DROID: sMove.Status == MOVEINACTIVE *)
  o_actionAttack : bool;          (* DROID: action == DACTION_ATTACK *)
  o_actionTarget : option ptr;    (* DROID: psActionTarget[0] *)
  o_damageable : bool;            (* FEATURE: psStats->damageable *)
  o_periodicalDamageStart : Z;
  o_periodicalDamage : Z
}.

Definition set_periodical (start dmg : Z) (o : BASE_OBJECT) : BASE_OBJECT :=
  mkBASE_OBJECT (o_type o) (o_player o) (o_died o) (o_pos o) (o_prevPos o)
    (o_isFlying o) (o_isVtol o) (o_travelsByAir o) (o_moveInactive o)
    (o_actionAttack o) (o_actionTarget o) (o_damageable o) start dmg.

Definition set_vz (v : Z) (a : Vector3i) : Vector3i := mkVector3i (vx a) (vy a) v.

(** Component-wise 32-bit vector arithmetic. *)
Definition vsub (a b : Vector3i) : Vector3i :=
  mkVector3i (int32 (vx a - vx b)) (int32 (vy a - vy b)) (int32 (vz a - vz b)).
Definition vadd (a b : Vector3i) : Vector3i :=
  mkVector3i (int32 (vx a + vx b)) (int32 (vy a + vy b)) (int32 (vz a + vz b)).
Definition vscale (a : Vector3i) (k : Z) : Vector3i :=
  mkVector3i (int32 (vx a * k)) (int32 (vy a * k)) (int32 (vz a * k)).
Definition vdiv (a : Vector3i) (k : Z) : Vector3i :=
  mkVector3i (cdiv (vx a) k) (cdiv (vy a) k) (cdiv (vz a) k).

Record Rotation := mkRotation { direction : Z; pitch : Z; roll : Z }.

(** A (position, rotation, time) sample. *)
Record Spacetime := mkSpacetime { st_time : Z; st_pos : Vector3i; st_rot : Rotation }.

Record PROJECTILE := mkPROJECTILE {
  p_id : Z;  (* unique tracking id *)
  p_player : Z;  (* owning player *)
  p_died : Z;  (* 0 while alive *)
  p_pos : Vector3i;  (* current position *)
  p_rot : Rotation;  (* direction, pitch, roll *)
  p_time : Z;  (* game time of [p_pos] *)
  p_prevSpacetime : Spacetime;  (* sample of the previous tick *)
  p_state : PROJ_STATE;  (* lifecycle state *)
  p_bVisible : bool;  (* whether the selected player sees it *)
  psWStats : WEAPON_STATS;  (* firing weapon stats *)
  psSource : option ptr;  (* what fired the projectile *)
  psDest : option ptr;  (* target of this projectile *)
  psDamaged : list ptr;  (* targets already dealt damage to *)
  p_src : Vector3i;  (* where it started *)
  p_dst : Vector3i;  (* the aim point *)
  p_vXY : Z;  (* horizontal speed (ballistic flight) *)
  p_vZ : Z;  (* vertical speed (ballistic flight) *)
  p_born : Z;  (* tick of birth *)
  expectedDamageCaused : Z;  (* damage registered with [psDest] *)
  p_partVisible : Z  (* height of the part visible when fired *)
}.

(** Field assignments. *)
Definition set_died (v : Z) (p : PROJECTILE) : PROJECTILE :=
  mkPROJECTILE (p_id p) (p_player p) v (p_pos p) (p_rot p) (p_time p) (p_prevSpacetime p) (p_state p) (p_bVisible p) (psWStats p) (psSource p) (psDest p) (psDamaged p) (p_src p) (p_dst p) (p_vXY p) (p_vZ p) (p_born p) (expectedDamageCaused p) (p_partVisible p).
Definition set_pos (v : Vector3i) (p : PROJECTILE) : PROJECTILE :=
  mkPROJECTILE (p_id p) (p_player p) (p_died p) v (p_rot p) (p_time p) (p_prevSpacetime p) (p_state p) (p_bVisible p) (psWStats p) (psSource p) (psDest p) (psDamaged p) (p_src p) (p_dst p) (p_vXY p) (p_vZ p) (p_born p) (expectedDamageCaused p) (p_partVisible p).
Definition set_rot (v : Rotation) (p : PROJECTILE) : PROJECTILE :=
  mkPROJECTILE (p_id p) (p_player p) (p_died p) (p_pos p) v (p_time p) (p_prevSpacetime p) (p_state p) (p_bVisible p) (psWStats p) (psSource p) (psDest p) (psDamaged p) (p_src p) (p_dst p) (p_vXY p) (p_vZ p) (p_born p) (expectedDamageCaused p) (p_partVisible p).
Definition set_time (v : Z) (p : PROJECTILE) : PROJECTILE :=
  mkPROJECTILE (p_id p) (p_player p) (p_died p) (p_pos p) (p_rot p) v (p_prevSpacetime p) (p_state p) (p_bVisible p) (psWStats p) (psSource p) (psDest p) (psDamaged p) (p_src p) (p_dst p) (p_vXY p) (p_vZ p) (p_born p) (expectedDamageCaused p) (p_partVisible p).
Definition set_prevSpacetime (v : Spacetime) (p : PROJECTILE) : PROJECTILE :=
  mkPROJECTILE (p_id p) (p_player p) (p_died p) (p_pos p) (p_rot p) (p_time p) v (p_state p) (p_bVisible p) (psWStats p) (psSource p) (psDest p) (psDamaged p) (p_src p) (p_dst p) (p_vXY p) (p_vZ p) (p_born p) (expectedDamageCaused p) (p_partVisible p).
Definition set_state (v : PROJ_STATE) (p : PROJECTILE) : PROJECTILE :=
  mkPROJECTILE (p_id p) (p_player p) (p_died p) (p_pos p) (p_rot p) (p_time p) (p_prevSpacetime p) v (p_bVisible p) (psWStats p) (psSource p) (psDest p) (psDamaged p) (p_src p) (p_dst p) (p_vXY p) (p_vZ p) (p_born p) (expectedDamageCaused p) (p_partVisible p).
Definition set_bVisible (v : bool) (p : PROJECTILE) : PROJECTILE :=
  mkPROJECTILE (p_id p) (p_player p) (p_died p) (p_pos p) (p_rot p) (p_time p) (p_prevSpacetime p) (p_state p) v (psWStats p) (psSource p) (psDest p) (psDamaged p) (p_src p) (p_dst p) (p_vXY p) (p_vZ p) (p_born p) (expectedDamageCaused p) (p_partVisible p).
Definition set_psSource (v : option ptr) (p : PROJECTILE) : PROJECTILE :=
  mkPROJECTILE (p_id p) (p_player p) (p_died p) (p_pos p) (p_rot p) (p_time p) (p_prevSpacetime p) (p_state p) (p_bVisible p) (psWStats p) v (psDest p) (psDamaged p) (p_src p) (p_dst p) (p_vXY p) (p_vZ p) (p_born p) (expectedDamageCaused p) (p_partVisible p).
Definition set_psDest (v : option ptr) (p : PROJECTILE) : PROJECTILE :=
  mkPROJECTILE (p_id p) (p_player p) (p_died p) (p_pos p) (p_rot p) (p_time p) (p_prevSpacetime p) (p_state p) (p_bVisible p) (psWStats p) (psSource p) v (psDamaged p) (p_src p) (p_dst p) (p_vXY p) (p_vZ p) (p_born p) (expectedDamageCaused p) (p_partVisible p).
Definition set_psDamaged (v : list ptr) (p : PROJECTILE) : PROJECTILE :=
  mkPROJECTILE (p_id p) (p_player p) (p_died p) (p_pos p) (p_rot p) (p_time p) (p_prevSpacetime p) (p_state p) (p_bVisible p) (psWStats p) (psSource p) (psDest p) v (p_src p) (p_dst p) (p_vXY p) (p_vZ p) (p_born p) (expectedDamageCaused p) (p_partVisible p).
Definition set_src (v : Vector3i) (p : PROJECTILE) : PROJECTILE :=
  mkPROJECTILE (p_id p) (p_player p) (p_died p) (p_pos p) (p_rot p) (p_time p) (p_prevSpacetime p) (p_state p) (p_bVisible p) (psWStats p) (psSource p) (psDest p) (psDamaged p) v (p_dst p) (p_vXY p) (p_vZ p) (p_born p) (expectedDamageCaused p) (p_partVisible p).
Definition set_dst (v : Vector3i) (p : PROJECTILE) : PROJECTILE :=
  mkPROJECTILE (p_id p) (p_player p) (p_died p) (p_pos p) (p_rot p) (p_time p) (p_prevSpacetime p) (p_state p) (p_bVisible p) (psWStats p) (psSource p) (psDest p) (psDamaged p) (p_src p) v (p_vXY p) (p_vZ p) (p_born p) (expectedDamageCaused p) (p_partVisible p).
Definition set_vXY (v : Z) (p : PROJECTILE) : PROJECTILE :=
  mkPROJECTILE (p_id p) (p_player p) (p_died p) (p_pos p) (p_rot p) (p_time p) (p_prevSpacetime p) (p_state p) (p_bVisible p) (psWStats p) (psSource p) (psDest p) (psDamaged p) (p_src p) (p_dst p) v (p_vZ p) (p_born p) (expectedDamageCaused p) (p_partVisible p).
Definition set_vZ (v : Z) (p : PROJECTILE) : PROJECTILE :=
  mkPROJECTILE (p_id p) (p_player p) (p_died p) (p_pos p) (p_rot p) (p_time p) (p_prevSpacetime p) (p_state p) (p_bVisible p) (psWStats p) (psSource p) (psDest p) (psDamaged p) (p_src p) (p_dst p) (p_vXY p) v (p_born p) (expectedDamageCaused p) (p_partVisible p).
Definition set_born (v : Z) (p : PROJECTILE) : PROJECTILE :=
  mkPROJECTILE (p_id p) (p_player p) (p_died p) (p_pos p) (p_rot p) (p_time p) (p_prevSpacetime p) (p_state p) (p_bVisible p) (psWStats p) (psSource p) (psDest p) (psDamaged p) (p_src p) (p_dst p) (p_vXY p) (p_vZ p) v (expectedDamageCaused p) (p_partVisible p).
Definition set_expectedDamageCaused (v : Z) (p : PROJECTILE) : PROJECTILE :=
  mkPROJECTILE (p_id p) (p_player p) (p_died p) (p_pos p) (p_rot p) (p_time p) (p_prevSpacetime p) (p_state p) (p_bVisible p) (psWStats p) (psSource p) (psDest p) (psDamaged p) (p_src p) (p_dst p) (p_vXY p) (p_vZ p) (p_born p) v (p_partVisible p).
Definition set_partVisible (v : Z) (p : PROJECTILE) : PROJECTILE :=
  mkPROJECTILE (p_id p) (p_player p) (p_died p) (p_pos p) (p_rot p) (p_time p) (p_prevSpacetime p) (p_state p) (p_bVisible p) (psWStats p) (psSource p) (psDest p) (psDamaged p) (p_src p) (p_dst p) (p_vXY p) (p_vZ p) (p_born p) (expectedDamageCaused p) v.

(** [struct DAMAGE].  [dmg_projectile] is the projectile the event points
    to, as it is when the event is dispatched. *)
Record DAMAGE := mkDAMAGE {
  dmg_projectile : PROJECTILE;
  dmg_dest : ptr;
  dmg_damage : Z;
  dmg_weaponClass : Z;
  dmg_weaponSubClass : WEAPON_SUBCLASS;
  dmg_impactTime : Z;
  dmg_isDamagePerSecond : bool;
  dmg_minDamage : Z;
  dmg_empRadiusHit : bool
}.

(** The mutable state around the projectiles. *)
Record World := mkWorld {
  objects : gmap ptr BASE_OBJECT;  (* the game objects, by address *)
  expectedDamage : gmap ptr Z;  (* expected damage registered on each object *)
  experience : gmap ptr Z;  (* experience gained by each droid *)
  kills : gmap ptr Z;  (* kill counters *)
  damageLog : list DAMAGE;  (* the damage events dispatched so far, oldest first *)
  gameTime : Z;  (* current game time *)
  deltaGameTime : Z;  (* length of the current tick *)
  bMultiPlayer : bool;  (* multiplayer game *)
  randState : Z;  (* state of the synchronised random stream *)
  experienceGain : Z -> Z;  (* [experienceGain[player]], in percent *)
  projectileTrackerIDIncrement : Z  (* counter of the projectile ids given out *)
}.

Definition with_objects (v : gmap ptr BASE_OBJECT) (w : World) : World :=
  mkWorld v (expectedDamage w) (experience w) (kills w) (damageLog w) (gameTime w) (deltaGameTime w) (bMultiPlayer w) (randState w) (experienceGain w) (projectileTrackerIDIncrement w).
Definition with_expectedDamage (v : gmap ptr Z) (w : World) : World :=
  mkWorld (objects w) v (experience w) (kills w) (damageLog w) (gameTime w) (deltaGameTime w) (bMultiPlayer w) (randState w) (experienceGain w) (projectileTrackerIDIncrement w).
Definition with_experience (v : gmap ptr Z) (w : World) : World :=
  mkWorld (objects w) (expectedDamage w) v (kills w) (damageLog w) (gameTime w) (deltaGameTime w) (bMultiPlayer w) (randState w) (experienceGain w) (projectileTrackerIDIncrement w).
Definition with_kills (v : gmap ptr Z) (w : World) : World :=
  mkWorld (objects w) (expectedDamage w) (experience w) v (damageLog w) (gameTime w) (deltaGameTime w) (bMultiPlayer w) (randState w) (experienceGain w) (projectileTrackerIDIncrement w).
Definition with_damageLog (v : list DAMAGE) (w : World) : World :=
  mkWorld (objects w) (expectedDamage w) (experience w) (kills w) v (gameTime w) (deltaGameTime w) (bMultiPlayer w) (randState w) (experienceGain w) (projectileTrackerIDIncrement w).
Definition with_gameTime (v : Z) (w : World) : World :=
  mkWorld (objects w) (expectedDamage w) (experience w) (kills w) (damageLog w) v (deltaGameTime w) (bMultiPlayer w) (randState w) (experienceGain w) (projectileTrackerIDIncrement w).
Definition with_randState (v : Z) (w : World) : World :=
  mkWorld (objects w) (expectedDamage w) (experience w) (kills w) (damageLog w) (gameTime w) (deltaGameTime w) (bMultiPlayer w) v (experienceGain w) (projectileTrackerIDIncrement w).
Definition with_experienceGain (v : Z -> Z) (w : World) : World :=
  mkWorld (objects w) (expectedDamage w) (experience w) (kills w) (damageLog w) (gameTime w) (deltaGameTime w) (bMultiPlayer w) (randState w) v (projectileTrackerIDIncrement w).
Definition with_projectileTrackerIDIncrement (v : Z) (w : World) : World :=
  mkWorld (objects w) (expectedDamage w) (experience w) (kills w) (damageLog w) (gameTime w) (deltaGameTime w) (bMultiPlayer w) (randState w) (experienceGain w) v.

(** [SIMPLE_OBJECT *psAttacker] of the firing functions: nothing, a game
    object, or the parent projectile of a penetration. *)
Inductive Attacker :=
  | NoAttacker
  | AttackerObject (a : ptr)
  | AttackerProjectile (parent : PROJECTILE).

(** The collaborators of the projectile code whose definitions are outside
    the examined sources.  Every function that the C++ code lets mutate game
    objects receives and returns the object store. *)
Record Collaborators := mkCollaborators {
  (* constants of other headers *)
  MAX_PLAYERS : Z;
  LINE_OF_FIRE_MINIMUM : Z;
  TILE_UNITS : Z;
  selectedPlayer : Z;
  (* map and alliances *)
  aiCheckAlliances : Z -> Z -> bool;
  isDead : BASE_OBJECT -> bool;
  worldOnMap : Z -> Z -> bool;
  map_LineIntersect : Vector3i -> Vector3i -> Z -> Z;
  gridStartIterate : gmap ptr BASE_OBJECT -> Z -> Z -> Z -> list ptr;
  (* fixed-point trigonometry *)
  iHypot : Z -> Z -> Z;
  iAtan2 : Z -> Z -> Z;
  iSin : Z -> Z;
  iCos : Z -> Z;
  (* interpolation between two samples *)
  interpolatePos : Spacetime -> Spacetime -> Z -> Vector3i;
  interpolateRot : Spacetime -> Spacetime -> Z -> Rotation;
  (* target geometry, read from model data *)
  targetHeightOf : gmap ptr BASE_OBJECT -> Z -> ptr -> Z;
  establishTargetShape : gmap ptr BASE_OBJECT -> ptr -> ObjectShape;
  (* the homing movement models (lines 795-857) *)
  homingStep : gmap ptr BASE_OBJECT -> Z -> PROJECTILE -> Vector3i * Vector3i * Rotation;
  (* damage tables and handlers *)
  weaponDamage : WEAPON_STATS -> Z -> Z;
  weaponRadDamage : WEAPON_STATS -> Z -> Z;
  weaponPeriodicalDamage : WEAPON_STATS -> Z -> Z;
  structStrengthModifier : Z -> BASE_OBJECT -> Z;
  weaponModifier : Z -> BASE_OBJECT -> Z;
  weaponModifierBody : Z -> BASE_OBJECT -> Z;
  Vector3i_InSphere : Vector3i -> Vector3i -> Z -> bool;
  droidDamage : gmap ptr BASE_OBJECT -> DAMAGE -> gmap ptr BASE_OBJECT * Z;
  structureDamage : gmap ptr BASE_OBJECT -> DAMAGE -> gmap ptr BASE_OBJECT * Z;
  featureDamage : gmap ptr BASE_OBJECT -> DAMAGE -> gmap ptr BASE_OBJECT * Z;
  electronicDamage : gmap ptr BASE_OBJECT -> ptr -> Z -> Z -> gmap ptr BASE_OBJECT * bool;
  stopAttacker : gmap ptr BASE_OBJECT -> ptr -> gmap ptr BASE_OBJECT;
  (* experience *)
  calcDroidPower : BASE_OBJECT -> Z;
  calcDroidPoints : BASE_OBJECT -> Z;
  cmdDroidGetDesignator : gmap ptr BASE_OBJECT -> Z -> option ptr;
  droidCommander : gmap ptr BASE_OBJECT -> ptr -> option ptr;
  fireSupportSensor : gmap ptr BASE_OBJECT -> ptr -> option ptr;
  (* firing *)
  objGuessFutureDamage : gmap ptr BASE_OBJECT -> WEAPON_STATS -> Z -> option ptr -> Z;
  muzzleLocation : gmap ptr BASE_OBJECT -> ptr -> Z -> Vector3i;
  areaOfFire : gmap ptr BASE_OBJECT -> Attacker -> ptr -> Z -> Z;
  visibleForLocalDisplay : BASE_OBJECT -> bool;
  gameRand : Z -> Z -> Z * Z
}.

Section Code.

Variable X : Collaborators.

(** *** Object access *)

Definition deref (w : World) (o : option ptr) : option BASE_OBJECT :=
  match o with
  | Some a => objects w !! a
  | None => None
  end.

Definition isType (t : OBJECT_TYPE) (b : option BASE_OBJECT) : bool :=
  match b with
  | Some o => OBJECT_TYPE_eqb (o_type o) t
  | None => false
  end.

(** [isFeature] and [isDroid] of objects.h: the pointer is set and the
    object has that type. *)
Definition isFeature (w : World) (o : option ptr) : bool := isType OBJ_FEATURE (deref w o).
Definition isDroid (w : World) (o : option ptr) : bool := isType OBJ_DROID (deref w o).

Definition ptr_eqb (a b : ptr) : bool := a =? b.

Definition optr_eqb (a b : option ptr) : bool :=
  match a, b with
  | Some x, Some y => ptr_eqb x y
  | None, None => true
  | _, _ => false
  end.

(** *** Expected-damage bookkeeping (lines 133-146) *)

Definition expected_of (w : World) (o : ptr) : Z :=
  default 0 (expectedDamage w !! o).

(** Modelled from the spec: [aiObjectAddExpectedDamage] is defined in
    ai.cpp, outside the examined sources.  The specification describes it
    as the in-place update of the expected-damage counter kept on the
    target object ("addExpectedDamage" / "removeExpectedDamage"): the signed
    amount is added to the counter of the object, and a null object is left
    alone.  [bDirect] is passed through as in the source; the counter kept
    here is the total over direct and indirect fire. *)
Definition aiObjectAddExpectedDamage
    (psObject : option ptr) (damage : Z) (bDirect : bool) (w : World) : World :=
  match psObject with
  | None => w
  | Some o => with_expectedDamage (<[o := expected_of w o + damage]> (expectedDamage w)) w
  end.

Definition proj_Direct (psStats : WEAPON_STATS) : bool :=
  match movementModel psStats with
  | MM_DIRECT | MM_HOMINGDIRECT => true
  | MM_INDIRECT | MM_HOMINGINDIRECT => false
  end.

Definition setProjectileDestination
    (psObj : option ptr) (w : World) (psProj : PROJECTILE) : World * PROJECTILE :=
  let bDirect := proj_Direct (psWStats psProj) in
  let w := aiObjectAddExpectedDamage (psDest psProj)
             (int32 (uint32 (- expectedDamageCaused psProj))) bDirect w in
  let psProj := set_psDest psObj psProj in
  let w := aiObjectAddExpectedDamage (psDest psProj)
             (int32 (expectedDamageCaused psProj)) bDirect w in
  (w, psProj).

(** *** Damage dispatcher (lines 280-365, 1644-1764) *)

(** The [CLIP(val, min, max)] macro. *)
Definition CLIP (val lo hi : Z) : Z :=
  if val <? lo then lo else if val >? hi then hi else val.

Definition qualityFactor (psAttacker psVictim : BASE_OBJECT) : Z :=
  let attackerPower := calcDroidPower X psAttacker in
  let attackerPoints := calcDroidPoints X psAttacker in
  if (attackerPower =? 0) || (attackerPoints =? 0) then cdiv 65536 2
  else
    let powerRatio := uint32 (uint64 (65536 * calcDroidPower X psVictim) / attackerPower) in
    let pointsRatio := uint32 (uint64 (65536 * calcDroidPoints X psVictim) / attackerPoints) in
    let powerRatio := CLIP powerRatio (cdiv 65536 2) (65536 * 2) in
    let pointsRatio := CLIP pointsRatio (cdiv 65536 2) (65536 * 2) in
    uint32 (powerRatio + pointsRatio) / 2.

Definition getExpGain (w : World) (player : Z) : Z := experienceGain w player.

Definition getDesignatorAttackingObject
    (w : World) (player : Z) (target : option ptr) : option ptr :=
  match cmdDroidGetDesignator X (objects w) player with
  | Some c =>
      match objects w !! c with
      | Some cmd =>
          if o_actionAttack cmd && optr_eqb (o_actionTarget cmd) target
          then Some c else None
      | None => None
      end
  | None => None
  end.

Definition experience_of (w : World) (o : ptr) : Z := default 0 (experience w !! o).
Definition kills_of (w : World) (o : ptr) : Z := default 0 (kills w !! o).

(** Modelled from the spec: [droidIncreaseExperience] (droid.cpp, outside
    the examined sources) "increases that source's experience" by the given
    amount. *)
Definition droidIncreaseExperience (psDroid : ptr) (experienceInc : Z) (w : World) : World :=
  with_experience (<[psDroid := experience_of w psDroid + experienceInc]> (experience w)) w.

(** Modelled from the spec: [cmdDroidUpdateExperience] (cmddroid.cpp,
    outside the examined sources) passes the gain on to the commander of
    the droid's group, if it has one. *)
Definition cmdDroidUpdateExperience (psDroid : ptr) (experienceInc : Z) (w : World) : World :=
  match droidCommander X (objects w) psDroid with
  | Some c => droidIncreaseExperience c experienceInc w
  | None => w
  end.

(** [(int)(2.1 * 65536)], the bound of the range assertions. *)
Definition EXPERIENCE_LIMIT : Z := 137625.

Definition proj_UpdateExperience (psObj : PROJECTILE) (experienceInc : Z) (w : World) : World :=
  match psSource psObj with
  | None => w
  | Some src =>
    match objects w !! src with
    | None => w
    | Some source =>
      match o_type source with
      | OBJ_DROID =>
          let experienceInc :=
            match deref w (psDest psObj) with
            | Some victim =>
                if OBJECT_TYPE_eqb (o_type victim) OBJ_DROID && bMultiPlayer w
                then uint32 (uint64 (experienceInc * qualityFactor source victim) / 65536)
                else experienceInc
            | None => experienceInc
            end in
          if experienceInc <? EXPERIENCE_LIMIT then
            let w := droidIncreaseExperience src experienceInc w in
            let w := cmdDroidUpdateExperience src experienceInc w in
            match fireSupportSensor X (objects w) src with
            | Some sensor =>
                if isDroid w (Some sensor)
                then droidIncreaseExperience sensor experienceInc w else w
            | None => w
            end
          else w
      | OBJ_STRUCTURE =>
          if experienceInc <? EXPERIENCE_LIMIT then
            match getDesignatorAttackingObject w (o_player source) (psDest psObj) with
            | Some d => droidIncreaseExperience d experienceInc w
            | None => w
            end
          else w
      | _ => w
      end
    end
  end.

Definition calcDamage (baseDamage : Z) (weaponEffect : Z) (psTarget : BASE_OBJECT) : Z :=
  if baseDamage =? 0 then 0
  else
    let damage := uint32 (baseDamage * 100) in
    let damage :=
      match o_type psTarget with
      | OBJ_STRUCTURE =>
          uint32 (damage + uint32 (baseDamage
                    * uint32 (structStrengthModifier X weaponEffect psTarget - 100)))
      | OBJ_DROID =>
          let damage :=
            uint32 (damage + uint32 (baseDamage
                      * uint32 (weaponModifier X weaponEffect psTarget - 100))) in
          uint32 (damage + uint32 (baseDamage
                    * uint32 (weaponModifierBody X weaponEffect psTarget - 100)))
      | _ => damage
      end in
    MAX (damage / 100) 1.

Definition objectDamageDispatch (d : DAMAGE) (w : World) : World * Z :=
  match objects w !! dmg_dest d with
  | None => (w, 0)
  | Some o =>
      match o_type o with
      | OBJ_DROID =>
          let '(objs, r) := droidDamage X (objects w) d in (with_objects objs w, r)
      | OBJ_STRUCTURE =>
          let '(objs, r) := structureDamage X (objects w) d in (with_objects objs w, r)
      | OBJ_FEATURE =>
          let '(objs, r) := featureDamage X (objects w) d in (with_objects objs w, r)
      | OBJ_PROJECTILE => (w, 0)
      end
  end.

Definition isFriendlyFire (d : DAMAGE) (w : World) : bool :=
  match psDest (dmg_projectile d) with
  | None => false
  | Some dst =>
      match deref w (psSource (dmg_projectile d)), objects w !! dst with
      | Some s, Some t => o_player s =? o_player t
      | _, _ => false
      end
  end.

Definition shouldIncreaseExperience (d : DAMAGE) (w : World) : bool :=
  match psSource (dmg_projectile d) with
  | None => false
  | Some _ =>
      negb (isFeature w (psDest (dmg_projectile d))) && negb (isFriendlyFire d w)
  end.

Definition increment_kills (o : ptr) (w : World) : World :=
  with_kills (<[o := kills_of w o + 1]> (kills w)) w.

Definition updateKills (d : DAMAGE) (w : World) : World :=
  match psSource (dmg_projectile d) with
  | None => w
  | Some src =>
    match objects w !! src with
    | None => w
    | Some source =>
      match o_type source with
      | OBJ_DROID =>
          let w := increment_kills src w in
          match droidCommander X (objects w) src with
          | Some c => increment_kills c w
          | None => w
          end
      | OBJ_STRUCTURE =>
          match getDesignatorAttackingObject w (o_player source)
                  (psDest (dmg_projectile d)) with
          | Some c => increment_kills c w
          | None => w
          end
      | _ => w
      end
    end
  end.

Definition source_player (w : World) (p : PROJECTILE) : Z :=
  match deref w (psSource p) with
  | Some s => o_player s
  | None => 0
  end.

Definition objectDamage (d : DAMAGE) (w : World) : World * Z :=
  let '(w, relativeDamage) := objectDamageDispatch d w in
  let w := with_damageLog (damageLog w ++ [d]) w in
  let w :=
    if shouldIncreaseExperience d w then
      let w := proj_UpdateExperience (dmg_projectile d)
                 (uint32 (cdiv (int32 (Z.abs relativeDamage
                                       * getExpGain w (source_player w (dmg_projectile d))))
                               100)) w in
      if relativeDamage <? 0 then updateKills d w else w
    else w in
  (w, relativeDamage).

(** *** Area effects and impact resolution (lines 1015-1373, 1490-1549) *)

Definition obj_died (w : World) (a : ptr) : bool :=
  match objects w !! a with
  | Some o => negb (o_died o =? 0)
  | None => false
  end.

Definition sweep_radius (psObj : PROJECTILE) (psStats : WEAPON_STATS) (isEmp : bool) : Z :=
  if isEmp then empRadius (upgrade psStats (p_player psObj))
  else radius (upgrade psStats (p_player psObj)).

(** Whether the no-friendly-fire flag protects [psCurr] (line 1034). *)
Definition spared_as_friend
    (w : World) (psObj : PROJECTILE) (psStats : WEAPON_STATS) (o : BASE_OBJECT) : bool :=
  match deref w (psSource psObj) with
  | Some s => (o_player s =? o_player o) && noFriendlyFire psStats
  | None => false
  end.

(** One iteration of the loop of [proj_radiusSweep]. *)
Definition proj_radiusSweep_body
    (psObj : PROJECTILE) (psStats : WEAPON_STATS) (targetPos : Vector3i) (isEmp : bool)
    (w : World) (psCurr : ptr) : World :=
  match objects w !! psCurr with
  | None => w
  | Some o =>
    if negb (o_died o =? 0) then w
    else if optr_eqb (Some psCurr) (psDest psObj) then w
    else if spared_as_friend w psObj psStats o then w
    else
      match
        match o_type o with
        | OBJ_DROID => Some (o_travelsByAir o && negb (o_moveInactive o), true, true)
        | OBJ_STRUCTURE => Some (false, false, true)
        | OBJ_FEATURE => Some (false, false, o_damageable o)
        | OBJ_PROJECTILE => None
        end
      with
      | None => w
      | Some (bTargetInAir, useSphere, damageable) =>
        if negb damageable then w
        else
          let targetInFlag := if bTargetInAir then SHOOT_IN_AIR else SHOOT_ON_GROUND in
          if Z.land (surfaceToAir psStats) targetInFlag =? 0 then w
          else if useSphere
                  && negb (Vector3i_InSphere X (o_pos o) targetPos
                             (sweep_radius psObj psStats isEmp)) then w
          else
            let damage :=
              calcDamage (weaponRadDamage X psStats (p_player psObj))
                         (weaponEffect psStats) o in
            let sDamage :=
              mkDAMAGE psObj psCurr damage (weaponClass psStats) (weaponSubClass psStats)
                       (p_time psObj) false
                       (int32 (minimumDamage (upgrade psStats (p_player psObj)))) isEmp in
            fst (objectDamage sDamage w)
      end
  end.

Definition proj_radiusSweep
    (psObj : PROJECTILE) (psStats : WEAPON_STATS) (targetPos : Vector3i) (isEmp : bool)
    (w : World) : World :=
  fold_left (proj_radiusSweep_body psObj psStats targetPos isEmp)
    (gridStartIterate X (objects w) (vx targetPos) (vy targetPos)
       (sweep_radius psObj psStats isEmp))
    w.

(** Lines 1203-1298: the projectile hit the object it is aimed at.  The
    result is [None] when the function returns early (non-damageable
    feature). *)
Definition impact_on_target
    (dst : ptr) (w : World) (psObj : PROJECTILE) : option (World * PROJECTILE) :=
  let psStats := psWStats psObj in
  match objects w !! dst with
  | None => Some (w, psObj)
  | Some target =>
    if OBJECT_TYPE_eqb (o_type target) OBJ_FEATURE && negb (o_damageable target)
    then None
    else
      let damage :=
        calcDamage (weaponDamage X psStats (p_player psObj)) (weaponEffect psStats) target in
      match proj_Direct psStats && is_ELECTRONIC (weaponSubClass psStats), psSource psObj with
      | true, Some src =>
          let '(objs, captured) :=
            electronicDamage X (objects w) dst damage (p_player psObj) in
          let objs := if captured then stopAttacker X objs src else objs in
          Some (with_objects objs w, psObj)
      | _, _ =>
          let sDamage :=
            mkDAMAGE psObj dst damage (weaponClass psStats) (weaponSubClass psStats)
                     (p_time psObj) false
                     (int32 (minimumDamage (upgrade psStats (p_player psObj)))) false in
          let '(w, relativeDamage) := objectDamage sDamage w in
          if relativeDamage >=? 0
          then Some (w, set_psDamaged (psDamaged psObj ++ [dst]) psObj)
          else Some (w, psObj)
      end
  end.

(** Lines 1300-1304: the shot has resolved, nothing more is expected of it. *)
Definition release_expected_damage (w : World) (psObj : PROJECTILE) : World * PROJECTILE :=
  let temp := psDest psObj in
  let '(w, psObj) := setProjectileDestination None w psObj in
  let psObj := set_expectedDamageCaused 0 psObj in
  setProjectileDestination temp w psObj.

(** Line 1324-1325: the centre of the splash. *)
Definition splash_centre (w : World) (psObj : PROJECTILE) : Vector3i :=
  match deref w (psDest psObj) with
  | Some d => if OBJECT_TYPE_eqb (o_type d) OBJ_DROID then o_pos d else p_pos psObj
  | None => p_pos psObj
  end.

(** Lines 1306-1344: area effects and the state after the impact. *)
Definition impact_area_effects (w : World) (psObj : PROJECTILE) : World * PROJECTILE :=
  let psStats := psWStats psObj in
  let up := upgrade psStats (p_player psObj) in
  if (radius up =? 0) && (periodicalDamageTime up =? 0)
  then (w, set_state PROJ_INACTIVE psObj)
  else
    let hasRadius := negb (radius up =? 0) in
    let hasEMPRadius := negb (empRadius up =? 0) in
    let '(w, psObj) :=
      if hasRadius || hasEMPRadius then
        let psObj := set_state PROJ_POSTIMPACT psObj in
        let psObj := set_born (gameTime w) psObj in
        let targetPos := splash_centre w psObj in
        let w :=
          if hasEMPRadius && is_EMP (weaponSubClass psStats)
          then proj_radiusSweep psObj psStats targetPos true w else w in
        let w :=
          if hasRadius then proj_radiusSweep psObj psStats targetPos false w else w in
        (w, psObj)
      else (w, psObj) in
    if negb (periodicalDamageTime up =? 0)
    then (w, set_born (gameTime w) (set_state PROJ_POSTIMPACT psObj))
    else (w, psObj).

(** Lines 1171-1298: what happens to the destination, if there is one.
    (Sounds and graphics are not part of the model, nor is the fire that
    [tileSetFire] puts on the map tile.) *)
Definition impact_target_phase (w : World) (psObj : PROJECTILE)
  : option (World * PROJECTILE) :=
  match psDest psObj with
  | None => Some (w, psObj)
  | Some dst => impact_on_target dst w psObj
  end.

Definition proj_ImpactFunc (w : World) (psObj : PROJECTILE) : World * PROJECTILE :=
  match impact_target_phase w psObj with
  | None => (w, set_state PROJ_INACTIVE psObj)
  | Some (w, psObj) =>
      let '(w, psObj) := release_expected_damage w psObj in
      impact_area_effects w psObj
  end.

(** One iteration of the loop of [proj_checkPeriodicalDamage]. *)
Definition proj_checkPeriodicalDamage_body
    (psProj : PROJECTILE) (w : World) (psCurr : ptr) : World :=
  let psStats := psWStats psProj in
  match objects w !! psCurr with
  | None => w
  | Some o =>
    if negb (o_died o =? 0) then w
    else if aiCheckAlliances X (p_player psProj) (o_player o) then w
    else if OBJECT_TYPE_eqb (o_type o) OBJ_DROID && o_isVtol o && negb (o_moveInactive o) then w
    else if OBJECT_TYPE_eqb (o_type o) OBJ_FEATURE && negb (o_damageable o) then w
    else
      let o :=
        if negb (o_periodicalDamageStart o =? gameTime w)
        then set_periodical (gameTime w) 0 o else o in
      let w := with_objects (<[psCurr := o]> (objects w)) w in
      let damageRate :=
        calcDamage (weaponPeriodicalDamage X psStats (p_player psProj))
                   (periodicalDamageWeaponEffect psStats) o in
      let sDamage :=
        mkDAMAGE psProj psCurr damageRate
                 (periodicalDamageWeaponClass psStats) (periodicalDamageWeaponSubClass psStats)
                 (uint32 (gameTime w - deltaGameTime w / 2 + 1)) true
                 (int32 (minimumDamage (upgrade psStats (p_player psProj)))) false in
      fst (objectDamage sDamage w)
  end.

Definition proj_checkPeriodicalDamage (w : World) (psProj : PROJECTILE) : World :=
  fold_left (proj_checkPeriodicalDamage_body psProj)
    (gridStartIterate X (objects w) (vx (p_pos psProj)) (vy (p_pos psProj))
       (periodicalDamageRadius (upgrade (psWStats psProj) (p_player psProj))))
    w.

Definition proj_PostImpactFunc (w : World) (psObj : PROJECTILE) : World * PROJECTILE :=
  let psStats := psWStats psObj in
  let age := int32 (uint32 (gameTime w - p_born psObj)) in
  if (age >? radiusLife psStats)
     && (age >? periodicalDamageTime (upgrade psStats (p_player psObj)))
  then (w, set_state PROJ_INACTIVE psObj)
  else if periodicalDamageTime (upgrade psStats (p_player psObj)) >? 0
  then (proj_checkPeriodicalDamage w psObj, psObj)
  else (w, psObj).

(** *** Firing (lines 445-642) *)

(** [gfxVisible] (lines 150-204). *)
Definition gfxVisible (w : World) (psObj : PROJECTILE) : bool :=
  let alive (o : BASE_OBJECT) := o_died o =? 0 in
  let seen (o : option BASE_OBJECT) :=
    match o with Some b => visibleForLocalDisplay X b | None => false end in
  let source := deref w (psSource psObj) in
  let dest := deref w (psDest psObj) in
  if p_bVisible psObj then true
  else if p_player psObj =? selectedPlayer X then true
  else if match source with
          | Some s =>
              alive s && OBJECT_TYPE_eqb (o_type s) OBJ_STRUCTURE
              && negb (o_player s =? selectedPlayer X)
              && match dest with
                 | None => true
                 | Some d => negb (alive d) || negb (visibleForLocalDisplay X d)
                 end
          | None => false
          end then false
  else if match dest with
          | Some d =>
              alive d && OBJECT_TYPE_eqb (o_type d) OBJ_STRUCTURE
              && negb (o_player d =? selectedPlayer X)
              && negb (seen source)
          | None => false
          end then false
  else if match source with
          | Some s => alive s && visibleForLocalDisplay X s
          | None => false
          end then true
  else match dest with
       | Some d => alive d && visibleForLocalDisplay X d
       | None => false
       end.

(** [establishTargetHeight] (lines 1833-1936): 0 for a null target,
    otherwise a height read from the model data of the object. *)
Definition establishTargetHeight (w : World) (psTarget : option ptr) : Z :=
  match psTarget with
  | None => 0
  | Some t => targetHeightOf X (objects w) (gameTime w) t
  end.

Definition ProjectileTrackerID : Z := 3735879680.   (* 0xdead0000 *)

Definition attackerSource (a : Attacker) : option ptr :=
  match a with
  | AttackerObject o => Some o
  | _ => None
  end.

(** The muzzle position (lines 455-475). *)
Definition muzzle (w : World) (psAttacker : Attacker) (target : Vector3i) (weapon_slot : Z)
  : Vector3i :=
  match psAttacker with
  | NoAttacker => target
  | AttackerProjectile parent => p_pos parent
  | AttackerObject a =>
      match objects w !! a with
      | Some o =>
          match o_type o with
          | OBJ_DROID | OBJ_STRUCTURE =>
              if weapon_slot >=? 0 then muzzleLocation X (objects w) a weapon_slot
              else o_pos o
          | _ => o_pos o
          end
      | None => target
      end
  end.

(** The velocities written by the call of line 556.  Where the solver
    divides by zero the call does not return; the model of firing then
    goes on with both velocities at 0. *)
Definition solved (s : option Velocities) : Velocities :=
  match s with
  | Some s => s
  | None => mkVelocities 0 0 0
  end.

(** [proj_SendProjectileAngledInternal] (lines 445-615), for a weapon
    whose statistics [psStats] are those of a valid [nStat] (the range
    check of line 449 has passed).  The model follows the projectile, the
    expected-damage counters, the id counter and the random stream.  What
    the call does to the attacker is not part of it: the attack run of a
    VTOL (line 466) and the pitch of the firing weapon (lines 560-571) are
    fields the model of a game object does not carry, and
    [counterBatteryFire] (line 607) is outside the examined sources. *)
Definition proj_SendProjectileAngledInternal
    (psStats : WEAPON_STATS) (psAttacker : Attacker) (player : Z) (target : Vector3i)
    (psTarget : option ptr) (bVisible : bool) (weapon_slot min_angle fireTime : Z)
    (w : World) : World * option PROJECTILE :=
  if match psTarget with Some t => obj_died w t | None => false end
  then (w, None)
  else
    let w := with_projectileTrackerIDIncrement
               (uint32 (projectileTrackerIDIncrement w + 1)) w in
    let id := uint32 (ProjectileTrackerID + projectileTrackerIDIncrement w) in
    let src := muzzle w psAttacker target weapon_slot in
    let origin := mkVector3i 0 0 0 in
    let level := mkRotation 0 0 0 in
    let proj :=
      mkPROJECTILE id player 0 src level 0 (mkSpacetime 0 origin level)
        PROJ_INFLIGHT false psStats None None [] src target 0 0 0
        (objGuessFutureDamage X (objects w) psStats player psTarget) 0 in
    let '(w, proj) := setProjectileDestination psTarget w proj in
    let proj :=
      match psAttacker with
      | AttackerProjectile psOldProjectile =>
          let proj := set_born (p_born psOldProjectile) proj in
          let proj := set_src (p_src psOldProjectile) proj in
          let proj := set_time (gameTime w) proj in
          let prevTime := p_time psOldProjectile in
          let prevTime :=
            if prevTime =? p_time proj then uint32 (prevTime - 1) else prevTime in
          let proj := set_prevSpacetime (mkSpacetime prevTime origin level) proj in
          let proj := set_psSource (psSource psOldProjectile) proj in
          set_psDamaged (psDamaged psOldProjectile) proj
      | _ =>
          let proj := set_born fireTime proj in
          let proj := set_prevSpacetime (mkSpacetime fireTime origin level) proj in
          let proj := set_time fireTime proj in
          set_psSource (attackerSource psAttacker) proj
      end in
    let '(w, proj) :=
      match psTarget with
      | Some t =>
          let maxHeight := establishTargetHeight w psTarget in
          let minHeight :=
            Z.min (Z.max (int32 (maxHeight + 2 * LINE_OF_FIRE_MINIMUM X
                                 - areaOfFire X (objects w) psAttacker t weapon_slot)) 0)
                  maxHeight in
          let '(r, seed) := gameRand X (randState w) (Z.max (int32 (maxHeight - minHeight)) 1) in
          let w := with_randState seed w in
          let tz := match objects w !! t with Some o => vz (o_pos o) | None => 0 end in
          let proj := set_dst (set_vz (int32 (tz + minHeight + r)) (p_dst proj)) proj in
          (w, set_partVisible (int32 (maxHeight - minHeight)) proj)
      | None =>
          (w, set_dst (set_vz (int32 (vz target + LINE_OF_FIRE_MINIMUM X)) (p_dst proj)) proj)
      end in
    let deltaPos := vsub (p_dst proj) (p_src proj) in
    let dir := iAtan2 X (vx deltaPos) (vy deltaPos) in
    let dist := iHypot X (vx deltaPos) (vy deltaPos) in
    let '(w, proj) :=
      if proj_Direct psStats then
        (w, set_rot (mkRotation dir (iAtan2 X (vz deltaPos) dist) 0) proj)
      else
        let '(draw, seed) := gameRand X (randState w) 10001 in
        let w := with_randState seed w in
        let s := solved (projCalcIndirectVelocities (iAtan2 X) (iSin X) (iCos X)
                           draw dist (vz deltaPos) (flightSpeed psStats) min_angle) in
        let proj := set_vXY (out_vx s) (set_vZ (out_vz s) proj) in
        (w, set_rot (mkRotation dir (iAtan2 X (p_vZ proj) (p_vXY proj)) 0) proj) in
    let proj := set_state PROJ_INFLIGHT proj in
    let proj := if bVisible || gfxVisible w proj then set_bVisible true proj else proj in
    (w, Some proj).

Definition proj_SendProjectileInternal
    (psStats : WEAPON_STATS) (psAttacker : Attacker) (player : Z) (target : Vector3i)
    (psTarget : option ptr) (bVisible : bool) (weapon_slot : Z) (w : World)
  : World * option PROJECTILE :=
  proj_SendProjectileAngledInternal psStats psAttacker player target psTarget bVisible
    weapon_slot 0 (uint32 (gameTime w - 1)) w.

(** *** Flight (lines 741-1011) *)

Definition proj_GetLongRange (psStats : WEAPON_STATS) (player : Z) : Z :=
  if (player >=? 0) && (player <? MAX_PLAYERS X)
  then maxRange (upgrade psStats player) else 0.

Definition LAS_SAT_DELAY : Z := 4.

Definition getSpacetime (p : PROJECTILE) : Spacetime :=
  mkSpacetime (p_time p) (p_pos p) (p_rot p).

Definition setSpacetime (st : Spacetime) (p : PROJECTILE) : PROJECTILE :=
  set_time (st_time st) (set_rot (st_rot st) (set_pos (st_pos st) p)).

(** [interpolateObjectSpacetime] (lib/gamelib, outside the examined
    sources) returns the sample at time [t] between the previous and the
    current sample of the object: the time is [t], position and rotation
    are interpolated. *)
Definition interpolateObjectSpacetime (p : PROJECTILE) (t : Z) : Spacetime :=
  mkSpacetime t
    (interpolatePos X (p_prevSpacetime p) (getSpacetime p) t)
    (interpolateRot X (p_prevSpacetime p) (getSpacetime p) t).

(** Lines 767-858: the movement of this tick; returns the projectile moved
    and [currentDistance]. *)
Definition move_projectile (w : World) (psProj : PROJECTILE) (timeSoFar : Z)
  : PROJECTILE * Z :=
  let psStats := psWStats psProj in
  match movementModel psStats with
  | MM_DIRECT =>
      let delta := vsub (p_dst psProj) (p_src psProj) in
      let delta := if is_LAS_SAT (weaponSubClass psStats) then set_vz 0 delta else delta in
      let targetDistance := Z.max (iHypot X (vx delta) (vy delta)) 1 in
      let currentDistance :=
        cdiv (int32 (timeSoFar * flightSpeed psStats)) GAME_TICKS_PER_SEC in
      (set_pos (vadd (p_src psProj) (vdiv (vscale delta currentDistance) targetDistance)) psProj,
       currentDistance)
  | MM_INDIRECT =>
      let delta := vsub (p_dst psProj) (p_src psProj) in
      let dz :=
        cdiv (int32 (int32 (p_vZ psProj
                            - cdiv (int32 (timeSoFar * ACC_GRAVITY)) (GAME_TICKS_PER_SEC * 2))
                     * timeSoFar))
             GAME_TICKS_PER_SEC in
      let delta := set_vz dz delta in
      let targetDistance := Z.max (iHypot X (vx delta) (vy delta)) 1 in
      let currentDistance :=
        cdiv (int32 (timeSoFar * p_vXY psProj)) GAME_TICKS_PER_SEC in
      let pos := vadd (p_src psProj) (vdiv (vscale delta currentDistance) targetDistance) in
      let pos := set_vz (int32 (vz (p_src psProj) + dz)) pos in
      let rot :=
        mkRotation (direction (p_rot psProj))
          (iAtan2 X (int32 (p_vZ psProj
                            - cdiv (int32 (timeSoFar * ACC_GRAVITY)) GAME_TICKS_PER_SEC))
                    (p_vXY psProj))
          (roll (p_rot psProj)) in
      (set_rot rot (set_pos pos psProj), currentDistance)
  | MM_HOMINGDIRECT | MM_HOMINGINDIRECT =>
      let '(dst, pos, rot) := homingStep X (objects w) (gameTime w) psProj in
      let currentDistance :=
        cdiv (int32 (timeSoFar * flightSpeed psStats)) GAME_TICKS_PER_SEC in
      (set_rot rot (set_pos pos (set_dst dst psProj)), currentDistance)
  end.

(** The state of the scan over nearby objects (lines 860-918).
    [tested] lists the objects handed to [collisionXYZ], oldest first. *)
Record Scan := mkScan {
  closestCollisionObject : option ptr;
  closestCollisionSpacetime : Spacetime;
  tested : list ptr
}.

Definition NO_COLLISION_TIME : Z := 4294967295.   (* 0xFFFFFFFF *)

(** The [continue] conditions at the head of the loop (lines 870-899). *)
Definition scan_skips
    (psProj : PROJECTILE) (psTempObj : ptr) (o : BASE_OBJECT) : bool :=
  let psStats := psWStats psProj in
  if existsb (ptr_eqb psTempObj) (psDamaged psProj) then true
  else if negb (o_died o =? 0) then true
  else if OBJECT_TYPE_eqb (o_type o) OBJ_FEATURE && negb (o_damageable o) then true
  else if aiCheckAlliances X (o_player o) (p_player psProj)
          && negb (optr_eqb (Some psTempObj) (psDest psProj)) then true
  else if (Z.land (surfaceToAir psStats) SHOOT_ON_GROUND =? 0)
          && (OBJECT_TYPE_eqb (o_type o) OBJ_STRUCTURE
              || OBJECT_TYPE_eqb (o_type o) OBJ_FEATURE
              || (OBJECT_TYPE_eqb (o_type o) OBJ_DROID && negb (o_isFlying o))) then true
  else false.

Definition scan_body (w : World) (psProj : PROJECTILE) (sc : Scan) (psTempObj : ptr) : Scan :=
  match objects w !! psTempObj with
  | None => sc
  | Some o =>
    if scan_skips psProj psTempObj o then sc
    else
      let psTempObjPrevPos :=
        if OBJECT_TYPE_eqb (o_type o) OBJ_DROID then o_prevPos o else o_pos o in
      let diff := vsub (p_pos psProj) (o_pos o) in
      let prevDiff := vsub (st_pos (p_prevSpacetime psProj)) psTempObjPrevPos in
      let targetHeight := uint32 (establishTargetHeight w (Some psTempObj)) in
      let targetShape := establishTargetShape X (objects w) psTempObj in
      let collision := collisionXYZ prevDiff diff targetShape (int32 targetHeight) in
      let prevTime := st_time (p_prevSpacetime psProj) in
      let collisionTime :=
        uint32 (prevTime
                + uint32 (uint32 (p_time psProj - prevTime) * uint32 collision) / 1024) in
      if (collision >=? 0) && (collisionTime <? st_time (closestCollisionSpacetime sc))
      then mkScan (Some psTempObj) (interpolateObjectSpacetime psProj collisionTime)
                  (tested sc ++ [psTempObj])
      else mkScan (closestCollisionObject sc) (closestCollisionSpacetime sc)
                  (tested sc ++ [psTempObj])
  end.

Definition scan_objects (w : World) (psProj : PROJECTILE) : Scan :=
  fold_left (scan_body w psProj)
    (gridStartIterate X (objects w) (vx (p_pos psProj)) (vy (p_pos psProj))
       (TILE_UNITS X * 4))
    (mkScan None (mkSpacetime NO_COLLISION_TIME (mkVector3i 0 0 0) (mkRotation 0 0 0)) []).

(** Lines 920-930: the terrain may be hit earlier than any object. *)
Definition scan_terrain (psProj : PROJECTILE) (sc : Scan) : Scan :=
  let terrainIntersectTime :=
    map_LineIntersect X (st_pos (p_prevSpacetime psProj)) (p_pos psProj)
      (uint32 (p_time psProj - st_time (p_prevSpacetime psProj))) in
  if negb (terrainIntersectTime =? NO_COLLISION_TIME) then
    let collisionTime := uint32 (st_time (p_prevSpacetime psProj) + terrainIntersectTime) in
    if collisionTime <? st_time (closestCollisionSpacetime sc)
    then mkScan None (interpolateObjectSpacetime psProj collisionTime) (tested sc)
    else sc
  else sc.

(** [static_cast<int>(1.25 * range)]: the product is exact in double
    precision for a 32-bit range, and the cast truncates. *)
Definition penetration_limit (range : Z) : Z := cdiv (5 * range) 4.

(** Line 945: whether the hit spawns a continuation. *)
Definition penetrates
    (w : World) (psProj : PROJECTILE) (hit : option ptr) (currentDistance : Z) : bool :=
  isDroid w hit
  && penetrate (psWStats psProj)
  && (currentDistance <? penetration_limit (proj_GetLongRange (psWStats psProj) (p_player psProj))).

(** Line 961: whether the maximum range has been travelled. *)
Definition range_exceeded (psProj : PROJECTILE) (currentDistance : Z) : bool :=
  int32 (currentDistance * 100)
  >=? int32 (proj_GetLongRange (psWStats psProj) (p_player psProj)
             * distanceExtensionFactor (psWStats psProj)).

(** Lines 932-959: something was hit this tick. *)
Definition inflight_hit
    (w : World) (psProj : PROJECTILE) (sc : Scan) (currentDistance : Z)
  : World * PROJECTILE * option PROJECTILE :=
  let psProj := setSpacetime (closestCollisionSpacetime sc) psProj in
  let psProj :=
    set_time (Z.max (p_time psProj) (uint32 (gameTime w - deltaGameTime w + 1))) psProj in
  let psProj :=
    if p_time psProj =? st_time (p_prevSpacetime psProj)
    then set_prevSpacetime
           (mkSpacetime (uint32 (st_time (p_prevSpacetime psProj) - 1))
              (st_pos (p_prevSpacetime psProj)) (st_rot (p_prevSpacetime psProj))) psProj
    else psProj in
  let '(w, psProj) := setProjectileDestination (closestCollisionObject sc) w psProj in
  let '(w, psProj, spawnedProjectile) :=
    match closestCollisionObject sc with
    | Some hit =>
        if penetrates w psProj (Some hit) currentDistance then
          let psProj := set_psDamaged (psDamaged psProj ++ [hit]) psProj in
          let '(w, spawned) :=
            proj_SendProjectileInternal (psWStats psProj) (AttackerProjectile psProj)
              (p_player psProj) (p_dst psProj) None true (-1) w in
          (w, psProj, spawned)
        else (w, psProj, None)
    | None => (w, psProj, None)
    end in
  (w, set_state PROJ_IMPACT psProj, spawnedProjectile).

Definition las_sat_waiting (w : World) (psProj : PROJECTILE) (timeSoFar : Z) : bool :=
  bMultiPlayer w && is_LAS_SAT (weaponSubClass (psWStats psProj))
  && (uint32 timeSoFar <? uint32 (LAS_SAT_DELAY * GAME_TICKS_PER_SEC)).

(** Line 751: the age of the projectile. *)
Definition time_so_far (w : World) (psProj : PROJECTILE) : Z :=
  int32 (uint32 (gameTime w - p_born psProj)).

(** The scan of this tick: nearby objects first, then the terrain. *)
Definition flight_scan (w : World) (psProj : PROJECTILE) : Scan :=
  scan_terrain psProj (scan_objects w psProj).

Definition collision_found (sc : Scan) : bool :=
  negb (st_time (closestCollisionSpacetime sc) =? NO_COLLISION_TIME).

Definition proj_InFlightFunc (w : World) (psProj : PROJECTILE)
  : World * PROJECTILE * option PROJECTILE :=
  let timeSoFar := time_so_far w psProj in
  let psProj := set_time (gameTime w) psProj in
  if las_sat_waiting w psProj timeSoFar then (w, psProj, None)
  else
    let '(psProj, currentDistance) := move_projectile w psProj timeSoFar in
    let sc := flight_scan w psProj in
    if collision_found sc
    then inflight_hit w psProj sc currentDistance
    else if range_exceeded psProj currentDistance then
      let psProj := set_state PROJ_IMPACT psProj in
      let '(w, psProj) := setProjectileDestination None w psProj in
      (w, psProj, None)
    else (w, psProj, None).

(** *** The per-tick update of one projectile (lines 1377-1439) *)

Definition is_dead (w : World) (a : ptr) : bool :=
  match objects w !! a with
  | Some o => isDead X o
  | None => false
  end.

(** Lines 1385-1401: references to objects that died are dropped. *)
Definition drop_dead_references (w : World) (psObj : PROJECTILE) : World * PROJECTILE :=
  let psObj :=
    match psSource psObj with
    | Some s => if obj_died w s then set_psSource None psObj else psObj
    | None => psObj
    end in
  let '(w, psObj) :=
    match psDest psObj with
    | Some d => if obj_died w d then setProjectileDestination None w psObj else (w, psObj)
    | None => (w, psObj)
    end in
  (w, set_psDamaged (List.filter (fun a => negb (is_dead w a)) (psDamaged psObj)) psObj).

(** The [switch] of [PROJECTILE::update] with its fall-through. *)
Definition update_state (w : World) (psObj : PROJECTILE)
  : World * PROJECTILE * option PROJECTILE :=
  let post (s : World * PROJECTILE) :=
    let '(w, psObj) := s in
    if PROJ_STATE_eqb (p_state psObj) PROJ_POSTIMPACT
    then proj_PostImpactFunc w psObj else (w, psObj) in
  match p_state psObj with
  | PROJ_INFLIGHT =>
      let '(w, psObj, spawnedProjectile) := proj_InFlightFunc w psObj in
      if PROJ_STATE_eqb (p_state psObj) PROJ_IMPACT
      then (post (proj_ImpactFunc w psObj), spawnedProjectile)
      else (w, psObj, spawnedProjectile)
  | PROJ_IMPACT => (post (proj_ImpactFunc w psObj), None)
  | PROJ_POSTIMPACT => (proj_PostImpactFunc w psObj, None)
  | PROJ_INACTIVE => (w, set_died (p_time psObj) psObj, None)
  end.

Definition update (w : World) (psObj : PROJECTILE)
  : World * PROJECTILE * option PROJECTILE :=
  let psObj := set_prevSpacetime (getSpacetime psObj) psObj in
  let '(w, psObj) := drop_dead_references w psObj in
  if negb (worldOnMap X (vx (p_pos psObj)) (vy (p_pos psObj)))
  then (w, set_died 1 psObj, None)
  else update_state w psObj.

(** *** The projectile list, by value (lines 1444-1486) *)

(** The predicate of the [remove_if] of [proj_UpdateAll]. *)
Definition reclaimable (w : World) (p : PROJECTILE) : bool :=
  negb ((p_died p =? 0) || (p_died p >=? uint32 (gameTime w - deltaGameTime w))).

Definition spawned_list (s : option PROJECTILE) : list PROJECTILE :=
  match s with
  | Some c => [c]
  | None => []
  end.

(** The loop over the projectiles in play: every projectile is updated in
    list order, and the projectiles returned by the updates are collected
    in [spawnedProjectiles]. *)
Fixpoint update_sweep (w : World) (l : list PROJECTILE)
  : World * list PROJECTILE * list PROJECTILE :=
  match l with
  | [] => (w, [], [])
  | p :: rest =>
      let '(w, p', spawned) := update w p in
      let '(w, rest', spawnedProjectiles) := update_sweep w rest in
      (w, p' :: rest', spawned_list spawned ++ spawnedProjectiles)
  end.

(** [proj_UpdateAll] on the sequence of projectiles the list refers to. *)
Definition proj_UpdateAll_values (w : World) (l : list PROJECTILE)
  : World * list PROJECTILE :=
  let '(w, updated, spawnedProjectiles) := update_sweep w l in
  (w, List.filter (fun p => negb (reclaimable w p)) updated ++ spawnedProjectiles).

(** [proj_SendProjectile] on the sequence of projectiles. *)
Definition proj_SendProjectile_values
    (psStats : WEAPON_STATS) (psAttacker : option ptr) (player : Z) (target : Vector3i)
    (psTarget : option ptr) (bVisible : bool) (weapon_slot : Z)
    (w : World) (l : list PROJECTILE) : World * list PROJECTILE :=
  let attacker := match psAttacker with Some a => AttackerObject a | None => NoAttacker end in
  match proj_SendProjectileInternal psStats attacker player target psTarget bVisible
          weapon_slot w with
  | (w, Some p) => (w, l ++ [p])
  | (w, None) => (w, l)
  end.

(** *** The projectile registry (lines 102-117, 224-227, 1444-1486) *)

(** [psProjectileList] holds addresses into [globalProjectileStorage]. *)
Record Registry := mkRegistry {
  globalProjectileStorage : gmap Z PROJECTILE;
  psProjectileList : list Z
}.

Section Registry.

(** Where [PagedEntityContainer::emplace] puts a new element: a slot
    that is not in use, possibly one that was freed before. *)
Variable emplace_address : gmap Z PROJECTILE -> Z.

Definition emplace (p : PROJECTILE) (st : gmap Z PROJECTILE) : gmap Z PROJECTILE * Z :=
  let a := emplace_address st in (<[a := p]> st, a).

Definition proj_AddActiveProjectile (a : Z) (r : Registry) : Registry :=
  mkRegistry (globalProjectileStorage r) (psProjectileList r ++ [a]).

Definition proj_SendProjectile
    (psStats : WEAPON_STATS) (psAttacker : option ptr) (player : Z) (target : Vector3i)
    (psTarget : option ptr) (bVisible : bool) (weapon_slot : Z)
    (w : World) (r : Registry) : World * Registry :=
  let attacker := match psAttacker with Some a => AttackerObject a | None => NoAttacker end in
  match proj_SendProjectileInternal psStats attacker player target psTarget bVisible
          weapon_slot w with
  | (w, Some p) =>
      let '(st, a) := emplace p (globalProjectileStorage r) in
      (w, proj_AddActiveProjectile a (mkRegistry st (psProjectileList r)))
  | (w, None) => (w, r)
  end.

(** The update loop: the projectile at each listed address is updated in
    place; a spawned projectile is put into the storage and its address
    is kept aside. *)
Fixpoint sweep (w : World) (st : gmap Z PROJECTILE) (l : list Z)
  : World * gmap Z PROJECTILE * list Z :=
  match l with
  | [] => (w, st, [])
  | a :: rest =>
      match st !! a with
      | None => sweep w st rest
      | Some p =>
          let '(w, p', spawned) := update w p in
          let st := <[a := p']> st in
          let '(st, here) :=
            match spawned with
            | Some c => let '(st, ac) := emplace c st in (st, [ac])
            | None => (st, [])
            end in
          let '(w, st, spawnedProjectiles) := sweep w st rest in
          (w, st, here ++ spawnedProjectiles)
      end
  end.

(** The [erase(remove_if ...)] over the list: reclaimable projectiles
    leave the list and the storage. *)
Fixpoint remove_dead (w : World) (st : gmap Z PROJECTILE) (l : list Z)
  : gmap Z PROJECTILE * list Z :=
  match l with
  | [] => (st, [])
  | a :: rest =>
      match st !! a with
      | Some p =>
          if reclaimable w p
          then remove_dead w (delete a st) rest
          else let '(st, kept) := remove_dead w st rest in (st, a :: kept)
      | None => let '(st, kept) := remove_dead w st rest in (st, a :: kept)
      end
  end.

Definition proj_UpdateAll (w : World) (r : Registry) : World * Registry :=
  let '(w, st, spawnedProjectiles) :=
    sweep w (globalProjectileStorage r) (psProjectileList r) in
  let '(st, kept) := remove_dead w st (psProjectileList r) in
  (w, mkRegistry st (kept ++ spawnedProjectiles)).

(** The projectiles in play, in the order of the list. *)
Definition projectiles (r : Registry) : list PROJECTILE :=
  omap (fun a => globalProjectileStorage r !! a) (psProjectileList r).

(** *** The registry refines the sequence of projectiles *)

Hypothesis emplace_fresh : forall st, st !! emplace_address st = None.

(** A well-formed registry: the listed addresses are distinct and in use. *)
Definition registry_ok (r : Registry) : Prop :=
  NoDup (psProjectileList r) /\
  forall a, a ∈ psProjectileList r -> is_Some (globalProjectileStorage r !! a).

Lemma omap_lookup_ext (st st' : gmap Z PROJECTILE) (l : list Z) :
  (forall a, a ∈ l -> st' !! a = st !! a) ->
  omap (fun a => st' !! a) l = omap (fun a => st !! a) l.
Proof.
  induction l as [| a l IH]; intros H; [reflexivity |].
  cbn. rewrite (H a) by (left). rewrite IH; [reflexivity |].
  intros b Hb. apply H. right. exact Hb.
Qed.

(** The update loop over addresses does to the listed projectiles what
    [update_sweep] does to their values; the projectiles it spawns sit at
    addresses that were free, and nothing else in the storage changes. *)
Lemma sweep_refines (l : list Z) :
  forall (w : World) (st : gmap Z PROJECTILE),
    NoDup l -> (forall a, a ∈ l -> is_Some (st !! a)) ->
    exists w' st' sp updated spawned,
      sweep w st l = (w', st', sp) /\
      update_sweep w (omap (fun a => st !! a) l) = (w', updated, spawned) /\
      omap (fun a => st' !! a) l = updated /\
      omap (fun a => st' !! a) sp = spawned /\
      NoDup sp /\
      (forall a, a ∈ sp -> st !! a = None /\ is_Some (st' !! a)) /\
      (forall a, is_Some (st !! a) -> is_Some (st' !! a)) /\
      (forall a, a ∉ l -> a ∉ sp -> st' !! a = st !! a).
Proof using emplace_fresh.
  induction l as [| a rest IH]; intros w st Hnd Hin.
  - exists w, st, [], [], []. cbn.
    split; [reflexivity |]. split; [reflexivity |]. split; [reflexivity |].
    split; [reflexivity |]. split; [constructor |].
    split; [intros x Hx; inversion Hx |]. split; [intros x Hx; exact Hx |].
    intros x _ _. reflexivity.
  - apply NoDup_cons in Hnd. destruct Hnd as [Hnotin Hnd].
    destruct (Hin a ltac:(left)) as [p Hp].
    cbn [sweep omap list_omap]. rewrite Hp. cbn [update_sweep].
    destruct (update w p) as [[w1 p'] spawned1] eqn:Hupd.
    set (st1 := <[a := p']> st).
    (* the storage after the update of this projectile and its child *)
    set (st2 := match spawned1 with
                | Some c => <[emplace_address st1 := c]> st1
                | None => st1
                end).
    set (here := match spawned1 with
                 | Some c => [emplace_address st1]
                 | None => []
                 end).
    assert (Hcase : (match spawned1 with
                     | Some c => let '(st, ac) := emplace c st1 in (st, [ac])
                     | None => (st1, [])
                     end) = (st2, here)).
    { unfold st2, here. destruct spawned1; reflexivity. }
    rewrite Hcase.
    assert (Hfresh1 : forall x, x ∈ here -> st1 !! x = None /\ x <> a /\ st !! x = None).
    { unfold here. intros x Hx. destruct spawned1; [| inversion Hx].
      apply list_elem_of_singleton in Hx. subst x.
      pose proof (emplace_fresh st1) as Hf.
      assert (emplace_address st1 <> a).
      { intros E. rewrite E in Hf. unfold st1 in Hf. rewrite lookup_insert_eq in Hf. discriminate. }
      repeat split; [exact Hf | assumption |].
      unfold st1 in Hf. rewrite lookup_insert_ne in Hf by auto. exact Hf. }
    assert (Hst2 : forall x, x ∉ here -> st2 !! x = st1 !! x).
    { unfold st2, here. intros x Hx. destruct spawned1; [| reflexivity].
      rewrite lookup_insert_ne; [reflexivity |]. intros E. apply Hx. subst. left. }
    assert (Hhere : omap (fun x => st2 !! x) here = spawned_list spawned1 /\ NoDup here
                    /\ forall x, x ∈ here -> is_Some (st2 !! x)).
    { unfold st2, here. destruct spawned1 as [c |]; cbn.
      - rewrite lookup_insert_eq. repeat split; [apply NoDup_singleton |].
        intros x Hx. apply list_elem_of_singleton in Hx. subst. rewrite lookup_insert_eq. eauto.
      - repeat split; [constructor | intros x Hx; inversion Hx]. }
    destruct Hhere as (Hhere1 & Hhere2 & Hhere3).
    assert (Hrest_here : forall x, x ∈ rest -> x ∉ here).
    { intros x Hx Hh. destruct (Hfresh1 x Hh) as (_ & _ & Hn).
      destruct (Hin x ltac:(right; exact Hx)) as [q Hq]. congruence. }
    assert (Hrest2 : forall x, x ∈ rest -> st2 !! x = st !! x).
    { intros x Hx. rewrite Hst2 by (apply Hrest_here, Hx).
      unfold st1. rewrite lookup_insert_ne; [reflexivity |]. intros E. subst. contradiction. }
    destruct (IH w1 st2 Hnd) as (w' & st' & sp & updated & spawned & Hs & Hu & Hl & Hsp & Hnd' & Hnew & Hkeep & Hframe).
    { intros x Hx. rewrite Hrest2 by exact Hx. apply Hin. right. exact Hx. }
    rewrite Hs. rewrite (omap_lookup_ext st st2 rest Hrest2) in Hu. rewrite Hu.
    assert (Ha2 : st2 !! a = Some p').
    { rewrite Hst2; [unfold st1; apply lookup_insert_eq |].
      intros Hh. destruct (Hfresh1 a Hh) as (_ & Hne & _). contradiction. }
    assert (Ha_sp : a ∉ sp).
    { intros Hh. destruct (Hnew a Hh) as [Hn _]. congruence. }
    assert (Hhere_sp : forall x, x ∈ here -> x ∉ sp).
    { intros x Hx Hh. destruct (Hnew x Hh) as [Hn _].
      destruct (Hhere3 x Hx) as [q Hq]. congruence. }
    exists w', st', (here ++ sp), (p' :: updated), (spawned_list spawned1 ++ spawned).
    split; [reflexivity |]. split; [reflexivity |]. split; [| split; [| split; [| split; [| split]]]].
    + cbn. rewrite (Hframe a Hnotin Ha_sp), Ha2, Hl. reflexivity.
    + rewrite omap_app, Hsp. f_equal. rewrite <- Hhere1.
      apply omap_lookup_ext. intros x Hx. apply Hframe; [| apply Hhere_sp, Hx].
      intros Hr. exact (Hrest_here x Hr Hx).
    + apply NoDup_app. repeat split; assumption.
    + intros x Hx. apply elem_of_app in Hx. destruct Hx as [Hx | Hx].
      * destruct (Hfresh1 x Hx) as (_ & _ & Hn). split; [exact Hn |].
        apply Hkeep, Hhere3, Hx.
      * destruct (Hnew x Hx) as [Hn Hs']. split; [| exact Hs'].
        destruct (decide (x ∈ here)) as [Hh | Hh]; [exfalso; exact (Hhere_sp x Hh Hx) |].
        rewrite Hst2 in Hn by exact Hh. unfold st1 in Hn.
        destruct (decide (x = a)) as [-> | Hne]; [rewrite lookup_insert_eq in Hn; discriminate |].
        rewrite lookup_insert_ne in Hn by auto. exact Hn.
    + intros x Hx. apply Hkeep.
      destruct (decide (x ∈ here)) as [Hh | Hh]; [apply Hhere3, Hh |].
      rewrite Hst2 by exact Hh. unfold st1.
      destruct (decide (x = a)) as [-> | Hne]; [rewrite lookup_insert_eq; eauto |].
      rewrite lookup_insert_ne by auto. exact Hx.
    + intros x Hx1 Hx2.
      apply not_elem_of_cons in Hx1. destruct Hx1 as [Hne Hx1].
      apply not_elem_of_app in Hx2. destruct Hx2 as [Hx2 Hx3].
      rewrite (Hframe x Hx1 Hx3), (Hst2 x Hx2). unfold st1.
      apply lookup_insert_ne. auto.
Qed.

(** The removal of the reclaimable projectiles keeps the others in
    order. *)
Lemma remove_dead_refines (w : World) (l : list Z) :
  forall st : gmap Z PROJECTILE,
    NoDup l -> (forall a, a ∈ l -> is_Some (st !! a)) ->
    exists st' kept,
      remove_dead w st l = (st', kept) /\
      omap (fun a => st' !! a) kept
        = List.filter (fun p => negb (reclaimable w p)) (omap (fun a => st !! a) l) /\
      NoDup kept /\
      (forall a, a ∈ kept -> a ∈ l /\ is_Some (st' !! a)) /\
      (forall a, a ∉ l -> st' !! a = st !! a).
Proof.
  induction l as [| a rest IH]; intros st Hnd Hin.
  - exists st, []. cbn.
    split; [reflexivity |]. split; [reflexivity |]. split; [constructor |].
    split; [intros x Hx; inversion Hx | intros x _; reflexivity].
  - apply NoDup_cons in Hnd. destruct Hnd as [Hnotin Hnd].
    destruct (Hin a ltac:(left)) as [p Hp].
    cbn [remove_dead omap list_omap]. rewrite Hp. cbn [List.filter].
    destruct (reclaimable w p) eqn:Hr; cbn [negb].
    + assert (Hdel : forall x, x ∈ rest -> delete a st !! x = st !! x).
      { intros x Hx. apply lookup_delete_ne. intros E. subst. contradiction. }
      destruct (IH (delete a st) Hnd) as (st' & kept & Hrm & Hom & Hnd' & Hk & Hf).
      { intros x Hx. rewrite Hdel by exact Hx. apply Hin. right. exact Hx. }
      exists st', kept. rewrite Hrm. split; [reflexivity |].
      rewrite (omap_lookup_ext st (delete a st) rest Hdel) in Hom.
      split; [exact Hom |]. split; [exact Hnd' |]. split.
      * intros x Hx. destruct (Hk x Hx) as [H1 H2]. split; [right; exact H1 | exact H2].
      * intros x Hx. apply not_elem_of_cons in Hx. destruct Hx as [Hne Hx].
        rewrite (Hf x Hx). apply lookup_delete_ne. auto.
    + destruct (IH st Hnd) as (st' & kept & Hrm & Hom & Hnd' & Hk & Hf).
      { intros x Hx. apply Hin. right. exact Hx. }
      exists st', (a :: kept). rewrite Hrm. split; [reflexivity |].
      assert (Ha' : st' !! a = Some p) by (rewrite (Hf a Hnotin); exact Hp).
      split; [cbn; rewrite Ha', Hom; reflexivity |].
      split; [apply NoDup_cons; split; [| exact Hnd']; intros Hx; destruct (Hk a Hx); contradiction |].
      split.
      * intros x Hx. apply elem_of_cons in Hx. destruct Hx as [-> | Hx].
        -- split; [left | rewrite Ha'; eauto].
        -- destruct (Hk x Hx) as [H1 H2]. split; [right; exact H1 | exact H2].
      * intros x Hx. apply not_elem_of_cons in Hx. destruct Hx as [_ Hx]. apply Hf, Hx.
Qed.

(** [proj_UpdateAll] acts on the projectiles in play as
    [proj_UpdateAll_values] does, whatever addresses the storage hands
    out, and keeps the registry well-formed. *)
Lemma proj_UpdateAll_refines (w : World) (r : Registry) :
  registry_ok r ->
  fst (proj_UpdateAll w r) = fst (proj_UpdateAll_values w (projectiles r)) /\
  projectiles (snd (proj_UpdateAll w r)) = snd (proj_UpdateAll_values w (projectiles r)) /\
  registry_ok (snd (proj_UpdateAll w r)).
Proof using emplace_fresh.
  intros [Hnd Hin]. unfold proj_UpdateAll, proj_UpdateAll_values, projectiles.
  destruct (sweep_refines (psProjectileList r) w (globalProjectileStorage r) Hnd Hin)
    as (w' & st1 & sp & updated & spawned & Hs & Hu & Hl & Hsp & Hnd1 & Hnew & Hkeep & Hframe).
  rewrite Hs, Hu.
  destruct (remove_dead_refines w' (psProjectileList r) st1 Hnd)
    as (st2 & kept & Hrm & Hom & Hnd2 & Hk & Hf).
  { intros a Ha. apply Hkeep, Hin, Ha. }
  rewrite Hrm. cbn [fst snd globalProjectileStorage psProjectileList].
  assert (Hsp_l : forall a, a ∈ sp -> a ∉ psProjectileList r).
  { intros a Ha Hl'. destruct (Hnew a Ha) as [Hn _]. destruct (Hin a Hl') as [q Hq]. congruence. }
  split; [reflexivity |]. split.
  - rewrite omap_app, Hom, Hl. f_equal. rewrite <- Hsp.
    apply omap_lookup_ext. intros a Ha. apply Hf, Hsp_l, Ha.
  - unfold registry_ok. cbn [globalProjectileStorage psProjectileList]. split.
    + apply NoDup_app. split; [exact Hnd2 |]. split; [| exact Hnd1].
      intros a Ha Hs'. destruct (Hk a Ha) as [Hl' _]. exact (Hsp_l a Hs' Hl').
    + intros a Ha. apply elem_of_app in Ha. destruct Ha as [Ha | Ha].
      * apply Hk, Ha.
      * rewrite (Hf a (Hsp_l a Ha)). apply Hnew, Ha.
Qed.

(** The same for firing. *)
Lemma proj_SendProjectile_refines psStats psAttacker player target psTarget bVisible slot
    (w : World) (r : Registry) :
  registry_ok r ->
  fst (proj_SendProjectile psStats psAttacker player target psTarget bVisible slot w r)
    = fst (proj_SendProjectile_values psStats psAttacker player target psTarget bVisible slot
             w (projectiles r)) /\
  projectiles (snd (proj_SendProjectile psStats psAttacker player target psTarget bVisible
                      slot w r))
    = snd (proj_SendProjectile_values psStats psAttacker player target psTarget bVisible slot
             w (projectiles r)) /\
  registry_ok (snd (proj_SendProjectile psStats psAttacker player target psTarget bVisible
                      slot w r)).
Proof using emplace_fresh.
  intros [Hnd Hin]. unfold proj_SendProjectile, proj_SendProjectile_values.
  destruct (proj_SendProjectileInternal _ _ _ _ _ _ _ w) as [w1 [p |]];
    [| repeat split; assumption].
  unfold emplace, proj_AddActiveProjectile, projectiles.
  cbn [fst snd globalProjectileStorage psProjectileList].
  set (st := globalProjectileStorage r) in *.
  pose proof (emplace_fresh st) as Hf.
  assert (Hnotin : emplace_address st ∉ psProjectileList r).
  { intros Hx. destruct (Hin _ Hx) as [q Hq]. congruence. }
  unfold registry_ok. cbn [globalProjectileStorage psProjectileList].
  split; [reflexivity |]. split; [| split].
  - rewrite omap_app. cbn. rewrite lookup_insert_eq. f_equal.
    apply omap_lookup_ext. intros a Ha. apply lookup_insert_ne. intros E. subst. contradiction.
  - apply NoDup_app. split; [exact Hnd |]. split; [| apply NoDup_singleton].
    intros a Ha Hs. apply list_elem_of_singleton in Hs. subst. contradiction.
  - intros a Ha. apply elem_of_app in Ha. destruct Ha as [Ha | Ha].
    + destruct (decide (a = emplace_address st)) as [-> | Hne];
        [rewrite lookup_insert_eq; eauto | rewrite lookup_insert_ne by auto; apply Hin, Ha].
    + apply list_elem_of_singleton in Ha. subst. rewrite lookup_insert_eq. eauto.
Qed.

End Registry.

(* ===================================================================== *)
(** ** Properties *)
(* ===================================================================== *)

(** *** Elementary facts *)

Lemma OBJECT_TYPE_eqb_eq a b : OBJECT_TYPE_eqb a b = true <-> a = b.
Proof. destruct a, b; simpl; split; (reflexivity || discriminate). Qed.

Lemma PROJ_STATE_eqb_eq a b : PROJ_STATE_eqb a b = true <-> a = b.
Proof. destruct a, b; simpl; split; (reflexivity || discriminate). Qed.

Lemma optr_eqb_eq a b : optr_eqb a b = true <-> a = b.
Proof.
  destruct a as [x |], b as [y |]; simpl; unfold ptr_eqb;
    split; intros H; try discriminate; try reflexivity.
  - apply Z.eqb_eq in H. congruence.
  - inversion H. apply Z.eqb_refl.
Qed.

Lemma existsb_ptr_eqb a l : existsb (ptr_eqb a) l = true <-> In a l.
Proof.
  rewrite existsb_exists. unfold ptr_eqb. split.
  - intros (x & Hin & Heq). apply Z.eqb_eq in Heq. subst. exact Hin.
  - intros Hin. exists a. split; [exact Hin | apply Z.eqb_refl].
Qed.

Lemma aiObjectAddExpectedDamage_objects o d b w :
  objects (aiObjectAddExpectedDamage o d b w) = objects w.
Proof. destruct o; reflexivity. Qed.

Lemma setProjectileDestination_objects o w p :
  objects (fst (setProjectileDestination o w p)) = objects w.
Proof.
  unfold setProjectileDestination. cbn [fst].
  rewrite !aiObjectAddExpectedDamage_objects. reflexivity.
Qed.

Lemma setProjectileDestination_snd o w p :
  snd (setProjectileDestination o w p) = set_psDest o p.
Proof. reflexivity. Qed.

(** What the movement of a tick leaves alone. *)
Lemma move_projectile_frame w p t :
  let p' := fst (move_projectile w p t) in
  psDamaged p' = psDamaged p /\ psDest p' = psDest p /\ p_player p' = p_player p /\
  psWStats p' = psWStats p /\ p_state p' = p_state p /\ p_born p' = p_born p /\
  psSource p' = psSource p /\ expectedDamageCaused p' = expectedDamageCaused p /\
  p_src p' = p_src p.
Proof.
  unfold move_projectile. destruct (movementModel (psWStats p)); cbn [fst].
  - repeat split.
  - repeat split.
  - destruct (homingStep X (objects w) (gameTime w) p) as [[dst pos] rot]. repeat split.
  - destruct (homingStep X (objects w) (gameTime w) p) as [[dst pos] rot]. repeat split.
Qed.

(** *** C10: what the collision scan never registers *)

(** An object the scan may test and register: it is in the object store,
    not on the damaged-list, alive, not a non-damageable feature, and not
    allied to the owner of the projectile unless it is its destination. *)
Definition admissible (w : World) (psProj : PROJECTILE) (a : ptr) : Prop :=
  exists o, objects w !! a = Some o /\
    ~ In a (psDamaged psProj) /\
    o_died o = 0 /\
    ~ (o_type o = OBJ_FEATURE /\ o_damageable o = false) /\
    (aiCheckAlliances X (o_player o) (p_player psProj) = true -> psDest psProj = Some a).

Lemma scan_skips_false w psProj a o :
  objects w !! a = Some o -> scan_skips psProj a o = false -> admissible w psProj a.
Proof.
  intros Ho Hs. unfold scan_skips in Hs.
  destruct (existsb (ptr_eqb a) (psDamaged psProj)) eqn:Edam; [discriminate |].
  destruct (negb (o_died o =? 0)) eqn:Edied; [discriminate |].
  destruct (OBJECT_TYPE_eqb (o_type o) OBJ_FEATURE && negb (o_damageable o)) eqn:Efeat;
    [discriminate |].
  destruct (aiCheckAlliances X (o_player o) (p_player psProj)
            && negb (optr_eqb (Some a) (psDest psProj))) eqn:Eally; [discriminate |].
  exists o. split; [exact Ho |]. split; [| split; [| split]].
  - intros Hin. apply existsb_ptr_eqb in Hin. congruence.
  - apply negb_false_iff, Z.eqb_eq in Edied. exact Edied.
  - intros [Ht Hd]. rewrite Ht, Hd in Efeat. discriminate Efeat.
  - intros Hally. rewrite Hally in Eally. cbn [andb] in Eally.
    apply negb_false_iff, optr_eqb_eq in Eally. congruence.
Qed.

(** The invariant of the loop over the nearby objects. *)
Definition scan_sound (w : World) (psProj : PROJECTILE) (sc : Scan) : Prop :=
  (forall a, In a (tested sc) -> admissible w psProj a) /\
  (forall hit, closestCollisionObject sc = Some hit -> In hit (tested sc)).

Lemma scan_body_sound w psProj sc a :
  scan_sound w psProj sc -> scan_sound w psProj (scan_body w psProj sc a).
Proof.
  intros [Ht Hc]. unfold scan_body.
  destruct (objects w !! a) as [o |] eqn:Ho; [| split; assumption].
  destruct (scan_skips psProj a o) eqn:Hs; [split; assumption |].
  pose proof (scan_skips_false w psProj a o Ho Hs) as Hadm.
  match goal with |- context [if ?c then _ else _] => destruct c end;
    split; cbn [tested closestCollisionObject].
  - intros b Hb. apply in_app_or in Hb. destruct Hb as [Hb | [<- | []]]; auto.
  - intros hit Hh. inversion Hh; subst. apply in_or_app. right. left. reflexivity.
  - intros b Hb. apply in_app_or in Hb. destruct Hb as [Hb | [<- | []]]; auto.
  - intros hit Hh. apply in_or_app. left. auto.
Qed.

Lemma scan_fold_sound w psProj l sc :
  scan_sound w psProj sc -> scan_sound w psProj (fold_left (scan_body w psProj) l sc).
Proof.
  revert sc. induction l as [| a l IH]; intros sc Hsc; cbn [fold_left].
  - exact Hsc.
  - apply IH, scan_body_sound, Hsc.
Qed.

Lemma scan_objects_sound w psProj : scan_sound w psProj (scan_objects w psProj).
Proof.
  unfold scan_objects. apply scan_fold_sound.
  split; cbn [tested closestCollisionObject]; [intros a [] | intros hit Hh; discriminate Hh].
Qed.

Lemma scan_terrain_object psProj sc hit :
  closestCollisionObject (scan_terrain psProj sc) = Some hit ->
  closestCollisionObject sc = Some hit.
Proof.
  unfold scan_terrain.
  repeat match goal with |- context [if ?c then _ else _] => destruct c end;
    cbn [closestCollisionObject]; intros H; (exact H || discriminate H).
Qed.

Lemma admissible_frame w p p' a :
  psDamaged p' = psDamaged p -> psDest p' = psDest p -> p_player p' = p_player p ->
  admissible w p' a -> admissible w p a.
Proof.
  intros Hd Hdst Hpl (o & Ho & H1 & H2 & H3 & H4).
  exists o. rewrite <- Hd, <- Hdst, <- Hpl. repeat split; assumption.
Qed.

(** The projectile as the scan of this tick sees it: time advanced and
    position moved. *)
Definition moved_projectile (w : World) (psProj : PROJECTILE) : PROJECTILE :=
  fst (move_projectile w (set_time (gameTime w) psProj) (time_so_far w psProj)).

Definition currentDistance_of (w : World) (psProj : PROJECTILE) : Z :=
  snd (move_projectile w (set_time (gameTime w) psProj) (time_so_far w psProj)).

(** What a penetration child looks like (the call at line 953). *)
Lemma spawn_child_spec psStats parent player target bVisible slot w :
  exists w' child,
    proj_SendProjectileInternal psStats (AttackerProjectile parent) player target
      None bVisible slot w = (w', Some child) /\
    objects w' = objects w /\ expectedDamage w' = expectedDamage w /\
    damageLog w' = damageLog w /\ gameTime w' = gameTime w /\
    deltaGameTime w' = deltaGameTime w /\
    p_born child = p_born parent /\ psDamaged child = psDamaged parent /\
    psSource child = psSource parent /\ p_src child = p_src parent /\
    p_pos child = p_pos parent /\
    p_dst child = set_vz (int32 (vz target + LINE_OF_FIRE_MINIMUM X)) target /\
    psDest child = None /\ p_state child = PROJ_INFLIGHT /\ p_died child = 0 /\
    p_player child = player /\ psWStats child = psStats /\
    p_time child = gameTime w.
Proof.
  unfold proj_SendProjectileInternal, proj_SendProjectileAngledInternal.
  cbv zeta. cbn [setProjectileDestination muzzle].
  unfold setProjectileDestination. cbn [psDest set_psDest aiObjectAddExpectedDamage].
  destruct (proj_Direct psStats).
  - match goal with |- context [if ?c then _ else _] => destruct c end;
      eexists; eexists; (split; [reflexivity |]); cbn; repeat split; reflexivity.
  - destruct (gameRand X _ 10001) as [draw seed].
    match goal with |- context [if ?c then _ else _] => destruct c end;
      eexists; eexists; (split; [reflexivity |]); cbn; repeat split; reflexivity.
Qed.

Lemma inflight_hit_frame w p sc cd :
  let r := inflight_hit w p sc cd in
  psDest (snd (fst r)) = closestCollisionObject sc /\
  p_state (snd (fst r)) = PROJ_IMPACT /\
  objects (fst (fst r)) = objects w.
Proof.
  unfold inflight_hit.
  set (p1 := set_time _ (setSpacetime _ p)).
  set (p2 := if p_time p1 =? _ then _ else p1).
  destruct (setProjectileDestination (closestCollisionObject sc) w p2) as [w3 p3] eqn:E3.
  assert (Hp3 : psDest p3 = closestCollisionObject sc)
    by (change p3 with (snd (w3, p3)); rewrite <- E3; reflexivity).
  assert (Hw3 : objects w3 = objects w)
    by (change w3 with (fst (w3, p3)); rewrite <- E3; apply setProjectileDestination_objects).
  destruct (closestCollisionObject sc) as [hit |] eqn:Ehit.
  - destruct (penetrates w3 p3 (Some hit) cd).
    + destruct (spawn_child_spec (psWStats (set_psDamaged (psDamaged p3 ++ [hit]) p3))
                  (set_psDamaged (psDamaged p3 ++ [hit]) p3)
                  (p_player (set_psDamaged (psDamaged p3 ++ [hit]) p3))
                  (p_dst (set_psDamaged (psDamaged p3 ++ [hit]) p3)) true (-1) w3)
        as (w4 & child & Hsend & Hobj & _).
      rewrite Hsend. cbn [fst snd]. repeat split; [exact Hp3 | congruence].
    + cbn [fst snd]. repeat split; [exact Hp3 | exact Hw3].
  - cbn [fst snd]. repeat split; [exact Hp3 | exact Hw3].
Qed.

(** C10.  During the collision scan of an in-flight update, every object
    handed to the geometric test [collisionXYZ] is admissible: it is not
    on the damaged-list, not dead, not a non-damageable feature, and not
    allied to the owner unless it is the current destination; and an
    object the update registers as hit (the projectile ends in IMPACT
    aimed at it) is one of the objects tested. *)
Theorem collision_scan_skips_protected_objects (w : World) (psProj : PROJECTILE) :
  (forall a, In a (tested (scan_objects w (moved_projectile w psProj))) ->
             admissible w psProj a) /\
  (forall w' p' spawned hit,
     p_state psProj = PROJ_INFLIGHT ->
     proj_InFlightFunc w psProj = (w', p', spawned) ->
     p_state p' = PROJ_IMPACT -> psDest p' = Some hit ->
     In hit (tested (scan_objects w (moved_projectile w psProj)))).
Proof.
  pose proof (move_projectile_frame w (set_time (gameTime w) psProj) (time_so_far w psProj))
    as Hframe.
  cbv zeta in Hframe. fold (moved_projectile w psProj) in Hframe.
  destruct Hframe as (Hdam & Hdst & Hpl & _ & Hst & _).
  destruct (scan_objects_sound w (moved_projectile w psProj)) as [Htested Hclosest].
  split.
  - intros a Ha. apply (admissible_frame w psProj (moved_projectile w psProj));
      [exact Hdam | exact Hdst | exact Hpl | apply Htested, Ha].
  - intros w' p' spawned hit Hfly Hrun Himpact Hdest.
    unfold proj_InFlightFunc in Hrun.
    destruct (las_sat_waiting w (set_time (gameTime w) psProj) (time_so_far w psProj)).
    { inversion Hrun; subst. cbn in Himpact. congruence. }
    unfold moved_projectile in *.
    destruct (move_projectile w (set_time (gameTime w) psProj) (time_so_far w psProj))
      as [pm cd]. cbn [fst] in *.
    destruct (collision_found (flight_scan w pm)).
    + pose proof (inflight_hit_frame w pm (flight_scan w pm) cd) as Hhit.
      cbv zeta in Hhit. rewrite Hrun in Hhit. cbn [fst snd] in Hhit.
      destruct Hhit as (Hd & _ & _).
      apply Hclosest, (scan_terrain_object pm). unfold flight_scan in Hd. congruence.
    + destruct (range_exceeded pm cd).
      * inversion Hrun; subst. cbn in Hdest. discriminate Hdest.
      * inversion Hrun; subst. cbn in Hst. congruence.
Qed.

(** *** C6: the range limit *)

(** C6, amended.  In an in-flight update that is not held back by the
    Las-Sat delay and finds no collision, with [currentDistance * 100] and
    [longRange * distanceExtensionFactor] inside the 32-bit range: if
    [currentDistance * 100 >= longRange * distanceExtensionFactor] (the
    limit reached or exceeded) the destination is cleared and the state
    becomes IMPACT; otherwise state and destination are left as they
    were.  No projectile is spawned either way. *)
Theorem range_limit_forces_miss (w : World) (psProj : PROJECTILE) :
  las_sat_waiting w (set_time (gameTime w) psProj) (time_so_far w psProj) = false ->
  collision_found (flight_scan w (moved_projectile w psProj)) = false ->
  INT32_MIN <= currentDistance_of w psProj * 100 <= INT32_MAX ->
  INT32_MIN <= proj_GetLongRange (psWStats psProj) (p_player psProj)
               * distanceExtensionFactor (psWStats psProj) <= INT32_MAX ->
  forall w' p' spawned,
    proj_InFlightFunc w psProj = (w', p', spawned) ->
    (proj_GetLongRange (psWStats psProj) (p_player psProj)
       * distanceExtensionFactor (psWStats psProj)
     <= currentDistance_of w psProj * 100 ->
       p_state p' = PROJ_IMPACT /\ psDest p' = None /\ spawned = None) /\
    (currentDistance_of w psProj * 100
     < proj_GetLongRange (psWStats psProj) (p_player psProj)
       * distanceExtensionFactor (psWStats psProj) ->
       p_state p' = p_state psProj /\ psDest p' = psDest psProj /\ spawned = None).
Proof.
  intros Hlas Hscan Hcd Hrange w' p' spawned Hrun.
  pose proof (move_projectile_frame w (set_time (gameTime w) psProj) (time_so_far w psProj))
    as Hframe.
  cbv zeta in Hframe.
  unfold proj_InFlightFunc in Hrun. rewrite Hlas in Hrun.
  unfold moved_projectile, currentDistance_of in *.
  destruct (move_projectile w (set_time (gameTime w) psProj) (time_so_far w psProj))
    as [pm cd]. cbn [fst snd] in *.
  destruct Hframe as (_ & Hdst & Hpl & Hstats & Hst & _).
  cbn in Hdst, Hpl, Hstats, Hst.
  rewrite Hscan in Hrun.
  unfold range_exceeded in Hrun. rewrite Hstats, Hpl in Hrun.
  rewrite (int32_small (cd * 100)) in Hrun by exact Hcd.
  rewrite (int32_small _ Hrange) in Hrun.
  destruct (Z.geb_spec (cd * 100)
              (proj_GetLongRange (psWStats psProj) (p_player psProj)
               * distanceExtensionFactor (psWStats psProj))) as [Hge | Hlt].
  - inversion Hrun; subst. split; [intros _ | intros Hc; lia].
    cbn. repeat split.
  - inversion Hrun; subst. split; [intros Hc; lia | intros _].
    repeat split; assumption.
Qed.

(** *** C9: experience *)

(** When the gate of [objectDamage] is closed (lines 1710-1718): the
    projectile has no source, or the destination of the projectile
    ([psProjectile->psDest], not the object of the damage event) is a
    feature, or it belongs to the player of the source. *)
Definition experience_gate_closed (d : DAMAGE) (w : World) : Prop :=
  psSource (dmg_projectile d) = None \/
  isFeature w (psDest (dmg_projectile d)) = true \/
  exists s t, deref w (psSource (dmg_projectile d)) = Some s /\
              deref w (psDest (dmg_projectile d)) = Some t /\
              o_player s = o_player t.

Lemma objectDamageDispatch_experience (d : DAMAGE) (w : World) :
  experience (fst (objectDamageDispatch d w)) = experience w /\
  kills (fst (objectDamageDispatch d w)) = kills w.
Proof.
  unfold objectDamageDispatch.
  destruct (objects w !! dmg_dest d) as [o |]; [| split; reflexivity].
  destruct (o_type o);
    try (match goal with |- context [let '(_, _) := ?h in _] => destruct h end);
    split; reflexivity.
Qed.

Lemma shouldIncreaseExperience_closed (d : DAMAGE) (w : World) :
  shouldIncreaseExperience d w = false <-> experience_gate_closed d w.
Proof.
  unfold shouldIncreaseExperience, experience_gate_closed, isFriendlyFire.
  destruct (psSource (dmg_projectile d)) as [src |] eqn:Esrc.
  - split.
    + intros H. right. apply andb_false_iff in H. destruct H as [H | H].
      * left. apply negb_false_iff in H. exact H.
      * right. apply negb_false_iff in H.
        destruct (psDest (dmg_projectile d)) as [dst |]; [| discriminate H].
        cbn [deref] in *.
        destruct (objects w !! src) as [s |]; [| discriminate H].
        destruct (objects w !! dst) as [t |]; [| discriminate H].
        exists s, t. split; [reflexivity |]. split; [reflexivity |].
        apply Z.eqb_eq. exact H.
    + intros [H | [H | (s & t & Hs & Ht & Hp)]]; [discriminate H | |].
      * rewrite H. reflexivity.
      * apply andb_false_iff. right. apply negb_false_iff.
        destruct (psDest (dmg_projectile d)) as [dst |]; [| discriminate Ht].
        cbn [deref] in *. rewrite Hs, Ht. apply Z.eqb_eq. exact Hp.
  - split; [intros _; left; reflexivity | reflexivity].
Qed.

(** The gate of [objectDamage].  The test [shouldIncreaseExperience]
    fails exactly when the projectile has no source, or its destination
    is a feature, or its destination belongs to the player of its source;
    and when that is so once the damage has been dispatched,
    [objectDamage] gives no experience and counts no kill: both counters
    are what they were before the call. *)
Lemma objectDamage_experience_gate (d : DAMAGE) (w : World) :
  (forall w', shouldIncreaseExperience d w' = false <-> experience_gate_closed d w') /\
  (experience_gate_closed d (fst (objectDamageDispatch d w)) ->
   experience (fst (objectDamage d w)) = experience w /\
   kills (fst (objectDamage d w)) = kills w).
Proof.
  split; [intros w'; apply shouldIncreaseExperience_closed |].
  intros Hclosed.
  destruct (objectDamageDispatch_experience d w) as [He Hk].
  unfold objectDamage.
  destruct (objectDamageDispatch d w) as [w1 rel]. cbn [fst] in *.
  assert (Hlog : experience_gate_closed d (with_damageLog (damageLog w1 ++ [d]) w1))
    by exact Hclosed.
  apply shouldIncreaseExperience_closed in Hlog.
  rewrite Hlog. cbn [fst experience kills with_damageLog]. split; assumption.
Qed.


(** *** What the damage paths leave alone *)

(** The parts of the world that only the projectile code itself writes:
    clock, expected-damage bookkeeping, random stream, id counter, and the
    damage log. *)
Definition same_books (w w' : World) : Prop :=
  gameTime w' = gameTime w /\ deltaGameTime w' = deltaGameTime w /\
  bMultiPlayer w' = bMultiPlayer w /\ expectedDamage w' = expectedDamage w /\
  randState w' = randState w /\ experienceGain w' = experienceGain w /\
  projectileTrackerIDIncrement w' = projectileTrackerIDIncrement w.

Lemma same_books_refl w : same_books w w.
Proof. repeat split. Qed.

Lemma same_books_trans w1 w2 w3 : same_books w1 w2 -> same_books w2 w3 -> same_books w1 w3.
Proof.
  unfold same_books. intros (A1 & A2 & A3 & A4 & A5 & A6 & A7) (B1 & B2 & B3 & B4 & B5 & B6 & B7).
  repeat split; congruence.
Qed.

Ltac destruct_matches :=
  repeat match goal with
         | |- context [match ?x with _ => _ end] => destruct x
         end.

Lemma proj_UpdateExperience_frame p inc w :
  same_books w (proj_UpdateExperience p inc w) /\
  damageLog (proj_UpdateExperience p inc w) = damageLog w.
Proof.
  unfold proj_UpdateExperience, cmdDroidUpdateExperience, droidIncreaseExperience.
  destruct_matches; cbn; repeat split.
Qed.

Lemma updateKills_frame d w :
  same_books w (updateKills d w) /\ damageLog (updateKills d w) = damageLog w.
Proof.
  unfold updateKills, increment_kills. destruct_matches; cbn; repeat split.
Qed.

Lemma objectDamageDispatch_frame d w :
  same_books w (fst (objectDamageDispatch d w)) /\
  damageLog (fst (objectDamageDispatch d w)) = damageLog w.
Proof.
  unfold objectDamageDispatch. destruct_matches; cbn; repeat split.
Qed.

Lemma objectDamage_frame d w :
  same_books w (fst (objectDamage d w)) /\
  damageLog (fst (objectDamage d w)) = damageLog w ++ [d].
Proof.
  unfold objectDamage.
  pose proof (objectDamageDispatch_frame d w) as [Hb Hl].
  destruct (objectDamageDispatch d w) as [w1 rel]. cbn [fst] in *.
  set (w2 := with_damageLog (damageLog w1 ++ [d]) w1).
  assert (Hb2 : same_books w w2) by (destruct Hb as (? & ? & ? & ? & ? & ? & ?); repeat split; assumption).
  assert (Hl2 : damageLog w2 = damageLog w ++ [d]) by (cbn; congruence).
  destruct (shouldIncreaseExperience d w2); [| split; assumption].
  set (inc := uint32 _).
  pose proof (proj_UpdateExperience_frame (dmg_projectile d) inc w2) as [Hb3 Hl3].
  destruct (rel <? 0).
  - pose proof (updateKills_frame d (proj_UpdateExperience (dmg_projectile d) inc w2))
      as [Hb4 Hl4].
    cbn [fst]. split; [| congruence].
    eapply same_books_trans; [exact Hb2 |]. eapply same_books_trans; eassumption.
  - cbn [fst]. split; [| congruence]. eapply same_books_trans; eassumption.
Qed.

(** A damage event of a radius sweep of [psObj]: it carries the sweep's
    EMP flag and its object is not the destination of the projectile. *)
Definition sweep_event (psObj : PROJECTILE) (isEmp : bool) (d : DAMAGE) : Prop :=
  dmg_projectile d = psObj /\ dmg_empRadiusHit d = isEmp /\
  Some (dmg_dest d) <> psDest psObj.

Lemma proj_radiusSweep_body_frame psObj psStats pos isEmp w a :
  same_books w (proj_radiusSweep_body psObj psStats pos isEmp w a) /\
  exists events,
    damageLog (proj_radiusSweep_body psObj psStats pos isEmp w a) = damageLog w ++ events /\
    Forall (sweep_event psObj isEmp) events.
Proof.
  unfold proj_radiusSweep_body.
  assert (Hnone : same_books w w /\
            exists events, damageLog w = damageLog w ++ events /\
                           Forall (sweep_event psObj isEmp) events).
  { split; [apply same_books_refl |]. exists []. rewrite app_nil_r. split; [reflexivity | constructor]. }
  destruct (objects w !! a) as [o |]; [| exact Hnone].
  destruct (negb (o_died o =? 0)); [exact Hnone |].
  destruct (optr_eqb (Some a) (psDest psObj)) eqn:Edest; [exact Hnone |].
  destruct (spared_as_friend w psObj psStats o); [exact Hnone |].
  destruct (match o_type o with
            | OBJ_DROID => _ | OBJ_STRUCTURE => _ | OBJ_FEATURE => _ | OBJ_PROJECTILE => _
            end) as [[[inAir sphere] damageable] |]; [| exact Hnone].
  destruct (negb damageable); [exact Hnone |].
  destruct (Z.land _ _ =? 0); [exact Hnone |].
  destruct (sphere && negb _); [exact Hnone |].
  match goal with |- context [objectDamage ?d w] =>
    pose proof (objectDamage_frame d w) as [Hb Hl]; set (ev := d) in * end.
  split; [exact Hb |]. exists [ev]. split; [exact Hl |].
  constructor; [| constructor]. repeat split.
  cbn. intros Heq. rewrite <- Heq in Edest. cbn in Edest.
  unfold ptr_eqb in Edest. rewrite Z.eqb_refl in Edest. discriminate Edest.
Qed.

Lemma proj_radiusSweep_frame psObj psStats pos isEmp w :
  same_books w (proj_radiusSweep psObj psStats pos isEmp w) /\
  exists events,
    damageLog (proj_radiusSweep psObj psStats pos isEmp w) = damageLog w ++ events /\
    Forall (sweep_event psObj isEmp) events.
Proof.
  unfold proj_radiusSweep.
  generalize (gridStartIterate X (objects w) (vx pos) (vy pos) (sweep_radius psObj psStats isEmp)).
  intros l. revert w. induction l as [| a l IH]; intros w; cbn [fold_left].
  - split; [apply same_books_refl |]. exists []. rewrite app_nil_r. split; [reflexivity | constructor].
  - destruct (proj_radiusSweep_body_frame psObj psStats pos isEmp w a) as (Hb & ev1 & Hl1 & Hf1).
    destruct (IH (proj_radiusSweep_body psObj psStats pos isEmp w a)) as (Hb2 & ev2 & Hl2 & Hf2).
    split; [eapply same_books_trans; eassumption |].
    exists (ev1 ++ ev2). split.
    + rewrite Hl2, Hl1, app_assoc. reflexivity.
    + apply Forall_app. split; assumption.
Qed.

(** *** C8: area effects on impact *)







(** *** C1: the expected-damage bookkeeping *)

(** What a projectile has registered on the object [o]. *)
Definition contribution (o : ptr) (p : PROJECTILE) : Z :=
  if optr_eqb (psDest p) (Some o) then expectedDamageCaused p else 0.

(** The sum of the registrations of the live projectiles of a list. *)
Definition expected_sum (o : ptr) (l : list PROJECTILE) : Z :=
  fold_right (fun p acc => contribution o p + acc) 0
    (List.filter (fun p => p_died p =? 0) l).

(** The accounting invariant: every counter is the sum over the live
    projectiles aimed at the object. *)
Definition accounted (w : World) (l : list PROJECTILE) : Prop :=
  forall o, expected_of w o = expected_sum o l.

Lemma aiObjectAddExpectedDamage_expected a d b w o :
  expected_of (aiObjectAddExpectedDamage a d b w) o
  = expected_of w o + (if optr_eqb a (Some o) then d else 0).
Proof.
  destruct a as [x |]; cbn; [| lia].
  unfold expected_of, ptr_eqb. cbn.
  destruct (Z.eqb_spec x o) as [-> | Hne].
  - rewrite lookup_insert_eq. reflexivity.
  - rewrite lookup_insert_ne by exact Hne. lia.
Qed.

Lemma negated_unsigned e : 0 <= e <= INT32_MAX -> int32 (uint32 (- e)) = - e.
Proof.
  unfold INT32_MAX. intros He. unfold uint32, int32, wrap_signed.
  destruct (Z.eq_dec e 0) as [-> | Hne]; [reflexivity |].
  replace (- e) with (2 ^ 32 - e + (-1) * 2 ^ 32) by lia.
  rewrite Z.mod_add by lia. rewrite (Z.mod_small (2 ^ 32 - e)) by lia.
  replace (2 ^ 32 - e + 2 ^ (32 - 1)) with (2 ^ 31 - e + 1 * 2 ^ 32) by lia.
  rewrite Z.mod_add by lia. rewrite Z.mod_small by lia. lia.
Qed.

(** A reassignment moves the registration of the projectile from the old
    destination to the new one. *)
Lemma setProjectileDestination_expected new w p o :
  0 <= expectedDamageCaused p <= INT32_MAX ->
  expected_of (fst (setProjectileDestination new w p)) o
  = expected_of w o - contribution o p + contribution o (set_psDest new p).
Proof.
  intros He. unfold setProjectileDestination. cbn [fst].
  rewrite !aiObjectAddExpectedDamage_expected.
  rewrite negated_unsigned by exact He.
  rewrite int32_small by (unfold INT32_MIN, INT32_MAX in *; cbn; lia).
  unfold contribution. cbn [psDest set_psDest expectedDamageCaused].
  destruct (optr_eqb (psDest p) (Some o)), (optr_eqb new (Some o)); lia.
Qed.

(** After the impact has resolved, the projectile has nothing registered
    any more, and its former registration has left the counters. *)
Lemma release_expected_damage_spec w p :
  0 <= expectedDamageCaused p <= INT32_MAX ->
  expectedDamageCaused (snd (release_expected_damage w p)) = 0 /\
  psDest (snd (release_expected_damage w p)) = psDest p /\
  forall o, contribution o (snd (release_expected_damage w p)) = 0 /\
            expected_of (fst (release_expected_damage w p)) o
            = expected_of w o - contribution o p.
Proof.
  intros He. unfold release_expected_damage.
  pose proof (setProjectileDestination_expected None w p) as H1.
  destruct (setProjectileDestination None w p) as [w1 p1] eqn:E1.
  assert (Hp1 : p1 = set_psDest None p)
    by (change p1 with (snd (w1, p1)); rewrite <- E1; reflexivity).
  cbn [fst] in H1.
  pose proof (setProjectileDestination_expected (psDest p) w1
                (set_expectedDamageCaused 0 p1)) as H2.
  split; [reflexivity |]. split; [reflexivity |].
  intros o. split.
  - unfold contribution. cbn. destruct (optr_eqb (psDest p) (Some o)); reflexivity.
  - rewrite H2 by (cbn; unfold INT32_MAX; lia). rewrite H1 by exact He.
    subst p1. unfold contribution. cbn.
    destruct (optr_eqb (psDest p) (Some o)); lia.
Qed.

Lemma expected_sum_app o l1 l2 :
  expected_sum o (l1 ++ l2) = expected_sum o l1 + expected_sum o l2.
Proof.
  unfold expected_sum. rewrite List.filter_app, fold_right_app.
  induction (List.filter (fun p => p_died p =? 0) l1) as [| p l IH]; cbn; lia.
Qed.

Lemma expected_sum_live o p l :
  p_died p = 0 -> expected_sum o (p :: l) = contribution o p + expected_sum o l.
Proof. intros Hd. unfold expected_sum. cbn. rewrite Hd. reflexivity. Qed.

(** Every destination reassignment of a live projectile of the list
    preserves the accounting invariant. *)
Lemma setProjectileDestination_accounted new w p l1 l2 :
  0 <= expectedDamageCaused p <= INT32_MAX -> p_died p = 0 ->
  accounted w (l1 ++ p :: l2) ->
  accounted (fst (setProjectileDestination new w p))
            (l1 ++ snd (setProjectileDestination new w p) :: l2).
Proof.
  intros He Hd Hacc o.
  rewrite setProjectileDestination_expected by exact He.
  rewrite setProjectileDestination_snd.
  rewrite (Hacc o), !expected_sum_app, !expected_sum_live by (cbn; exact Hd). lia.
Qed.

(** *** C7: penetration *)

Lemma isDroid_objects w w' o : objects w' = objects w -> isDroid w' o = isDroid w o.
Proof. intros H. unfold isDroid, deref. rewrite H. reflexivity. Qed.

(** The hit of a droid by a penetrating weapon, seen from
    [proj_InFlightFunc]: below the limit a child is returned, from the
    limit on none is. *)
Lemma penetration_spawns_child (w : World) (psProj : PROJECTILE) (hit : ptr) :
  las_sat_waiting w (set_time (gameTime w) psProj) (time_so_far w psProj) = false ->
  collision_found (flight_scan w (moved_projectile w psProj)) = true ->
  closestCollisionObject (flight_scan w (moved_projectile w psProj)) = Some hit ->
  isDroid w (Some hit) = true ->
  penetrate (psWStats psProj) = true ->
  (currentDistance_of w psProj
     < penetration_limit (proj_GetLongRange (psWStats psProj) (p_player psProj)) ->
   exists w' p' child,
     proj_InFlightFunc w psProj = (w', p', Some child) /\
     p_state p' = PROJ_IMPACT /\ psDest p' = Some hit /\
     psDamaged p' = psDamaged psProj ++ [hit] /\
     p_born child = p_born psProj /\
     psDamaged child = psDamaged psProj ++ [hit] /\
     psSource child = psSource psProj /\
     p_pos child = p_pos p' /\
     p_dst child = set_vz (int32 (vz (p_dst p') + LINE_OF_FIRE_MINIMUM X)) (p_dst p') /\
     p_state child = PROJ_INFLIGHT /\ psDest child = None /\ p_died child = 0) /\
  (penetration_limit (proj_GetLongRange (psWStats psProj) (p_player psProj))
     <= currentDistance_of w psProj ->
   exists w' p',
     proj_InFlightFunc w psProj = (w', p', None) /\
     p_state p' = PROJ_IMPACT /\ psDest p' = Some hit).
Proof.
  intros Hlas Hfound Hobj Hdroid Hpen.
  pose proof (move_projectile_frame w (set_time (gameTime w) psProj) (time_so_far w psProj))
    as Hframe.
  cbv zeta in Hframe.
  unfold proj_InFlightFunc. rewrite Hlas.
  unfold moved_projectile, currentDistance_of in *.
  destruct (move_projectile w (set_time (gameTime w) psProj) (time_so_far w psProj))
    as [pm cd]. cbn [fst snd] in *.
  destruct Hframe as (Hdam & _ & Hpl & Hstats & _ & Hborn & Hsrc & _).
  cbn in Hdam, Hpl, Hstats, Hborn, Hsrc.
  rewrite Hfound. unfold inflight_hit. rewrite Hobj.
  set (p1 := set_time _ (setSpacetime _ pm)).
  set (p2 := if p_time p1 =? _ then _ else p1).
  assert (Hp2 : psDamaged p2 = psDamaged psProj /\ p_player p2 = p_player psProj /\
                psWStats p2 = psWStats psProj /\ p_born p2 = p_born psProj /\
                psSource p2 = psSource psProj /\ p_dst p2 = p_dst pm).
  { unfold p2. destruct (p_time p1 =? _); cbn; repeat split; assumption. }
  destruct Hp2 as (Hdam2 & Hpl2 & Hstats2 & Hborn2 & Hsrc2 & Hdst2).
  destruct (setProjectileDestination (Some hit) w p2) as [w3 p3] eqn:E3.
  assert (Hp3 : p3 = set_psDest (Some hit) p2)
    by (change p3 with (snd (w3, p3)); rewrite <- E3; reflexivity).
  assert (Hw3 : objects w3 = objects w)
    by (change w3 with (fst (w3, p3)); rewrite <- E3; apply setProjectileDestination_objects).
  unfold penetrates. rewrite (isDroid_objects w w3 (Some hit) Hw3), Hdroid.
  replace (psWStats p3) with (psWStats psProj) by (subst p3; cbn; congruence).
  replace (p_player p3) with (p_player psProj) by (subst p3; cbn; congruence).
  rewrite Hpen. cbn [andb].
  set (limit := penetration_limit (proj_GetLongRange (psWStats psProj) (p_player psProj))).
  split; intros Hcd.
  - destruct (Z.ltb_spec cd limit) as [_ | Hge]; [| lia].
    set (parent := set_psDamaged (psDamaged p3 ++ [hit]) p3).
    destruct (spawn_child_spec (psWStats parent) parent (p_player parent) (p_dst parent)
                true (-1) w3)
      as (w4 & child & Hsend & _ & _ & _ & _ & _ & Cborn & Cdam & Csrc & _ & Cpos & Cdst
          & Cdest & Cstate & Cdied & _).
    rewrite Hsend.
    exists w4, (set_state PROJ_IMPACT parent), child.
    split; [reflexivity |].
    unfold parent in *. subst p3. cbn in *.
    repeat split; try assumption; try congruence.
  - destruct (Z.ltb_spec cd limit) as [Hlt | _]; [lia |].
    exists w3, (set_state PROJ_IMPACT p3). subst p3. repeat split.
Qed.

(** *** The order of the projectile list *)

Lemma update_sweep_length (l : list PROJECTILE) :
  forall w, length (snd (fst (update_sweep w l))) = length l.
Proof.
  induction l as [| p rest IH]; intros w; [reflexivity |].
  cbn [update_sweep]. destruct (update w p) as [[w1 p'] sp].
  specialize (IH w1). destruct (update_sweep w1 rest) as [[w2 rest'] sps].
  cbn in *. congruence.
Qed.

(** The projectiles collected by the loop are the ones the updates
    returned. *)
Lemma update_sweep_children (l : list PROJECTILE) :
  forall w c, c ∈ snd (update_sweep w l) ->
    exists w1 p, p ∈ l /\ snd (update w1 p) = Some c.
Proof.
  induction l as [| p rest IH]; intros w c Hc; [inversion Hc |].
  cbn [update_sweep] in Hc. destruct (update w p) as [[w1 p'] sp] eqn:Hupd.
  specialize (IH w1 c). destruct (update_sweep w1 rest) as [[w2 rest'] sps].
  cbn [snd] in *. apply elem_of_app in Hc. destruct Hc as [Hc | Hc].
  - destruct sp as [c' |]; [| inversion Hc].
    apply list_elem_of_singleton in Hc. subst c'.
    exists w, p. split; [left | rewrite Hupd; reflexivity].
  - destruct (IH Hc) as (w' & q & Hq & Hu). exists w', q. split; [right; exact Hq | exact Hu].
Qed.

(** A projectile returned by [update] comes from [proj_InFlightFunc]. *)
Lemma update_child_from_flight (w : World) (p c : PROJECTILE) :
  snd (update w p) = Some c ->
  exists w1 p1, snd (proj_InFlightFunc w1 p1) = Some c.
Proof.
  unfold update. destruct (drop_dead_references w _) as [w1 p1].
  destruct (negb (worldOnMap X _ _)); [discriminate |].
  unfold update_state. destruct (p_state p1); try discriminate.
  destruct (proj_InFlightFunc w1 p1) as [[w2 p2] sp] eqn:Hfl.
  destruct (PROJ_STATE_eqb (p_state p2) PROJ_IMPACT); cbn [snd]; intros ->;
    exists w1, p1; rewrite Hfl; reflexivity.
Qed.

(** After [proj_UpdateAll] the list holds the projectiles that were in
    play, updated and without the reclaimable ones, in their order,
    followed by the projectiles spawned during the loop. *)
Lemma proj_UpdateAll_order
    (emplace_address : gmap Z PROJECTILE -> Z)
    (emplace_fresh : forall st, st !! emplace_address st = None)
    (w : World) (r : Registry) :
  registry_ok r ->
  projectiles (snd (proj_UpdateAll emplace_address w r))
    = List.filter
        (fun p => negb (reclaimable (fst (fst (update_sweep w (projectiles r)))) p))
        (snd (fst (update_sweep w (projectiles r))))
      ++ snd (update_sweep w (projectiles r)).
Proof.
  intros Hok.
  destruct (proj_UpdateAll_refines emplace_address emplace_fresh w r Hok) as (_ & H & _).
  rewrite H. unfold proj_UpdateAll_values.
  destruct (update_sweep w (projectiles r)) as [[w' updated] spawned]. reflexivity.
Qed.

(** Firing appends at most one projectile at the end of the list. *)
Lemma proj_SendProjectile_order
    (emplace_address : gmap Z PROJECTILE -> Z)
    (emplace_fresh : forall st, st !! emplace_address st = None)
    psStats psAttacker player target psTarget bVisible slot (w : World) (r : Registry) :
  registry_ok r ->
  exists tail,
    projectiles (snd (proj_SendProjectile emplace_address psStats psAttacker player target
                        psTarget bVisible slot w r))
      = projectiles r ++ tail /\ (length tail <= 1)%nat.
Proof.
  intros Hok.
  destruct (proj_SendProjectile_refines emplace_address emplace_fresh psStats psAttacker
              player target psTarget bVisible slot w r Hok) as (_ & H & _).
  rewrite H. unfold proj_SendProjectile_values.
  destruct (proj_SendProjectileInternal _ _ _ _ _ _ _ w) as [w1 [p |]]; cbn [snd].
  - exists [p]. split; [reflexivity | cbn; lia].
  - exists []. split; [symmetry; apply app_nil_r | cbn; lia].
Qed.

(** *** C2: replay *)

(** What happens to the projectile system in the course of a game: a
    weapon fires, the per-tick update runs, or the rest of the game changes
    the world (the clock advances, objects move or die). *)
Inductive Command :=
  | Fire (psStats : WEAPON_STATS) (psAttacker : option ptr) (player : Z) (target : Vector3i)
         (psTarget : option ptr) (bVisible : bool) (weapon_slot : Z)
  | UpdateAll
  | Elsewhere (f : World -> World).

Definition step (emplace_address : gmap Z PROJECTILE -> Z) (c : Command)
    (s : World * Registry) : World * Registry :=
  match c with
  | Fire psStats psAttacker player target psTarget bVisible weapon_slot =>
      proj_SendProjectile emplace_address psStats psAttacker player target psTarget bVisible
        weapon_slot (fst s) (snd s)
  | UpdateAll => proj_UpdateAll emplace_address (fst s) (snd s)
  | Elsewhere f => (f (fst s), snd s)
  end.

Fixpoint run (emplace_address : gmap Z PROJECTILE -> Z) (cmds : list Command)
    (s : World * Registry) : World * Registry :=
  match cmds with
  | [] => s
  | c :: rest => run emplace_address rest (step emplace_address c s)
  end.

Definition step_values (c : Command) (s : World * list PROJECTILE)
  : World * list PROJECTILE :=
  match c with
  | Fire psStats psAttacker player target psTarget bVisible weapon_slot =>
      proj_SendProjectile_values psStats psAttacker player target psTarget bVisible
        weapon_slot (fst s) (snd s)
  | UpdateAll => proj_UpdateAll_values (fst s) (snd s)
  | Elsewhere f => (f (fst s), snd s)
  end.

Fixpoint run_values (cmds : list Command) (s : World * list PROJECTILE)
  : World * list PROJECTILE :=
  match cmds with
  | [] => s
  | c :: rest => run_values rest (step_values c s)
  end.

Lemma step_refines
    (emplace_address : gmap Z PROJECTILE -> Z)
    (emplace_fresh : forall st, st !! emplace_address st = None)
    (c : Command) (w : World) (r : Registry) :
  registry_ok r ->
  fst (step emplace_address c (w, r)) = fst (step_values c (w, projectiles r)) /\
  projectiles (snd (step emplace_address c (w, r))) = snd (step_values c (w, projectiles r)) /\
  registry_ok (snd (step emplace_address c (w, r))).
Proof.
  intros Hok. destruct c; cbn [step step_values fst snd].
  - apply proj_SendProjectile_refines; assumption.
  - apply proj_UpdateAll_refines; assumption.
  - auto.
Qed.

(** A run over the registry is the run over the sequence of projectiles
    in play, whatever addresses the storage hands out. *)
Lemma run_refines
    (emplace_address : gmap Z PROJECTILE -> Z)
    (emplace_fresh : forall st, st !! emplace_address st = None)
    (cmds : list Command) :
  forall (w : World) (r : Registry),
    registry_ok r ->
    fst (run emplace_address cmds (w, r)) = fst (run_values cmds (w, projectiles r)) /\
    projectiles (snd (run emplace_address cmds (w, r)))
      = snd (run_values cmds (w, projectiles r)) /\
    registry_ok (snd (run emplace_address cmds (w, r))).
Proof.
  induction cmds as [| c cmds IH]; intros w r Hok.
  - cbn. auto.
  - cbn [run run_values].
    destruct (step_refines emplace_address emplace_fresh c w r Hok) as (H1 & H2 & H3).
    destruct (step emplace_address c (w, r)) as [w1 r1].
    destruct (step_values c (w, projectiles r)) as [w1' l1].
    cbn [fst snd] in *. subst w1' l1. apply IH. exact H3.
Qed.

(** C2. Two runs of the projectile system over the same sequence of fire
    and update calls, from the same world (which holds the state of the
    random generator) and the same projectiles in play, end in the same
    world (objects, damage events, experience, random state) and with the
    same projectiles in play (positions, states, every field), whatever
    addresses the two storages hand out.  The list is kept in insertion
    order: [proj_UpdateAll] updates the projectiles in list order, keeps
    the survivors in their order and puts the spawned ones behind them, and
    firing appends at the end. *)
Theorem projectile_replay_deterministic
    (storage1 storage2 : gmap Z PROJECTILE -> Z)
    (fresh1 : forall st, st !! storage1 st = None)
    (fresh2 : forall st, st !! storage2 st = None)
    (cmds : list Command) (w : World) (r1 r2 : Registry) :
  registry_ok r1 -> registry_ok r2 ->
  projectiles r1 = projectiles r2 ->
  (fst (run storage1 cmds (w, r1)) = fst (run storage2 cmds (w, r2)) /\
   projectiles (snd (run storage1 cmds (w, r1)))
     = projectiles (snd (run storage2 cmds (w, r2)))) /\
  (let s := update_sweep w (projectiles r1) in
   projectiles (snd (proj_UpdateAll storage1 w r1))
     = List.filter (fun p => negb (reclaimable (fst (fst s)) p)) (snd (fst s)) ++ snd s) /\
  (forall psStats psAttacker player target psTarget bVisible slot,
     exists tail,
       projectiles (snd (proj_SendProjectile storage1 psStats psAttacker player target
                           psTarget bVisible slot w r1))
         = projectiles r1 ++ tail /\ (length tail <= 1)%nat).
Proof.
  intros Hok1 Hok2 Heq.
  destruct (run_refines storage1 fresh1 cmds w r1 Hok1) as (Hw1 & Hp1 & _).
  destruct (run_refines storage2 fresh2 cmds w r2 Hok2) as (Hw2 & Hp2 & _).
  split; [| split].
  - rewrite Hw1, Hw2, Hp1, Hp2, Heq. split; reflexivity.
  - cbv zeta. apply proj_UpdateAll_order; assumption.
  - intros. apply proj_SendProjectile_order; assumption.
Qed.

(** C7. A projectile in flight whose scan of this tick found the droid
    [hit], fired by a penetrating weapon.  If the distance travelled is
    below [static_cast<int>(1.25 * longRange)], [proj_InFlightFunc] returns
    one child and moves the parent to IMPACT with the droid as destination;
    the child starts in flight at the position of the hit, aims at the
    destination of the parent raised by [LINE_OF_FIRE_MINIMUM], has no
    destination object, and inherits the time of birth, the source and the
    list of damaged objects of the parent, which now ends with the droid.
    From that distance on no child is returned.  [proj_UpdateAll] puts the
    projectiles returned by the updates behind the projectiles that were
    in play, after its loop and its removal of the dead ones: each of them
    is a projectile as [proj_InFlightFunc] returned it, and the loop
    updated the projectiles that were in play, no other. *)
Theorem penetration_child_spawned_and_deferred
    (emplace_address : gmap Z PROJECTILE -> Z)
    (emplace_fresh : forall st, st !! emplace_address st = None)
    (w : World) (psProj : PROJECTILE) (hit : ptr) (w0 : World) (r : Registry) :
  las_sat_waiting w (set_time (gameTime w) psProj) (time_so_far w psProj) = false ->
  collision_found (flight_scan w (moved_projectile w psProj)) = true ->
  closestCollisionObject (flight_scan w (moved_projectile w psProj)) = Some hit ->
  isDroid w (Some hit) = true ->
  penetrate (psWStats psProj) = true ->
  registry_ok r ->
  (currentDistance_of w psProj
     < penetration_limit (proj_GetLongRange (psWStats psProj) (p_player psProj)) ->
   exists w' p' child,
     proj_InFlightFunc w psProj = (w', p', Some child) /\
     p_state p' = PROJ_IMPACT /\ psDest p' = Some hit /\
     psDamaged p' = psDamaged psProj ++ [hit] /\
     p_born child = p_born psProj /\
     psDamaged child = psDamaged psProj ++ [hit] /\
     psSource child = psSource psProj /\
     p_pos child = p_pos p' /\
     p_dst child = set_vz (int32 (vz (p_dst p') + LINE_OF_FIRE_MINIMUM X)) (p_dst p') /\
     p_state child = PROJ_INFLIGHT /\ psDest child = None /\ p_died child = 0) /\
  (penetration_limit (proj_GetLongRange (psWStats psProj) (p_player psProj))
     <= currentDistance_of w psProj ->
   exists w' p',
     proj_InFlightFunc w psProj = (w', p', None) /\
     p_state p' = PROJ_IMPACT /\ psDest p' = Some hit) /\
  (let s := update_sweep w0 (projectiles r) in
   projectiles (snd (proj_UpdateAll emplace_address w0 r))
     = List.filter (fun p => negb (reclaimable (fst (fst s)) p)) (snd (fst s)) ++ snd s /\
   length (snd (fst s)) = length (projectiles r) /\
   forall c, c ∈ snd s -> exists w1 p1, snd (proj_InFlightFunc w1 p1) = Some c).
Proof.
  intros Hlas Hfound Hobj Hdroid Hpen Hok.
  destruct (penetration_spawns_child w psProj hit Hlas Hfound Hobj Hdroid Hpen) as [HA HB].
  split; [exact HA |]. split; [exact HB |].
  cbv zeta. split; [apply proj_UpdateAll_order; assumption |].
  split; [apply update_sweep_length |].
  intros c Hc. destruct (update_sweep_children _ _ _ Hc) as (w1 & p & _ & Hu).
  exact (update_child_from_flight w1 p c Hu).
Qed.

(** *** Further properties of the damage dispatcher *)

Lemma CLIP_range (val lo hi : Z) : lo <= hi -> lo <= CLIP val lo hi <= hi.
Proof.
  intros H. unfold CLIP.
  destruct (Z.ltb_spec val lo); [lia |]. destruct (Z.gtb_spec val hi); lia.
Qed.

Lemma clipped_mean_bounds (p q : Z) :
  32768 <= p <= 131072 -> 32768 <= q <= 131072 ->
  32768 <= uint32 (p + q) / 2 <= 131072.
Proof.
  intros Hp Hq. rewrite uint32_small by lia.
  split; [apply Z.div_le_lower_bound; lia | apply Z.div_le_upper_bound; lia].
Qed.

(** Unfolds [qualityFactor] in the goal and bounds it. *)
Ltac quality_bounds :=
  unfold qualityFactor; change (cdiv 65536 2) with 32768; change (65536 * 2) with 131072;
  match goal with
  | |- context [if ?c then 32768 else _] => destruct c; [lia |]
  end;
  cbv zeta; apply clipped_mean_bounds; apply CLIP_range; lia.

(** The inequality stated above [qualityFactor] (line 282):
    [0.5 <= ret / 65536 <= 2.0], whatever the power and the points of the
    two droids are. *)
Theorem qualityFactor_bounds (psAttacker psVictim : BASE_OBJECT) :
  32768 <= qualityFactor psAttacker psVictim <= 131072.
Proof. quality_bounds. Qed.

(** [calcDamage]: no damage from a weapon without base damage, at least
    one point of damage from any other ("Always do at least one damage"),
    and exactly the base damage on a target that no modifier applies to. *)
Theorem calcDamage_spec (baseDamage weaponEffect : Z) (psTarget : BASE_OBJECT) :
  calcDamage 0 weaponEffect psTarget = 0 /\
  (baseDamage <> 0 -> 1 <= calcDamage baseDamage weaponEffect psTarget) /\
  (0 < baseDamage <= 42949672 ->
   (o_type psTarget = OBJ_FEATURE \/
    (o_type psTarget = OBJ_STRUCTURE /\ structStrengthModifier X weaponEffect psTarget = 100) \/
    (o_type psTarget = OBJ_DROID /\ weaponModifier X weaponEffect psTarget = 100
     /\ weaponModifierBody X weaponEffect psTarget = 100)) ->
   calcDamage baseDamage weaponEffect psTarget = baseDamage).
Proof.
  split; [reflexivity |]. split.
  - intros Hne. unfold calcDamage.
    destruct (Z.eqb_spec baseDamage 0) as [E | _]; [contradiction |].
    cbv zeta. rewrite MAX_spec. lia.
  - intros Hb Hcase. unfold calcDamage.
    destruct (Z.eqb_spec baseDamage 0) as [E | _]; [lia |].
    cbv zeta.
    assert (Hbase : uint32 (baseDamage * 100) = baseDamage * 100)
      by (apply uint32_small; lia).
    assert (Hdone : MAX (baseDamage * 100 / 100) 1 = baseDamage)
      by (rewrite Z.div_mul by lia; rewrite MAX_spec; lia).
    destruct Hcase as [Ht | [(Ht & Hm) | (Ht & Hm & Hm')]]; rewrite Ht.
    + rewrite Hbase. exact Hdone.
    + rewrite Hm. change (uint32 (100 - 100)) with 0. rewrite Z.mul_0_r.
      change (uint32 0) with 0. rewrite Z.add_0_r, Hbase, Hbase. exact Hdone.
    + rewrite Hm, Hm'. change (uint32 (100 - 100)) with 0. rewrite Z.mul_0_r.
      change (uint32 0) with 0. rewrite !Z.add_0_r, !Hbase. exact Hdone.
Qed.

Lemma proj_UpdateExperience_objects p inc w :
  objects (proj_UpdateExperience p inc w) = objects w /\
  kills (proj_UpdateExperience p inc w) = kills w.
Proof.
  unfold proj_UpdateExperience, cmdDroidUpdateExperience, droidIncreaseExperience.
  destruct_matches; cbn; split; reflexivity.
Qed.

(** [objectDamage] returns what the damage handler returned; an event
    that does not destroy its object changes no kill counter; an event
    that destroys it while the experience gate is open counts one kill
    for a source droid without commander. *)
Theorem objectDamage_counts_kills (d : DAMAGE) (w : World) :
  snd (objectDamage d w) = snd (objectDamageDispatch d w) /\
  (0 <= snd (objectDamageDispatch d w) -> kills (fst (objectDamage d w)) = kills w) /\
  (snd (objectDamageDispatch d w) < 0 ->
   shouldIncreaseExperience d (fst (objectDamageDispatch d w)) = true ->
   forall src source,
     psSource (dmg_projectile d) = Some src ->
     objects (fst (objectDamageDispatch d w)) !! src = Some source ->
     o_type source = OBJ_DROID ->
     droidCommander X (objects (fst (objectDamageDispatch d w))) src = None ->
     kills (fst (objectDamage d w)) = <[src := kills_of w src + 1]> (kills w)).
Proof.
  pose proof (objectDamageDispatch_experience d w) as [_ Hk].
  unfold objectDamage.
  destruct (objectDamageDispatch d w) as [w1 rel]. cbn [fst snd] in *.
  set (w2 := with_damageLog (damageLog w1 ++ [d]) w1).
  assert (Hgate : shouldIncreaseExperience d w2 = shouldIncreaseExperience d w1)
    by reflexivity.
  split; [| split].
  - destruct (shouldIncreaseExperience d w2); reflexivity.
  - intros Hrel. destruct (shouldIncreaseExperience d w2); [| exact Hk].
    destruct (Z.ltb_spec rel 0) as [Hc | _]; [lia |]. cbn [fst].
    rewrite (proj2 (proj_UpdateExperience_objects _ _ _)). exact Hk.
  - intros Hrel Hopen src source Hsrc Hobj Htype Hcmd.
    rewrite Hgate, Hopen.
    destruct (Z.ltb_spec rel 0) as [_ | Hc]; [| lia]. cbn [fst].
    set (w3 := proj_UpdateExperience _ _ w2).
    assert (Ho3 : objects w3 = objects w1)
      by (unfold w3; rewrite (proj1 (proj_UpdateExperience_objects _ _ _)); reflexivity).
    assert (Hk3 : kills w3 = kills w)
      by (unfold w3; rewrite (proj2 (proj_UpdateExperience_objects _ _ _)); exact Hk).
    unfold updateKills. rewrite Hsrc, Ho3, Hobj, Htype. cbv zeta.
    assert (Ho4 : objects (increment_kills src w3) = objects w1) by exact Ho3.
    rewrite Ho4, Hcmd. unfold increment_kills, kills_of. cbn [kills with_kills].
    rewrite Hk3. reflexivity.
Qed.

(** The range assertion of [proj_UpdateExperience]: an increase of twice
    [(int)(2.1 * 65536)] or more is dropped, whatever the source and the
    quality factor are. *)
Theorem proj_UpdateExperience_out_of_range (psObj : PROJECTILE) (experienceInc : Z) (w : World) :
  2 * EXPERIENCE_LIMIT <= experienceInc < 2 ^ 31 ->
  proj_UpdateExperience psObj experienceInc w = w.
Proof.
  unfold EXPERIENCE_LIMIT. intros Hinc. unfold proj_UpdateExperience, EXPERIENCE_LIMIT.
  destruct (psSource psObj) as [src |]; [| reflexivity].
  destruct (objects w !! src) as [source |]; [| reflexivity].
  destruct (o_type source); try reflexivity.
  - cbv zeta.
    assert (Hdrop : forall inc, 137625 <= inc -> (inc <? 137625) = false)
      by (intros inc Hi; apply Z.ltb_ge; exact Hi).
    assert (Hscaled : forall victim,
              137625 <= uint32 (uint64 (experienceInc * qualityFactor source victim) / 65536)).
    { intros victim.
      assert (Hq : 32768 <= qualityFactor source victim <= 131072) by quality_bounds.
      set (q := qualityFactor source victim) in *.
      assert (Hlo : experienceInc * 32768 <= experienceInc * q)
        by (apply Z.mul_le_mono_nonneg_l; lia).
      assert (Hhi : experienceInc * q <= experienceInc * 131072)
        by (apply Z.mul_le_mono_nonneg_l; lia).
      rewrite uint64_small by lia.
      assert (137625 <= experienceInc * q / 65536)
        by (apply Z.div_le_lower_bound; lia).
      assert (experienceInc * q / 65536 < 2 ^ 32)
        by (apply Z.div_lt_upper_bound; lia).
      rewrite uint32_small by lia. lia. }
    destruct (deref w (psDest psObj)) as [victim |].
    + destruct (OBJECT_TYPE_eqb (o_type victim) OBJ_DROID && bMultiPlayer w).
      * rewrite (Hdrop _ (Hscaled victim)). reflexivity.
      * rewrite Hdrop by lia. reflexivity.
    + rewrite Hdrop by lia. reflexivity.
  - destruct (Z.ltb_spec experienceInc 137625) as [Hc | _]; [lia | reflexivity].
Qed.

(** *** Further properties of the impact *)

Lemma same_books_expected w w' o : same_books w w' -> expected_of w' o = expected_of w o.
Proof. intros (_ & _ & _ & He & _). unfold expected_of. rewrite He. reflexivity. Qed.

(** What the hit on the destination leaves alone: the books, the
    destination and the registration of the projectile. *)
Lemma impact_on_target_frame dst w psObj w1 p1 :
  impact_on_target dst w psObj = Some (w1, p1) ->
  same_books w w1 /\ psDest p1 = psDest psObj /\
  expectedDamageCaused p1 = expectedDamageCaused psObj /\
  psWStats p1 = psWStats psObj /\ p_player p1 = p_player psObj /\
  p_state p1 = p_state psObj.
Proof.
  unfold impact_on_target. cbv zeta.
  destruct (objects w !! dst) as [target |].
  2: { intros H. inversion H; subst. split; [apply same_books_refl | repeat split]. }
  destruct (OBJECT_TYPE_eqb (o_type target) OBJ_FEATURE && negb (o_damageable target));
    [discriminate |].
  assert (Hregular :
    forall d, (let '(w0, relativeDamage) := objectDamage d w in
               if relativeDamage >=? 0
               then Some (w0, set_psDamaged (psDamaged psObj ++ [dst]) psObj)
               else Some (w0, psObj)) = Some (w1, p1) ->
    same_books w w1 /\ psDest p1 = psDest psObj /\
    expectedDamageCaused p1 = expectedDamageCaused psObj /\
    psWStats p1 = psWStats psObj /\ p_player p1 = p_player psObj /\
    p_state p1 = p_state psObj).
  { intros d. pose proof (objectDamage_frame d w) as [Hb _].
    destruct (objectDamage d w) as [w0 rel]. cbn [fst] in Hb.
    destruct (rel >=? 0); intros H; inversion H; subst; (split; [exact Hb | repeat split]). }
  destruct (proj_Direct (psWStats psObj) && is_ELECTRONIC (weaponSubClass (psWStats psObj)));
    [| apply Hregular].
  destruct (psSource psObj) as [src |]; [| apply Hregular].
  destruct (electronicDamage X (objects w) dst _ (p_player psObj)) as [objs captured].
  intros H. inversion H; subst. split; [| repeat split].
  destruct captured; repeat split.
Qed.

Lemma impact_area_effects_frame w psObj :
  same_books w (fst (impact_area_effects w psObj)) /\
  psDest (snd (impact_area_effects w psObj)) = psDest psObj /\
  expectedDamageCaused (snd (impact_area_effects w psObj)) = expectedDamageCaused psObj /\
  (p_state (snd (impact_area_effects w psObj)) = PROJ_POSTIMPACT \/
   p_state (snd (impact_area_effects w psObj)) = PROJ_INACTIVE).
Proof.
  unfold impact_area_effects. cbv zeta.
  set (up := upgrade (psWStats psObj) (p_player psObj)).
  destruct (Z.eqb_spec (radius up) 0) as [Hr | Hr];
    destruct (Z.eqb_spec (periodicalDamageTime up) 0) as [Hp | Hp]; cbn [andb negb orb].
  - cbn. split; [apply same_books_refl |]. repeat split. right. reflexivity.
  - destruct (negb (empRadius up =? 0)).
    + destruct (is_EMP (weaponSubClass (psWStats psObj))); cbn [andb fst snd];
        (split; [first [apply proj_radiusSweep_frame | apply same_books_refl] |]);
        cbn; repeat split; left; reflexivity.
    + cbn. split; [apply same_books_refl |]. repeat split. left. reflexivity.
  - set (armed_p := set_born (gameTime w) (set_state PROJ_POSTIMPACT psObj)).
    set (w1 := if negb (empRadius up =? 0) && is_EMP (weaponSubClass (psWStats psObj))
               then proj_radiusSweep armed_p (psWStats psObj) (splash_centre w armed_p) true w
               else w).
    assert (H1 : same_books w w1).
    { unfold w1. destruct (_ && _); [apply proj_radiusSweep_frame | apply same_books_refl]. }
    pose proof (proj1 (proj_radiusSweep_frame armed_p (psWStats psObj)
                         (splash_centre w armed_p) false w1)) as H2.
    destruct (negb (empRadius up =? 0)); cbn [orb fst snd];
      (split; [eapply same_books_trans; [exact H1 | exact H2] |]);
      cbn; repeat split; left; reflexivity.
  - set (armed_p := set_born (gameTime w) (set_state PROJ_POSTIMPACT psObj)).
    set (w1 := if negb (empRadius up =? 0) && is_EMP (weaponSubClass (psWStats psObj))
               then proj_radiusSweep armed_p (psWStats psObj) (splash_centre w armed_p) true w
               else w).
    assert (H1 : same_books w w1).
    { unfold w1. destruct (_ && _); [apply proj_radiusSweep_frame | apply same_books_refl]. }
    pose proof (proj1 (proj_radiusSweep_frame armed_p (psWStats psObj)
                         (splash_centre w armed_p) false w1)) as H2.
    destruct (negb (empRadius up =? 0)); cbn [orb fst snd];
      (split; [eapply same_books_trans; [exact H1 | exact H2] |]);
      cbn; repeat split; left; reflexivity.
Qed.

(** The release step on the counters. *)
Lemma release_expected_damage_counters w p :
  0 <= expectedDamageCaused p <= INT32_MAX ->
  expectedDamageCaused (snd (release_expected_damage w p)) = 0 /\
  psDest (snd (release_expected_damage w p)) = psDest p /\
  p_state (snd (release_expected_damage w p)) = p_state p /\
  forall o, expected_of (fst (release_expected_damage w p)) o
            = expected_of w o - contribution o p.
Proof.
  intros He. unfold release_expected_damage.
  pose proof (setProjectileDestination_expected None w p) as H1.
  destruct (setProjectileDestination None w p) as [w1 p1] eqn:E1.
  assert (Hp1 : p1 = set_psDest None p)
    by (change p1 with (snd (w1, p1)); rewrite <- E1; reflexivity).
  cbn [fst] in H1.
  pose proof (setProjectileDestination_expected (psDest p) w1
                (set_expectedDamageCaused 0 p1)) as H2.
  split; [reflexivity |]. split; [reflexivity |].
  split; [subst p1; reflexivity |].
  intros o. rewrite H2 by (cbn; unfold INT32_MAX; lia). rewrite H1 by exact He.
  subst p1. unfold contribution. cbn.
  destruct (optr_eqb (psDest p) (Some o)); lia.
Qed.

(** The impact always resolves: whatever the projectile and the world
    are, [proj_ImpactFunc] leaves the projectile POSTIMPACT or INACTIVE. *)
Theorem proj_ImpactFunc_resolves (w : World) (psObj : PROJECTILE) :
  p_state (snd (proj_ImpactFunc w psObj)) = PROJ_POSTIMPACT \/
  p_state (snd (proj_ImpactFunc w psObj)) = PROJ_INACTIVE.
Proof.
  unfold proj_ImpactFunc.
  destruct (impact_target_phase w psObj) as [[w1 p1] |]; [| right; reflexivity].
  destruct (release_expected_damage w1 p1) as [w2 p2].
  apply impact_area_effects_frame.
Qed.

Lemma impact_state_after w p :
  p_state (snd (proj_ImpactFunc w p)) = PROJ_POSTIMPACT \/
  p_state (snd (proj_ImpactFunc w p)) = PROJ_INACTIVE.
Proof.
  unfold proj_ImpactFunc.
  destruct (impact_target_phase w p) as [[w1 p1] |]; [| right; reflexivity].
  destruct (release_expected_damage w1 p1) as [w2 p2].
  apply impact_area_effects_frame.
Qed.

(** Unless the destination is a feature that cannot be damaged, the
    impact takes the registration of the projectile off the counters, and
    nothing else: the projectile ends with no expected damage and the same
    destination, every counter is lowered by what the projectile had
    registered on that object, whatever the damage handlers and the area
    effects do. *)
Theorem proj_ImpactFunc_releases (w : World) (psObj : PROJECTILE) :
  0 <= expectedDamageCaused psObj <= INT32_MAX ->
  impact_target_phase w psObj <> None ->
  expectedDamageCaused (snd (proj_ImpactFunc w psObj)) = 0 /\
  psDest (snd (proj_ImpactFunc w psObj)) = psDest psObj /\
  forall o, expected_of (fst (proj_ImpactFunc w psObj)) o
            = expected_of w o - contribution o psObj.
Proof.
  intros He Hphase. unfold proj_ImpactFunc.
  destruct (impact_target_phase w psObj) as [[w1 p1] |] eqn:Ephase; [| contradiction].
  assert (Hframe : same_books w w1 /\ psDest p1 = psDest psObj /\
                   expectedDamageCaused p1 = expectedDamageCaused psObj).
  { unfold impact_target_phase in Ephase.
    destruct (psDest psObj) as [dst |] eqn:Edst.
    - destruct (impact_on_target_frame dst w psObj w1 p1 Ephase) as (Hb & Hd & Hx & _).
      split; [exact Hb | split; [rewrite Hd; exact Edst | exact Hx]].
    - inversion Ephase; subst. split; [apply same_books_refl |]. split; [exact Edst | reflexivity]. }
  destruct Hframe as (Hb1 & Hd1 & He1).
  pose proof (release_expected_damage_counters w1 p1 ltac:(rewrite He1; exact He))
    as (Hz & Hd2 & _ & Hc).
  destruct (release_expected_damage w1 p1) as [w2 p2]. cbn [fst snd] in *.
  pose proof (impact_area_effects_frame w2 p2) as (Hb3 & Hd3 & He3 & _).
  split; [congruence |]. split; [congruence |].
  intros o. rewrite (same_books_expected _ _ o Hb3), Hc, (same_books_expected _ _ o Hb1).
  unfold contribution. rewrite Hd1, He1. reflexivity.
Qed.

(** *** The lifecycle of a projectile *)

(** The order of the lifecycle states. *)
Definition rank (s : PROJ_STATE) : nat :=
  match s with
  | PROJ_INFLIGHT => 0
  | PROJ_IMPACT => 1
  | PROJ_POSTIMPACT => 2
  | PROJ_INACTIVE => 3
  end.

Lemma move_projectile_died w p t : p_died (fst (move_projectile w p t)) = p_died p.
Proof.
  unfold move_projectile. destruct (movementModel (psWStats p)); cbn [fst]; try reflexivity;
    destruct (homingStep X (objects w) (gameTime w) p) as [[dst pos] rot]; reflexivity.
Qed.

Lemma inflight_hit_died w p sc cd :
  p_died (snd (fst (inflight_hit w p sc cd))) = p_died p.
Proof.
  unfold inflight_hit. cbv zeta.
  match goal with |- context [if ?c then set_prevSpacetime ?s ?q else ?q] =>
    set (p2 := if c then set_prevSpacetime s q else q);
    assert (Hd2 : p_died p2 = p_died p) by (unfold p2; destruct c; reflexivity)
  end.
  unfold setProjectileDestination. cbv zeta.
  destruct (closestCollisionObject sc) as [hit |]; [| cbn; exact Hd2].
  match goal with |- context [if ?c then _ else _] => destruct c end; [| cbn; exact Hd2].
  match goal with |- context [proj_SendProjectileInternal ?a ?b ?c ?d ?e ?f ?g ?h] =>
    destruct (proj_SendProjectileInternal a b c d e f g h) as [w4 sp] end.
  cbn. exact Hd2.
Qed.

(** One step of flight keeps the projectile alive, and leaves its state
    alone or moves it to IMPACT. *)
Lemma proj_InFlightFunc_lifecycle w p :
  p_died (snd (fst (proj_InFlightFunc w p))) = p_died p /\
  (p_state (snd (fst (proj_InFlightFunc w p))) = p_state p \/
   p_state (snd (fst (proj_InFlightFunc w p))) = PROJ_IMPACT).
Proof.
  unfold proj_InFlightFunc. cbv zeta.
  destruct (las_sat_waiting w (set_time (gameTime w) p) (time_so_far w p));
    [split; [reflexivity | left; reflexivity] |].
  pose proof (move_projectile_frame w (set_time (gameTime w) p) (time_so_far w p)) as Hf.
  pose proof (move_projectile_died w (set_time (gameTime w) p) (time_so_far w p)) as Hd.
  cbv zeta in Hf.
  destruct (move_projectile w (set_time (gameTime w) p) (time_so_far w p)) as [pm cd].
  cbn [fst] in Hf, Hd. destruct Hf as (_ & _ & _ & _ & Hst & _).
  destruct (collision_found (flight_scan w pm)).
  - split.
    + rewrite inflight_hit_died. exact Hd.
    + right. apply (inflight_hit_frame w pm (flight_scan w pm) cd).
  - destruct (range_exceeded pm cd); cbn.
    + split; [exact Hd | right; reflexivity].
    + split; [exact Hd | left; exact Hst].
Qed.

Lemma proj_ImpactFunc_died w p : p_died (snd (proj_ImpactFunc w p)) = p_died p.
Proof.
  unfold proj_ImpactFunc.
  destruct (impact_target_phase w p) as [[w1 p1] |] eqn:Ephase; [| reflexivity].
  assert (Hd1 : p_died p1 = p_died p).
  { unfold impact_target_phase in Ephase. destruct (psDest p) as [dst |].
    - unfold impact_on_target in Ephase. cbv zeta in Ephase.
      destruct (objects w !! dst) as [target |]; [| inversion Ephase; reflexivity].
      destruct (OBJECT_TYPE_eqb (o_type target) OBJ_FEATURE && negb (o_damageable target));
        [discriminate |].
      repeat match type of Ephase with
             | context [match ?x with _ => _ end] => destruct x
             end; inversion Ephase; reflexivity.
    - inversion Ephase; reflexivity. }
  unfold release_expected_damage, setProjectileDestination. cbv zeta. cbn [fst snd].
  unfold impact_area_effects. cbv zeta.
  repeat match goal with |- context [if ?c then _ else _] => destruct c end;
    cbn; exact Hd1.
Qed.

Lemma proj_PostImpactFunc_lifecycle w p :
  p_died (snd (proj_PostImpactFunc w p)) = p_died p /\
  (p_state (snd (proj_PostImpactFunc w p)) = p_state p \/
   p_state (snd (proj_PostImpactFunc w p)) = PROJ_INACTIVE).
Proof.
  unfold proj_PostImpactFunc. cbv zeta.
  repeat match goal with |- context [if ?c then _ else _] => destruct c end;
    cbn; split; auto.
Qed.

Lemma drop_dead_references_frame w p :
  let p' := snd (drop_dead_references w p) in
  p_state p' = p_state p /\ p_died p' = p_died p /\ p_pos p' = p_pos p /\
  p_time p' = p_time p.
Proof.
  unfold drop_dead_references. cbv zeta.
  destruct (psSource p) as [s |]; [destruct (obj_died w s) |];
    (match goal with |- context [match psDest ?q with _ => _ end] =>
       destruct (psDest q) as [d |]; [destruct (obj_died w d) |] end);
    cbn; repeat split.
Qed.

(** The lifecycle only advances.  One update never moves a projectile
    back to an earlier state; it returns a spawned projectile only for a
    projectile that was in flight; and it sets the time of death only of
    a projectile that is off the map (to 1) or INACTIVE (to the time of
    the projectile). *)
Theorem update_lifecycle (w : World) (psObj : PROJECTILE) :
  (rank (p_state psObj) <= rank (p_state (snd (fst (update w psObj)))))%nat /\
  (snd (update w psObj) <> None -> p_state psObj = PROJ_INFLIGHT) /\
  (worldOnMap X (vx (p_pos psObj)) (vy (p_pos psObj)) = false ->
     p_died (snd (fst (update w psObj))) = 1 /\
     p_state (snd (fst (update w psObj))) = p_state psObj) /\
  (worldOnMap X (vx (p_pos psObj)) (vy (p_pos psObj)) = true ->
     (p_state psObj = PROJ_INACTIVE ->
        p_died (snd (fst (update w psObj))) = p_time psObj) /\
     (p_state psObj <> PROJ_INACTIVE ->
        p_died (snd (fst (update w psObj))) = p_died psObj)).
Proof.
  unfold update. cbv zeta.
  pose proof (drop_dead_references_frame w (set_prevSpacetime (getSpacetime psObj) psObj))
    as Hf.
  cbv zeta in Hf.
  destruct (drop_dead_references w (set_prevSpacetime (getSpacetime psObj) psObj))
    as [w1 p1].
  cbn [snd] in Hf. destruct Hf as (Hst & Hdied & Hpos & Htime).
  cbn [p_state p_died p_pos p_time set_prevSpacetime] in Hst, Hdied, Hpos, Htime.
  rewrite Hpos.
  destruct (worldOnMap X (vx (p_pos psObj)) (vy (p_pos psObj))); cbn [negb].
  - (* on the map *)
    assert (Hstate :
      (rank (p_state p1) <= rank (p_state (snd (fst (update_state w1 p1)))))%nat /\
      (snd (update_state w1 p1) <> None -> p_state p1 = PROJ_INFLIGHT) /\
      (p_state p1 = PROJ_INACTIVE -> p_died (snd (fst (update_state w1 p1))) = p_time p1) /\
      (p_state p1 <> PROJ_INACTIVE -> p_died (snd (fst (update_state w1 p1))) = p_died p1)).
    { unfold update_state. cbv zeta.
      destruct (p_state p1) eqn:Es.
      - (* in flight *)
        pose proof (proj_InFlightFunc_lifecycle w1 p1) as (Hd & Hs).
        destruct (proj_InFlightFunc w1 p1) as [[w2 p2] sp]. cbn [fst snd] in Hd, Hs.
        rewrite Es in Hs.
        destruct (PROJ_STATE_eqb (p_state p2) PROJ_IMPACT) eqn:Ei.
        + pose proof (impact_state_after w2 p2) as Hr.
          pose proof (proj_ImpactFunc_died w2 p2) as Hd3.
          destruct (proj_ImpactFunc w2 p2) as [w3 p3]. cbn [snd] in Hr, Hd3.
          pose proof (proj_PostImpactFunc_lifecycle w3 p3) as (Hd4 & Hs4).
          destruct (PROJ_STATE_eqb (p_state p3) PROJ_POSTIMPACT);
            cbn [fst snd];
            (split; [| split; [intros _; reflexivity | split; [discriminate |]]]).
          * destruct Hs4 as [-> | ->]; [destruct Hr as [-> | ->] |]; cbn; lia.
          * intros _. congruence.
          * destruct Hr as [-> | ->]; cbn; lia.
          * intros _. congruence.
        + cbn [fst snd].
          split; [destruct Hs as [-> | ->]; cbn; lia |].
          split; [intros _; reflexivity |]. split; [discriminate | intros _; exact Hd].
      - (* impact *)
        pose proof (impact_state_after w1 p1) as Hr.
        pose proof (proj_ImpactFunc_died w1 p1) as Hd3.
        destruct (proj_ImpactFunc w1 p1) as [w3 p3]. cbn [snd] in Hr, Hd3.
        pose proof (proj_PostImpactFunc_lifecycle w3 p3) as (Hd4 & Hs4).
        destruct (PROJ_STATE_eqb (p_state p3) PROJ_POSTIMPACT); cbn [fst snd];
          (split; [| split; [intros H; contradiction | split; [discriminate |]]]).
        + destruct Hs4 as [-> | ->]; [destruct Hr as [-> | ->] |]; cbn; lia.
        + intros _. congruence.
        + destruct Hr as [-> | ->]; cbn; lia.
        + intros _. exact Hd3.
      - (* post impact *)
        pose proof (proj_PostImpactFunc_lifecycle w1 p1) as (Hd4 & Hs4).
        rewrite Es in Hs4. cbn [fst snd].
        split; [destruct Hs4 as [-> | ->]; cbn; lia |].
        split; [intros H; contradiction |]. split; [discriminate | intros _; exact Hd4].
      - (* inactive *)
        cbn [fst snd]. split; [cbn; rewrite Es; cbn; lia |].
        split; [intros H; contradiction |]. split; [intros _; reflexivity | contradiction]. }
    rewrite Hst, Hdied, Htime in Hstate.
    destruct Hstate as (H1 & H2 & H3 & H4).
    split; [exact H1 |]. split; [exact H2 |]. split; [discriminate |].
    intros _. split; assumption.
  - (* off the map *)
    cbn [fst snd p_state p_died set_died].
    split; [rewrite Hst; lia |]. split; [intros H; contradiction |].
    split; [intros _; split; [reflexivity | exact Hst] | discriminate].
Qed.

(** *** Further properties of the flight *)

Lemma vector_eta (v : Vector3i) : mkVector3i (vx v) (vy v) (vz v) = v.
Proof. destruct v; reflexivity. Qed.

(** The straight line of a direct weapon passes through its two ends: a
    projectile that has covered no distance is at its source, and one that
    has covered exactly the horizontal distance to the aim point is at the
    aim point. *)
Theorem direct_flight_endpoints (w : World) (psProj : PROJECTILE) (timeSoFar : Z) :
  movementModel (psWStats psProj) = MM_DIRECT ->
  is_LAS_SAT (weaponSubClass (psWStats psProj)) = false ->
  vec_in_limit (p_src psProj) -> vec_in_limit (p_dst psProj) ->
  let delta := vsub (p_dst psProj) (p_src psProj) in
  let targetDistance := Z.max (iHypot X (vx delta) (vy delta)) 1 in
  targetDistance <= 65535 ->
  (snd (move_projectile w psProj timeSoFar) = 0 ->
     p_pos (fst (move_projectile w psProj timeSoFar)) = p_src psProj) /\
  (snd (move_projectile w psProj timeSoFar) = targetDistance ->
     p_pos (fst (move_projectile w psProj timeSoFar)) = p_dst psProj).
Proof.
  intros Hmodel Hlas (Hsx & Hsy & Hsz) (Hdx & Hdy & Hdz) delta td Htd.
  unfold in_limit, LIMIT in *.
  unfold move_projectile. rewrite Hmodel, Hlas. cbv zeta. cbn [fst snd p_pos set_pos].
  fold delta. fold td.
  assert (Hdelta : delta = mkVector3i (vx (p_dst psProj) - vx (p_src psProj))
                                      (vy (p_dst psProj) - vy (p_src psProj))
                                      (vz (p_dst psProj) - vz (p_src psProj))).
  { unfold delta, vsub.
    rewrite !int32_small by (unfold INT32_MIN, INT32_MAX; lia). reflexivity. }
  assert (Htd1 : 1 <= td) by (unfold td; lia).
  split; intros Hcd; rewrite Hcd.
  - unfold vscale, vdiv, vadd. cbn [vx vy vz]. rewrite !Z.mul_0_r.
    change (int32 0) with 0. unfold cdiv. rewrite Z.quot_0_l by lia.
    rewrite !Z.add_0_r.
    rewrite !int32_small by (unfold INT32_MIN, INT32_MAX; lia). apply vector_eta.
  - rewrite Hdelta. unfold vscale, vdiv, vadd. cbn [vx vy vz].
    assert (Hexact : forall d, - 32768 <= d <= 32768 -> cdiv (int32 (d * td)) td = d).
    { intros d Hd.
      assert (- (32768 * 65535) <= d * td <= 32768 * 65535)
        by (apply product_bound; lia).
      rewrite int32_small by (unfold INT32_MIN, INT32_MAX; lia).
      unfold cdiv. apply Z.quot_mul. lia. }
    rewrite !Hexact by lia.
    rewrite !int32_small by (unfold INT32_MIN, INT32_MAX; lia).
    replace (vx (p_src psProj) + (vx (p_dst psProj) - vx (p_src psProj)))
      with (vx (p_dst psProj)) by lia.
    replace (vy (p_src psProj) + (vy (p_dst psProj) - vy (p_src psProj)))
      with (vy (p_dst psProj)) by lia.
    replace (vz (p_src psProj) + (vz (p_dst psProj) - vz (p_src psProj)))
      with (vz (p_dst psProj)) by lia.
    apply vector_eta.
Qed.

Lemma uint32_pred_neq (t : Z) : uint32 (t - 1) <> t.
Proof.
  unfold uint32. intros H.
  pose proof (Z.mod_pos_bound (t - 1) (2 ^ 32) ltac:(lia)) as Hb.
  destruct (Z.eq_dec t 0) as [-> | Hne].
  - cbn in H. discriminate H.
  - rewrite Z.mod_small in H by lia. lia.
Qed.

(** The two time samples of a projectile that hit something differ, so
    that an interpolation between them never spans no time, and the time of
    the hit is not before the first instant of the tick; the same holds of
    the samples of a projectile spawned by penetration. *)
Theorem hit_times_differ (w : World) (psProj : PROJECTILE) :
  (las_sat_waiting w (set_time (gameTime w) psProj) (time_so_far w psProj) = false ->
   collision_found (flight_scan w (moved_projectile w psProj)) = true ->
   p_time (snd (fst (proj_InFlightFunc w psProj)))
     <> st_time (p_prevSpacetime (snd (fst (proj_InFlightFunc w psProj)))) /\
   uint32 (gameTime w - deltaGameTime w + 1)
     <= p_time (snd (fst (proj_InFlightFunc w psProj)))) /\
  (forall psStats player target bVisible slot w' child,
     proj_SendProjectileInternal psStats (AttackerProjectile psProj) player target None
       bVisible slot w = (w', Some child) ->
     p_time child <> st_time (p_prevSpacetime child)).
Proof.
  split.
  - intros Hlas Hfound. unfold proj_InFlightFunc. cbv zeta. rewrite Hlas.
    unfold moved_projectile in Hfound.
    destruct (move_projectile w (set_time (gameTime w) psProj) (time_so_far w psProj))
      as [pm cd]. cbn [fst] in Hfound. rewrite Hfound.
    unfold inflight_hit. cbv zeta.
    set (p1 := set_time _ (setSpacetime _ pm)).
    assert (Hlow : uint32 (gameTime w - deltaGameTime w + 1) <= p_time p1)
      by (unfold p1; cbn [p_time set_time]; lia).
    set (p2 := if p_time p1 =? st_time (p_prevSpacetime p1) then _ else p1).
    assert (Hp2 : p_time p2 = p_time p1 /\ p_time p2 <> st_time (p_prevSpacetime p2)).
    { unfold p2. destruct (Z.eqb_spec (p_time p1) (st_time (p_prevSpacetime p1))) as [E | E].
      - cbn [p_time set_prevSpacetime p_prevSpacetime st_time]. split; [reflexivity |].
        rewrite E. intros H. symmetry in H. exact (uint32_pred_neq _ H).
      - split; [reflexivity | exact E]. }
    destruct Hp2 as [Ht2 Hne2].
    unfold setProjectileDestination. cbv zeta.
    assert (Hfinal : forall q w0 sp,
              p_time q = p_time p2 -> p_prevSpacetime q = p_prevSpacetime p2 ->
              p_time (snd (fst (w0 : World, set_state PROJ_IMPACT q, sp : option PROJECTILE)))
                <> st_time (p_prevSpacetime
                     (snd (fst (w0, set_state PROJ_IMPACT q, sp)))) /\
              uint32 (gameTime w - deltaGameTime w + 1)
                <= p_time (snd (fst (w0, set_state PROJ_IMPACT q, sp)))).
    { intros q w0 sp Hq1 Hq2. cbn [fst snd p_time p_prevSpacetime set_state].
      rewrite Hq1, Hq2. split; [exact Hne2 | lia]. }
    destruct (closestCollisionObject (flight_scan w pm)) as [hit |];
      [| apply Hfinal; reflexivity].
    match goal with |- context [if ?c then _ else _] => destruct c end;
      [| apply Hfinal; reflexivity].
    match goal with |- context [proj_SendProjectileInternal ?a ?b ?c ?d ?e ?f ?g ?h] =>
      destruct (proj_SendProjectileInternal a b c d e f g h) as [w4 sp] end.
    apply Hfinal; reflexivity.
  - intros psStats player target bVisible slot w' child.
    unfold proj_SendProjectileInternal, proj_SendProjectileAngledInternal.
    cbv zeta. cbn [setProjectileDestination muzzle].
    unfold setProjectileDestination. cbn [psDest set_psDest aiObjectAddExpectedDamage].
    assert (Hne : forall prev now : Z,
              now <> (if prev =? now then uint32 (prev - 1) else prev)).
    { intros prev now. destruct (Z.eqb_spec prev now) as [-> | E].
      - intros H. symmetry in H. exact (uint32_pred_neq _ H).
      - intros H. apply E. symmetry. exact H. }
    destruct (proj_Direct psStats).
    + match goal with |- context [if ?c then _ else _] => destruct c end;
        intros H; inversion H; subst; cbn; apply Hne.
    + destruct (gameRand X _ 10001) as [draw seed].
      match goal with |- context [if ?c then _ else _] => destruct c end;
        intros H; inversion H; subst; cbn; apply Hne.
Qed.

(** The time at which the object [a] would be hit this tick, if the scan
    tests it and the swept test reports a collision (lines 870-909). *)
Definition collision_time (w : World) (psProj : PROJECTILE) (a : ptr) : option Z :=
  match objects w !! a with
  | None => None
  | Some o =>
      if scan_skips psProj a o then None
      else
        let psTempObjPrevPos :=
          if OBJECT_TYPE_eqb (o_type o) OBJ_DROID then o_prevPos o else o_pos o in
        let diff := vsub (p_pos psProj) (o_pos o) in
        let prevDiff := vsub (st_pos (p_prevSpacetime psProj)) psTempObjPrevPos in
        let targetHeight := uint32 (establishTargetHeight w (Some a)) in
        let targetShape := establishTargetShape X (objects w) a in
        let collision := collisionXYZ prevDiff diff targetShape (int32 targetHeight) in
        let prevTime := st_time (p_prevSpacetime psProj) in
        if collision >=? 0
        then Some (uint32 (prevTime
                           + uint32 (uint32 (p_time psProj - prevTime) * uint32 collision)
                             / 1024))
        else None
  end.

(** The invariant of the scan: the time kept is at most the no-collision
    mark and at most the time of every candidate seen; the object kept is a
    candidate seen, with that time, and every candidate seen before it
    collides strictly later; without an object the time is the mark. *)
Definition scan_earliest (w : World) (psProj : PROJECTILE) (seen : list ptr) (sc : Scan)
  : Prop :=
  st_time (closestCollisionSpacetime sc) <= NO_COLLISION_TIME /\
  (forall a t, In a seen -> collision_time w psProj a = Some t ->
               st_time (closestCollisionSpacetime sc) <= t) /\
  (forall hit, closestCollisionObject sc = Some hit ->
               collision_time w psProj hit = Some (st_time (closestCollisionSpacetime sc)) /\
               st_time (closestCollisionSpacetime sc) < NO_COLLISION_TIME /\
               exists before after,
                 seen = before ++ hit :: after /\
                 forall b t, In b before -> collision_time w psProj b = Some t ->
                             st_time (closestCollisionSpacetime sc) < t) /\
  (closestCollisionObject sc = None ->
     st_time (closestCollisionSpacetime sc) = NO_COLLISION_TIME).

Lemma scan_body_closest w psProj sc a :
  (closestCollisionObject (scan_body w psProj sc a),
   closestCollisionSpacetime (scan_body w psProj sc a))
  = match collision_time w psProj a with
    | Some ct =>
        if ct <? st_time (closestCollisionSpacetime sc)
        then (Some a, interpolateObjectSpacetime psProj ct)
        else (closestCollisionObject sc, closestCollisionSpacetime sc)
    | None => (closestCollisionObject sc, closestCollisionSpacetime sc)
    end.
Proof.
  unfold scan_body, collision_time.
  destruct (objects w !! a) as [o |]; [| reflexivity].
  destruct (scan_skips psProj a o); [reflexivity |].
  cbv zeta.
  match goal with |- context [?c >=? 0] => destruct (c >=? 0) end; cbn [andb];
    [| reflexivity].
  match goal with |- context [?x <? ?y] => destruct (x <? y) end; reflexivity.
Qed.

Lemma scan_body_earliest w psProj seen sc a :
  scan_earliest w psProj seen sc ->
  scan_earliest w psProj (seen ++ [a]) (scan_body w psProj sc a).
Proof.
  intros (Hmax & Hmin & Hobj & Hnone).
  pose proof (scan_body_closest w psProj sc a) as Hstep.
  assert (Hkeep : forall hit,
            closestCollisionObject sc = Some hit ->
            collision_time w psProj hit = Some (st_time (closestCollisionSpacetime sc)) /\
            st_time (closestCollisionSpacetime sc) < NO_COLLISION_TIME /\
            exists before after,
              seen ++ [a] = before ++ hit :: after /\
              forall b t, In b before -> collision_time w psProj b = Some t ->
                          st_time (closestCollisionSpacetime sc) < t).
  { intros hit Hh. destruct (Hobj hit Hh) as (Ht & Hlt & before & after & Hsplit & Hfirst).
    split; [exact Ht |]. split; [exact Hlt |].
    exists before, (after ++ [a]). split; [| exact Hfirst].
    rewrite Hsplit, <- app_assoc. reflexivity. }
  unfold scan_earliest.
  destruct (collision_time w psProj a) as [ct |] eqn:Ect.
  - destruct (Z.ltb_spec ct (st_time (closestCollisionSpacetime sc))) as [Hlt | Hge];
      inversion Hstep as [[Ho Hs]]; rewrite Ho, Hs.
    + cbn [interpolateObjectSpacetime st_time].
      split; [lia |]. split; [| split; [| discriminate]].
      * intros b t Hb Ht. apply in_app_or in Hb. destruct Hb as [Hb | [<- | []]].
        -- pose proof (Hmin b t Hb Ht). lia.
        -- rewrite Ect in Ht. inversion Ht. lia.
      * intros hit Hh. inversion Hh; subst hit.
        split; [exact Ect |]. split; [lia |].
        exists seen, []. split; [reflexivity |].
        intros b t Hb Ht. pose proof (Hmin b t Hb Ht). lia.
    + split; [exact Hmax |]. split; [| split; [exact Hkeep | exact Hnone]].
      intros b t Hb Ht. apply in_app_or in Hb. destruct Hb as [Hb | [<- | []]].
      * exact (Hmin b t Hb Ht).
      * rewrite Ect in Ht. inversion Ht. lia.
  - inversion Hstep as [[Ho Hs]]. rewrite Ho, Hs.
    split; [exact Hmax |]. split; [| split; [exact Hkeep | exact Hnone]].
    intros b t Hb Ht. apply in_app_or in Hb. destruct Hb as [Hb | [<- | []]].
    + exact (Hmin b t Hb Ht).
    + congruence.
Qed.

Lemma scan_fold_earliest w psProj l :
  forall seen sc,
    scan_earliest w psProj seen sc ->
    scan_earliest w psProj (seen ++ l) (fold_left (scan_body w psProj) l sc).
Proof.
  induction l as [| a l IH]; intros seen sc H; cbn [fold_left].
  - rewrite app_nil_r. exact H.
  - replace (seen ++ a :: l) with ((seen ++ [a]) ++ l) by (rewrite <- app_assoc; reflexivity).
    apply IH, scan_body_earliest, H.
Qed.

(** The scan reports the earliest collision, and ties have a winner.
    - The time kept is at most the collision time of every nearby object
      that the scan tests and that collides.
    - An object kept is a nearby object, collides at the time kept, and is
      the first in the order of the grid among those that collide that
      early: every object listed before it collides strictly later.
    - The terrain is reported (no object, the time of the terrain hit) only
      if the terrain is hit strictly earlier than every object; an object
      that collides no later than the terrain is hit, or when the terrain
      is not hit at all, keeps an object in the result.
    - When no collision is found, no nearby object has a collision time
      below the no-collision mark. *)
Theorem scan_reports_earliest (w : World) (psProj : PROJECTILE) :
  let nearby := gridStartIterate X (objects w) (vx (p_pos psProj)) (vy (p_pos psProj))
                  (TILE_UNITS X * 4) in
  let terrain := map_LineIntersect X (st_pos (p_prevSpacetime psProj)) (p_pos psProj)
                   (uint32 (p_time psProj - st_time (p_prevSpacetime psProj))) in
  let terrainTime := uint32 (st_time (p_prevSpacetime psProj) + terrain) in
  let sc := flight_scan w psProj in
  (forall a t, In a nearby -> collision_time w psProj a = Some t ->
               st_time (closestCollisionSpacetime sc) <= t) /\
  (forall hit, closestCollisionObject sc = Some hit ->
               collision_time w psProj hit = Some (st_time (closestCollisionSpacetime sc)) /\
               exists before after,
                 nearby = before ++ hit :: after /\
                 forall b t, In b before -> collision_time w psProj b = Some t ->
                             st_time (closestCollisionSpacetime sc) < t) /\
  (terrain <> NO_COLLISION_TIME ->
     st_time (closestCollisionSpacetime sc) <= terrainTime) /\
  (closestCollisionObject sc = None -> collision_found sc = true ->
     terrain <> NO_COLLISION_TIME /\
     st_time (closestCollisionSpacetime sc) = terrainTime /\
     forall a t, In a nearby -> collision_time w psProj a = Some t -> terrainTime < t) /\
  (forall a t, In a nearby -> collision_time w psProj a = Some t ->
     t < NO_COLLISION_TIME ->
     terrain = NO_COLLISION_TIME \/ t <= terrainTime ->
     closestCollisionObject sc <> None) /\
  (collision_found sc = false ->
     forall a t, In a nearby -> collision_time w psProj a = Some t -> NO_COLLISION_TIME <= t).
Proof.
  cbv zeta.
  pose proof (scan_fold_earliest w psProj
                (gridStartIterate X (objects w) (vx (p_pos psProj)) (vy (p_pos psProj))
                   (TILE_UNITS X * 4)) []
                (mkScan None (mkSpacetime NO_COLLISION_TIME (mkVector3i 0 0 0)
                                (mkRotation 0 0 0)) [])) as Hinv.
  cbn [app] in Hinv. fold (scan_objects w psProj) in Hinv.
  destruct Hinv as (Hmax & Hmin & Hobj & Hnone).
  { unfold scan_earliest. cbn. split; [lia |]. split; [intros a t [] |].
    split; [discriminate | reflexivity]. }
  assert (Hobj' : forall hit,
            closestCollisionObject (scan_objects w psProj) = Some hit ->
            collision_time w psProj hit
              = Some (st_time (closestCollisionSpacetime (scan_objects w psProj))) /\
            exists before after,
              gridStartIterate X (objects w) (vx (p_pos psProj)) (vy (p_pos psProj))
                (TILE_UNITS X * 4) = before ++ hit :: after /\
              forall b t, In b before -> collision_time w psProj b = Some t ->
                          st_time (closestCollisionSpacetime (scan_objects w psProj)) < t).
  { intros hit Hh. destruct (Hobj hit Hh) as (Ht & _ & Hrest). split; assumption. }
  assert (Hsome : forall a t,
            In a (gridStartIterate X (objects w) (vx (p_pos psProj)) (vy (p_pos psProj))
                    (TILE_UNITS X * 4)) ->
            collision_time w psProj a = Some t -> t < NO_COLLISION_TIME ->
            closestCollisionObject (scan_objects w psProj) <> None).
  { intros a t Ha Ht Hlt Hn. pose proof (Hmin a t Ha Ht). rewrite (Hnone Hn) in *. lia. }
  unfold flight_scan, scan_terrain, collision_found.
  set (so := scan_objects w psProj) in *.
  set (terrain := map_LineIntersect X _ _ _).
  destruct (Z.eqb_spec terrain NO_COLLISION_TIME) as [Et | Et]; cbn [negb].
  - split; [exact Hmin |]. split; [exact Hobj' |]. split; [contradiction |].
    split; [| split].
    + intros Hn Hf. rewrite (Hnone Hn) in Hf. discriminate Hf.
    + intros a t Ha Ht Hlt _. exact (Hsome a t Ha Ht Hlt).
    + intros Hnf. apply negb_false_iff in Hnf. apply Z.eqb_eq in Hnf.
      intros a t Ha Ht. pose proof (Hmin a t Ha Ht). lia.
  - set (ct := uint32 (st_time (p_prevSpacetime psProj) + terrain)).
    destruct (Z.ltb_spec ct (st_time (closestCollisionSpacetime so))) as [Hlt | Hge];
      cbn [closestCollisionObject closestCollisionSpacetime interpolateObjectSpacetime
           st_time].
    + split; [intros a t Ha Ht; pose proof (Hmin a t Ha Ht); lia |].
      split; [discriminate |]. split; [intros _; lia |].
      split; [| split].
      * intros _ _. split; [exact Et |]. split; [reflexivity |].
        intros a t Ha Ht. pose proof (Hmin a t Ha Ht). lia.
      * intros a t Ha Ht Hlt' [Hc | Hc]; [contradiction |].
        pose proof (Hmin a t Ha Ht). lia.
      * intros Hnf. apply negb_false_iff in Hnf. apply Z.eqb_eq in Hnf.
        intros a t Ha Ht. pose proof (Hmin a t Ha Ht). lia.
    + split; [exact Hmin |]. split; [exact Hobj' |]. split; [intros _; exact Hge |].
      split; [| split].
      * intros Hn Hf. rewrite (Hnone Hn) in Hf. discriminate Hf.
      * intros a t Ha Ht Hlt' _. exact (Hsome a t Ha Ht Hlt').
      * intros Hnf. apply negb_false_iff in Hnf. apply Z.eqb_eq in Hnf.
        intros a t Ha Ht. pose proof (Hmin a t Ha Ht). lia.
Qed.

(** What [update] does first: the references to objects that have died
    are dropped.  Afterwards neither the source nor the destination has
    died, no object of the damaged-list is dead, the damaged-list is the
    old one without the dead objects, and the registration of the
    projectile has left the counter of a destination that died. *)
Theorem drop_dead_references_spec (w : World) (psObj : PROJECTILE) :
  0 <= expectedDamageCaused psObj <= INT32_MAX ->
  let w' := fst (drop_dead_references w psObj) in
  let p' := snd (drop_dead_references w psObj) in
  objects w' = objects w /\
  (forall s, psSource p' = Some s -> psSource psObj = Some s /\ obj_died w s = false) /\
  (forall d, psDest p' = Some d -> psDest psObj = Some d /\ obj_died w d = false) /\
  psDamaged p' = List.filter (fun a => negb (is_dead w a)) (psDamaged psObj) /\
  (forall a, In a (psDamaged p') -> is_dead w a = false) /\
  (forall o, expected_of w' o = expected_of w o - contribution o psObj + contribution o p').
Proof.
  intros He. cbv zeta. unfold drop_dead_references. cbv zeta.
  set (p1 := match psSource psObj with
             | Some s => if obj_died w s then set_psSource None psObj else psObj
             | None => psObj
             end).
  assert (H1 : psDest p1 = psDest psObj /\ psDamaged p1 = psDamaged psObj /\
               expectedDamageCaused p1 = expectedDamageCaused psObj /\
               (forall s, psSource p1 = Some s ->
                          psSource psObj = Some s /\ obj_died w s = false)).
  { unfold p1. destruct (psSource psObj) as [s |] eqn:Es.
    - destruct (obj_died w s) eqn:Ed.
      + cbn. split; [reflexivity |]. split; [reflexivity |]. split; [reflexivity |].
        intros s' Hs'. discriminate Hs'.
      + split; [reflexivity |]. split; [reflexivity |]. split; [reflexivity |].
        intros s' Hs'. assert (s' = s) by congruence. subst s'.
        split; [reflexivity | exact Ed].
    - split; [reflexivity |]. split; [reflexivity |]. split; [reflexivity |].
      intros s' Hs'. congruence. }
  destruct H1 as (Hd1 & Hdam1 & He1 & Hs1).
  pose proof (setProjectileDestination_expected None w p1) as Hexp.
  pose proof (setProjectileDestination_objects None w p1) as Hobjs.
  assert (Hcontr : forall o, contribution o p1 = contribution o psObj)
    by (intros o; unfold contribution; rewrite Hd1, He1; reflexivity).
  destruct (psDest p1) as [d |] eqn:Ed1.
  - destruct (obj_died w d) eqn:Edied.
    + destruct (setProjectileDestination None w p1) as [w2 p2] eqn:E2.
      assert (Hp2 : p2 = set_psDest None p1)
        by (change p2 with (snd (w2, p2)); rewrite <- E2; reflexivity).
      cbn [fst snd] in *. subst p2.
      assert (Hdead : forall a, negb (is_dead w2 a) = negb (is_dead w a))
        by (intros a; unfold is_dead; rewrite Hobjs; reflexivity).
      split; [exact Hobjs |]. split; [exact Hs1 |]. split; [discriminate |].
      split; [cbn; rewrite Hdam1; apply List.filter_ext; exact Hdead |].
      split; [cbn; intros a Ha; apply filter_In in Ha; destruct Ha as [_ Ha];
              rewrite Hdead in Ha; apply negb_true_iff in Ha; exact Ha |].
      intros o. rewrite Hexp by (rewrite He1; exact He). rewrite Hcontr.
      unfold contribution. cbn. reflexivity.
    + cbn [fst snd].
      split; [reflexivity |]. split; [exact Hs1 |].
      split; [cbn; rewrite Ed1; intros d' Hd'; inversion Hd'; subst;
              split; [symmetry; exact Hd1 | exact Edied] |].
      split; [cbn; rewrite Hdam1; reflexivity |].
      split; [cbn; intros a Ha; apply filter_In in Ha; destruct Ha as [_ Ha];
              apply negb_true_iff in Ha; exact Ha |].
      intros o. rewrite <- Hcontr. unfold contribution. cbn. lia.
  - cbn [fst snd].
    split; [reflexivity |]. split; [exact Hs1 |].
    split; [cbn; rewrite Ed1; discriminate |].
    split; [cbn; rewrite Hdam1; reflexivity |].
    split; [cbn; intros a Ha; apply filter_In in Ha; destruct Ha as [_ Ha];
            apply negb_true_iff in Ha; exact Ha |].
    intros o. rewrite <- Hcontr. unfold contribution. cbn. lia.
Qed.

(** *** Further properties of firing *)

(** The part of the target that can be aimed at: [minHeight] of line 522. *)
Definition aim_minHeight (w : World) (psAttacker : Attacker) (t : ptr) (weapon_slot : Z) : Z :=
  let maxHeight := establishTargetHeight w (Some t) in
  Z.min (Z.max (int32 (maxHeight + 2 * LINE_OF_FIRE_MINIMUM X
                       - areaOfFire X (objects w) psAttacker t weapon_slot)) 0)
        maxHeight.

(** The random part of the aim height (line 525). *)
Definition aim_draw (w : World) (psAttacker : Attacker) (t : ptr) (weapon_slot : Z) : Z :=
  fst (gameRand X (randState w)
         (Z.max (int32 (establishTargetHeight w (Some t)
                        - aim_minHeight w psAttacker t weapon_slot)) 1)).

Ltac fire_side :=
  intros;
  try match goal with H : Some _ = Some _ |- _ => inversion H; subst end;
  try discriminate; reflexivity.

(** What a successful call of the firing function returns. *)
Lemma fire_result psStats psAttacker player target psTarget bVisible slot min_angle fireTime w :
  match psTarget with Some t => obj_died w t | None => false end = false ->
  exists w' p,
    proj_SendProjectileAngledInternal psStats psAttacker player target psTarget bVisible
      slot min_angle fireTime w = (w', Some p) /\
    p_state p = PROJ_INFLIGHT /\ p_died p = 0 /\ p_player p = player /\
    psWStats p = psStats /\ psDest p = psTarget /\
    p_id p = uint32 (ProjectileTrackerID + uint32 (projectileTrackerIDIncrement w + 1)) /\
    projectileTrackerIDIncrement w' = uint32 (projectileTrackerIDIncrement w + 1) /\
    objects w' = objects w /\ gameTime w' = gameTime w /\ damageLog w' = damageLog w /\
    expectedDamageCaused p = objGuessFutureDamage X (objects w) psStats player psTarget /\
    expectedDamage w'
      = expectedDamage
          (aiObjectAddExpectedDamage psTarget
             (int32 (objGuessFutureDamage X (objects w) psStats player psTarget))
             (proj_Direct psStats) w) /\
    p_dst p
      = match psTarget with
        | Some t =>
            set_vz (int32 (match objects w !! t with Some o => vz (o_pos o) | None => 0 end
                           + aim_minHeight w psAttacker t slot
                           + aim_draw w psAttacker t slot)) target
        | None => set_vz (int32 (vz target + LINE_OF_FIRE_MINIMUM X)) target
        end /\
    (forall t, psTarget = Some t ->
       p_partVisible p = int32 (establishTargetHeight w (Some t)
                                - aim_minHeight w psAttacker t slot)) /\
    match psAttacker with
    | AttackerProjectile parent =>
        p_born p = p_born parent /\ psSource p = psSource parent /\
        psDamaged p = psDamaged parent /\ p_src p = p_src parent /\
        p_pos p = p_pos parent
    | _ =>
        p_born p = fireTime /\ p_time p = fireTime /\
        psSource p = attackerSource psAttacker /\ psDamaged p = [] /\
        p_pos p = p_src p
    end.
Proof.
  intros Halive.
  unfold proj_SendProjectileAngledInternal. rewrite Halive. cbv zeta.
  unfold aim_draw, aim_minHeight.
  unfold setProjectileDestination. cbv zeta.
  cbn [psDest set_psDest aiObjectAddExpectedDamage fst snd psWStats expectedDamageCaused].
  destruct psTarget as [t |].
  - unfold establishTargetHeight.
    cbn [objects gameTime with_projectileTrackerIDIncrement with_expectedDamage
         aiObjectAddExpectedDamage randState].
    match goal with |- context [gameRand X ?s ?n] =>
      destruct (gameRand X s n) as [r seed] eqn:Er end.
    cbn [fst].
    destruct (proj_Direct psStats) eqn:Edir.
    + match goal with |- context [if ?c then set_bVisible true ?q else ?q] =>
        destruct c end;
        destruct psAttacker; eexists; eexists; (split; [reflexivity |]);
        cbn; rewrite ?Edir; repeat split; fire_side.
    + match goal with |- context [gameRand X ?s 10001] =>
        destruct (gameRand X s 10001) as [draw seed'] end.
      match goal with |- context [if ?c then set_bVisible true ?q else ?q] =>
        destruct c end;
        destruct psAttacker; eexists; eexists; (split; [reflexivity |]);
        cbn; rewrite ?Edir; repeat split; fire_side.
  - cbn [objects gameTime with_projectileTrackerIDIncrement randState].
    destruct (proj_Direct psStats) eqn:Edir.
    + match goal with |- context [if ?c then set_bVisible true ?q else ?q] =>
        destruct c end;
        destruct psAttacker; eexists; eexists; (split; [reflexivity |]);
        cbn; repeat split; fire_side.
    + match goal with |- context [gameRand X ?s 10001] =>
        destruct (gameRand X s 10001) as [draw seed'] end.
      match goal with |- context [if ?c then set_bVisible true ?q else ?q] =>
        destruct c end;
        destruct psAttacker; eexists; eexists; (split; [reflexivity |]);
        cbn; repeat split; fire_side.
Qed.

(** Firing at a target that has died creates no projectile and changes
    nothing, neither in the world nor in the registry.  Any other call,
    provided the cosine of [min_angle] is not 0 when the weapon is
    indirect (the trajectory solver divides by it), creates exactly one
    projectile: in flight, alive, owned by [player], aimed at [psTarget],
    and registered on the counter of [psTarget], and on no other counter,
    with the guessed damage. *)
Theorem firing_outcome psStats psAttacker player target psTarget bVisible slot min_angle
    fireTime (w : World) :
  (forall t, psTarget = Some t -> obj_died w t = true ->
     proj_SendProjectileAngledInternal psStats psAttacker player target psTarget bVisible
       slot min_angle fireTime w = (w, None) /\
     forall emplace_address attacker r,
       proj_SendProjectile emplace_address psStats attacker player target psTarget bVisible
         slot w r = (w, r)) /\
  (match psTarget with Some t => obj_died w t | None => false end = false ->
   (proj_Direct psStats = false -> iCos X min_angle <> 0) ->
   exists w' p,
     proj_SendProjectileAngledInternal psStats psAttacker player target psTarget bVisible
       slot min_angle fireTime w = (w', Some p) /\
     p_state p = PROJ_INFLIGHT /\ p_died p = 0 /\ p_player p = player /\
     psWStats p = psStats /\ psDest p = psTarget /\
     forall o, expected_of w' o
               = expected_of w o
                 + (if optr_eqb psTarget (Some o)
                    then int32 (objGuessFutureDamage X (objects w) psStats player psTarget)
                    else 0)).
Proof.
  split.
  - intros t Ht Hdead. subst psTarget. split.
    + unfold proj_SendProjectileAngledInternal. rewrite Hdead. reflexivity.
    + intros emplace_address attacker r.
      unfold proj_SendProjectile, proj_SendProjectileInternal,
        proj_SendProjectileAngledInternal.
      rewrite Hdead. reflexivity.
  - intros Halive _.
    destruct (fire_result psStats psAttacker player target psTarget bVisible slot min_angle
                fireTime w Halive)
      as (w' & p & Hrun & Hst & Hdied & Hpl & Hstats & Hdest & _ & _ & _ & _ & _ & _
          & Hexp & _).
    exists w', p. repeat (split; [assumption |]).
    intros o. unfold expected_of at 1. rewrite Hexp.
    fold (expected_of (aiObjectAddExpectedDamage psTarget
            (int32 (objGuessFutureDamage X (objects w) psStats player psTarget))
            (proj_Direct psStats) w) o).
    apply aiObjectAddExpectedDamage_expected.
Qed.

(** Firing keeps the books: if every counter is the sum over the live
    projectiles in play, it still is after a weapon has fired and the new
    projectile has joined the list. *)
Theorem firing_keeps_accounts psStats psAttacker player target psTarget bVisible slot
    (w : World) (l : list PROJECTILE) :
  0 <= objGuessFutureDamage X (objects w) psStats player psTarget <= INT32_MAX ->
  accounted w l ->
  accounted
    (fst (proj_SendProjectile_values psStats psAttacker player target psTarget bVisible slot
            w l))
    (snd (proj_SendProjectile_values psStats psAttacker player target psTarget bVisible slot
            w l)).
Proof.
  intros Hguess Hacc. unfold proj_SendProjectile_values, proj_SendProjectileInternal.
  set (attacker := match psAttacker with Some a => AttackerObject a | None => NoAttacker end).
  destruct (match psTarget with Some t => obj_died w t | None => false end) eqn:Halive.
  - unfold proj_SendProjectileAngledInternal. rewrite Halive. exact Hacc.
  - destruct (fire_result psStats attacker player target psTarget bVisible slot 0
                (uint32 (gameTime w - 1)) w Halive)
      as (w' & p & Hrun & _ & Hdied & _ & _ & Hdest & _ & _ & _ & _ & _ & Hcaused
          & Hexp & _).
    rewrite Hrun. cbn [fst snd]. intros o.
    rewrite expected_sum_app, <- (Hacc o).
    unfold expected_sum at 1. cbn [List.filter]. rewrite Hdied. cbn [Z.eqb fold_right].
    unfold expected_of at 1. rewrite Hexp.
    fold (expected_of (aiObjectAddExpectedDamage psTarget
            (int32 (objGuessFutureDamage X (objects w) psStats player psTarget))
            (proj_Direct psStats) w) o).
    rewrite aiObjectAddExpectedDamage_expected.
    unfold contribution. rewrite Hdest, Hcaused.
    rewrite int32_small by (unfold INT32_MIN, INT32_MAX in *; lia). lia.
Qed.

Lemma uint32_succ_neq (t : Z) : 0 <= t < 2 ^ 32 -> uint32 (t + 1) <> t.
Proof.
  intros Ht. unfold uint32. destruct (Z.eq_dec t (2 ^ 32 - 1)) as [-> | Hne].
  - cbn. discriminate.
  - rewrite Z.mod_small by lia. lia.
Qed.

(** Two projectiles created one after the other never carry the same
    tracking id, whatever the value of the id counter is. *)
Theorem consecutive_ids_differ
    psStats1 psAttacker1 player1 target1 psTarget1 bVisible1 slot1 min_angle1 fireTime1
    psStats2 psAttacker2 player2 target2 psTarget2 bVisible2 slot2 min_angle2 fireTime2
    (w w1 w2 : World) (p1 p2 : PROJECTILE) :
  proj_SendProjectileAngledInternal psStats1 psAttacker1 player1 target1 psTarget1
    bVisible1 slot1 min_angle1 fireTime1 w = (w1, Some p1) ->
  proj_SendProjectileAngledInternal psStats2 psAttacker2 player2 target2 psTarget2
    bVisible2 slot2 min_angle2 fireTime2 w1 = (w2, Some p2) ->
  p_id p1 <> p_id p2.
Proof.
  intros H1 H2.
  assert (Hsome : forall s a pl tg pt bv sl ma ft w0 w' p,
            proj_SendProjectileAngledInternal s a pl tg pt bv sl ma ft w0 = (w', Some p) ->
            p_id p = uint32 (ProjectileTrackerID + uint32 (projectileTrackerIDIncrement w0 + 1))
            /\ projectileTrackerIDIncrement w' = uint32 (projectileTrackerIDIncrement w0 + 1)).
  { intros s a pl tg pt bv sl ma ft w0 w' p Hrun.
    destruct (match pt with Some t => obj_died w0 t | None => false end) eqn:Halive.
    - unfold proj_SendProjectileAngledInternal in Hrun. rewrite Halive in Hrun.
      discriminate Hrun.
    - destruct (fire_result s a pl tg pt bv sl ma ft w0 Halive)
        as (w'' & p' & Hrun' & _ & _ & _ & _ & _ & Hid & Hctr & _).
      rewrite Hrun in Hrun'. inversion Hrun'; subst. split; assumption. }
  destruct (Hsome _ _ _ _ _ _ _ _ _ _ _ _ H1) as [Hid1 Hc1].
  destruct (Hsome _ _ _ _ _ _ _ _ _ _ _ _ H2) as [Hid2 _].
  rewrite Hid1, Hid2, Hc1.
  set (c := uint32 (projectileTrackerIDIncrement w + 1)).
  assert (Hc : 0 <= c < 2 ^ 32) by (unfold c, uint32; apply Z.mod_pos_bound; lia).
  pose proof (uint32_succ_neq c Hc) as Hne.
  set (c' := uint32 (c + 1)) in *.
  assert (Hc' : 0 <= c' < 2 ^ 32) by (unfold c', uint32; apply Z.mod_pos_bound; lia).
  intros Heq. apply Hne. unfold uint32 in Heq.
  assert (Hdiv : (ProjectileTrackerID + c - (ProjectileTrackerID + c')) mod 2 ^ 32 = 0).
  { rewrite Zminus_mod, Heq, Z.sub_diag. reflexivity. }
  replace (ProjectileTrackerID + c - (ProjectileTrackerID + c')) with (c - c') in Hdiv by lia.
  apply Z.mod_divide in Hdiv; [| lia]. destruct Hdiv as [k Hk].
  assert (k = 0) by lia. lia.
Qed.


(** *** Further properties of the registry *)

(** [proj_FreeAllProjectiles] (lines 233-246) and [proj_Shutdown]: the
    list and the storage are cleared. *)
Definition proj_FreeAllProjectiles (r : Registry) : Registry := mkRegistry ∅ [].

Definition proj_Shutdown (r : Registry) : Registry * bool := (proj_FreeAllProjectiles r, true).

(** [proj_InitSystem] (lines 208-219): the list is cleared, the
    experience gain of every player is set to 100 and the id counter to 0.
    The storage is not touched. *)
Definition proj_InitSystem (w : World) (r : Registry) : World * Registry * bool :=
  (with_projectileTrackerIDIncrement 0
     (with_experienceGain
        (fun x => if (0 <=? x) && (x <? MAX_PLAYERS X) then 100 else experienceGain w x) w),
   mkRegistry (globalProjectileStorage r) [],
   true).

(** [proj_GetFirst] and [proj_GetNext] (lines 261-276).  The iterator
    [psProjectileNext] is an index into the list; the length of the list
    stands for [end()].  Each call returns the new iterator and the
    pointer given out, [None] for the null pointer. *)
Definition proj_GetFirst (r : Registry) : nat * option Z :=
  (0%nat, psProjectileList r !! 0%nat).

(** [proj_GetNext] increments the iterator before it looks at it (line
    273).  Incrementing the iterator [end()] is undefined: there the call
    has no result. *)
Definition proj_GetNext (r : Registry) (psProjectileNext : nat) : option (nat * option Z) :=
  if (psProjectileNext <? length (psProjectileList r))%nat
  then Some (S psProjectileNext, psProjectileList r !! S psProjectileNext)
  else None.

(** The result of the [k]-th call of the enumeration, counted from the
    call of [proj_GetFirst]; [None] if that call, or one before it, has no
    result. *)
Fixpoint enumeration_call (r : Registry) (k : nat) : option (nat * option Z) :=
  match k with
  | O => Some (proj_GetFirst r)
  | S k' =>
      match enumeration_call r k' with
      | Some cur => proj_GetNext r (fst cur)
      | None => None
      end
  end.

(** No projectile is lost and none dangles: the addresses listed are
    distinct and in use, and every address in use is listed. *)
Definition registry_tight (r : Registry) : Prop :=
  registry_ok r /\
  forall a, is_Some (globalProjectileStorage r !! a) -> a ∈ psProjectileList r.

Lemma remove_dead_domain (w : World) (l : list Z) :
  forall st : gmap Z PROJECTILE,
    NoDup l ->
    (forall a, a ∉ l -> fst (remove_dead w st l) !! a = st !! a) /\
    (forall a, a ∈ l -> a ∉ snd (remove_dead w st l) ->
               fst (remove_dead w st l) !! a = None).
Proof.
  induction l as [| a0 rest IH]; intros st Hnd.
  - cbn. split; [reflexivity | intros a Ha; inversion Ha].
  - apply NoDup_cons in Hnd. destruct Hnd as [Hnotin Hnd].
    cbn [remove_dead].
    destruct (st !! a0) as [p |] eqn:Hp.
    + destruct (reclaimable w p).
      * destruct (IH (delete a0 st) Hnd) as [Hframe Hgone]. split.
        -- intros a Ha. apply not_elem_of_cons in Ha. destruct Ha as [Hne Ha].
           rewrite (Hframe a Ha). apply lookup_delete_ne. auto.
        -- intros a Ha Hk. apply elem_of_cons in Ha. destruct Ha as [-> | Ha].
           ++ rewrite (Hframe a0 Hnotin). apply lookup_delete_eq.
           ++ apply Hgone; assumption.
      * destruct (IH st Hnd) as [Hframe Hgone].
        destruct (remove_dead w st rest) as [st' kept]. cbn [fst snd] in *. split.
        -- intros a Ha. apply not_elem_of_cons in Ha. destruct Ha as [_ Ha]. apply Hframe, Ha.
        -- intros a Ha Hk. apply not_elem_of_cons in Hk. destruct Hk as [Hne Hk].
           apply elem_of_cons in Ha. destruct Ha as [-> | Ha]; [contradiction |].
           apply Hgone; assumption.
    + destruct (IH st Hnd) as [Hframe Hgone].
      destruct (remove_dead w st rest) as [st' kept]. cbn [fst snd] in *. split.
      * intros a Ha. apply not_elem_of_cons in Ha. destruct Ha as [_ Ha]. apply Hframe, Ha.
      * intros a Ha Hk. apply not_elem_of_cons in Hk. destruct Hk as [Hne Hk].
        apply elem_of_cons in Ha. destruct Ha as [-> | Ha]; [contradiction |].
        apply Hgone; assumption.
Qed.

Lemma proj_UpdateAll_tight
    (emplace_address : gmap Z PROJECTILE -> Z)
    (emplace_fresh : forall st, st !! emplace_address st = None)
    (w : World) (r : Registry) :
  registry_tight r -> registry_tight (snd (proj_UpdateAll emplace_address w r)).
Proof.
  intros [Hok Htight].
  split; [apply (proj_UpdateAll_refines emplace_address emplace_fresh w r Hok) |].
  destruct Hok as [Hnd Hin].
  unfold proj_UpdateAll.
  destruct (sweep_refines emplace_address emplace_fresh (psProjectileList r) w
              (globalProjectileStorage r) Hnd Hin)
    as (w' & st1 & sp & updated & spawned & Hs & _ & _ & _ & _ & Hnew & Hkeep & Hframe).
  rewrite Hs.
  destruct (remove_dead_domain w' (psProjectileList r) st1 Hnd) as [Hrframe Hgone].
  destruct (remove_dead w' st1 (psProjectileList r)) as [st2 kept].
  cbn [fst snd globalProjectileStorage psProjectileList] in *.
  intros a Ha. apply elem_of_app.
  destruct (decide (a ∈ psProjectileList r)) as [Hl | Hl].
  - left. destruct (decide (a ∈ kept)) as [Hk | Hk]; [exact Hk |].
    rewrite (Hgone a Hl Hk) in Ha. destruct Ha as [q Hq]. discriminate Hq.
  - right. rewrite (Hrframe a Hl) in Ha.
    destruct (decide (a ∈ sp)) as [Hsp | Hsp]; [exact Hsp |].
    rewrite (Hframe a Hl Hsp) in Ha. exfalso. exact (Hl (Htight a Ha)).
Qed.

Lemma proj_SendProjectile_tight
    (emplace_address : gmap Z PROJECTILE -> Z)
    (emplace_fresh : forall st, st !! emplace_address st = None)
    psStats psAttacker player target psTarget bVisible slot (w : World) (r : Registry) :
  registry_tight r ->
  registry_tight (snd (proj_SendProjectile emplace_address psStats psAttacker player target
                         psTarget bVisible slot w r)).
Proof.
  intros [Hok Htight].
  split; [apply (proj_SendProjectile_refines emplace_address emplace_fresh); exact Hok |].
  unfold proj_SendProjectile.
  destruct (proj_SendProjectileInternal _ _ _ _ _ _ _ w) as [w1 [p |]]; [| exact Htight].
  unfold emplace, proj_AddActiveProjectile.
  cbn [snd globalProjectileStorage psProjectileList].
  intros a Ha. apply elem_of_app.
  destruct (decide (a = emplace_address (globalProjectileStorage r))) as [-> | Hne].
  - right. apply list_elem_of_singleton. reflexivity.
  - left. rewrite lookup_insert_ne in Ha by auto. exact (Htight a Ha).
Qed.

(** The list and the storage never drift apart.  From a registry in
    which the addresses listed are distinct and are exactly the addresses
    in use, every sequence of fire and update calls leads to such a
    registry again: no projectile is stored without being listed, none is
    listed without being stored, none is listed twice.
    [proj_FreeAllProjectiles] yields such a registry, the empty one. *)
Theorem registry_stays_tight
    (emplace_address : gmap Z PROJECTILE -> Z)
    (emplace_fresh : forall st, st !! emplace_address st = None)
    (cmds : list Command) (w : World) (r : Registry) :
  registry_tight r ->
  registry_tight (snd (run emplace_address cmds (w, r))) /\
  registry_tight (proj_FreeAllProjectiles r) /\
  projectiles (proj_FreeAllProjectiles r) = [].
Proof.
  intros Ht. split; [| split; [| reflexivity]].
  - revert w r Ht. induction cmds as [| c cmds IH]; intros w r Ht; [exact Ht |].
    cbn [run].
    assert (Hstep : registry_tight (snd (step emplace_address c (w, r)))).
    { destruct c; cbn [step fst snd].
      - apply proj_SendProjectile_tight; assumption.
      - apply proj_UpdateAll_tight; assumption.
      - exact Ht. }
    destruct (step emplace_address c (w, r)) as [w1 r1]. apply IH. exact Hstep.
  - split; [split; [constructor | intros a Ha; inversion Ha] |].
    cbn. intros a [q Hq]. rewrite lookup_empty in Hq. discriminate Hq.
Qed.

(** The enumeration by [proj_GetFirst] and [proj_GetNext].  As long as
    the end of the list has not been passed, the call number [k] (counted
    from 0, the call of [proj_GetFirst]) returns the [k]-th address of the
    list, so the projectiles are given out in list order, each once, and
    the null pointer comes exactly with the call that follows the last
    projectile (at once if the list is empty).  That call ends the
    enumeration: a further call of [proj_GetNext] has no result. *)
Theorem enumeration_in_order (r : Registry) (k : nat) :
  ((k <= length (psProjectileList r))%nat ->
     enumeration_call r k = Some (k, psProjectileList r !! k) /\
     (psProjectileList r !! k = None <-> k = length (psProjectileList r))) /\
  ((length (psProjectileList r) < k)%nat -> enumeration_call r k = None) /\
  (psProjectileList r = [] -> snd (proj_GetFirst r) = None).
Proof.
  assert (Hin : forall n, (n <= length (psProjectileList r))%nat ->
                  enumeration_call r n = Some (n, psProjectileList r !! n)).
  { induction n as [| n IH]; intros Hn; [reflexivity |].
    cbn [enumeration_call]. rewrite IH by lia. cbn [fst]. unfold proj_GetNext.
    destruct (Nat.ltb_spec n (length (psProjectileList r))); [reflexivity | lia]. }
  split; [| split].
  - intros Hk. split; [apply Hin, Hk |].
    rewrite lookup_ge_None. lia.
  - induction k as [| k IH]; intros Hk; [lia |].
    cbn [enumeration_call].
    destruct (Nat.eq_dec k (length (psProjectileList r))) as [-> | Hne].
    + rewrite Hin by lia. cbn [fst]. unfold proj_GetNext.
      destruct (Nat.ltb_spec (length (psProjectileList r)) (length (psProjectileList r)));
        [lia | reflexivity].
    + rewrite IH by lia. reflexivity.
  - intros Hl. unfold proj_GetFirst. cbn [snd]. rewrite Hl. reflexivity.
Qed.

(** The ids of the projectiles created by a sequence of fire calls. *)
Definition is_Fire (c : Command) : bool :=
  match c with
  | Fire _ _ _ _ _ _ _ => true
  | _ => false
  end.

Lemma uint32_succ_wrap (n : Z) : uint32 (uint32 n + 1) = uint32 (n + 1).
Proof. unfold uint32. rewrite Zplus_mod_idemp_l. reflexivity. Qed.

Lemma uint32_id_wrap (n : Z) :
  uint32 (ProjectileTrackerID + uint32 n) = uint32 (ProjectileTrackerID + n).
Proof. unfold uint32. rewrite Zplus_mod_idemp_r. reflexivity. Qed.

Lemma fires_number_from (cmds : list Command) :
  forallb is_Fire cmds = true ->
  forall (w : World) (l : list PROJECTILE),
    projectileTrackerIDIncrement w = uint32 (Z.of_nat (length l)) ->
    List.map p_id l
      = List.map (fun k => uint32 (ProjectileTrackerID + Z.of_nat k)) (seq 1 (length l)) ->
    let final := run_values cmds (w, l) in
    projectileTrackerIDIncrement (fst final) = uint32 (Z.of_nat (length (snd final))) /\
    List.map p_id (snd final)
      = List.map (fun k => uint32 (ProjectileTrackerID + Z.of_nat k))
          (seq 1 (length (snd final))).
Proof.
  induction cmds as [| c cmds IH]; intros Hf w l Hc Hids; [split; assumption |].
  cbn [forallb] in Hf. apply andb_true_iff in Hf. destruct Hf as [Hc1 Hf].
  destruct c as [psStats psAttacker player target psTarget bVisible slot | |];
    try discriminate Hc1.
  cbn [run_values step_values fst snd].
  unfold proj_SendProjectile_values, proj_SendProjectileInternal.
  set (attacker := match psAttacker with Some a => AttackerObject a | None => NoAttacker end).
  destruct (match psTarget with Some t => obj_died w t | None => false end) eqn:Halive.
  - unfold proj_SendProjectileAngledInternal. rewrite Halive.
    apply (IH Hf w l Hc Hids).
  - destruct (fire_result psStats attacker player target psTarget bVisible slot 0
                (uint32 (gameTime w - 1)) w Halive)
      as (w' & p & Hrun & _ & _ & _ & _ & _ & Hid & Hcount & _).
    rewrite Hrun. apply (IH Hf w' (l ++ [p])).
    + rewrite Hcount, Hc, uint32_succ_wrap, length_app. cbn [length].
      f_equal. lia.
    + rewrite length_app. cbn [length]. rewrite Nat.add_1_r.
      rewrite seq_S, !List.map_app, Hids. cbn [List.map]. f_equal. f_equal.
      rewrite Hid, Hc, uint32_succ_wrap, uint32_id_wrap. f_equal. lia.
Qed.

(** After [proj_InitSystem] the ids count up from [0xdead0001].  From
    the state [proj_InitSystem] leaves, whatever it was before, no
    projectile is in play and every player has the experience gain 100;
    and after any sequence of fire calls the projectiles in play are those
    the calls created, in the order of creation, the [k]-th of them with
    the id [0xdead0000 + k] (modulo 2^32), the id counter being their
    number.  (The cosine of the angle 0, by which the trajectory solver
    may divide in these calls, is taken not to be 0.) *)
Theorem proj_InitSystem_restarts_ids
    (emplace_address : gmap Z PROJECTILE -> Z)
    (emplace_fresh : forall st, st !! emplace_address st = None)
    (cmds : list Command) (w : World) (r : Registry) :
  forallb is_Fire cmds = true ->
  iCos X 0 <> 0 ->
  let w0 := fst (fst (proj_InitSystem w r)) in
  let r0 := snd (fst (proj_InitSystem w r)) in
  let final := run emplace_address cmds (w0, r0) in
  projectiles r0 = [] /\
  (forall x, 0 <= x < MAX_PLAYERS X -> getExpGain w0 x = 100) /\
  List.map p_id (projectiles (snd final))
    = List.map (fun k => uint32 (ProjectileTrackerID + Z.of_nat k))
        (seq 1 (length (projectiles (snd final)))) /\
  projectileTrackerIDIncrement (fst final)
    = uint32 (Z.of_nat (length (projectiles (snd final)))).
Proof.
  intros Hf _. cbv zeta.
  set (w0 := fst (fst (proj_InitSystem w r))).
  set (r0 := snd (fst (proj_InitSystem w r))).
  assert (Hok : registry_ok r0).
  { split; [constructor | intros a Ha; inversion Ha]. }
  split; [reflexivity |]. split.
  - intros x Hx. unfold getExpGain, w0, proj_InitSystem. cbn.
    destruct (Z.leb_spec 0 x); [| lia]. destruct (Z.ltb_spec x (MAX_PLAYERS X)); [| lia].
    reflexivity.
  - destruct (run_refines emplace_address emplace_fresh cmds w0 r0 Hok) as (Hw & Hl & _).
    rewrite Hw, Hl.
    change (projectiles r0) with (@nil PROJECTILE).
    destruct (fires_number_from cmds Hf w0 [] eq_refl eq_refl) as [Hcount Hids].
    split; assumption.
Qed.

Lemma update_sweep_spawned_length (l : list PROJECTILE) :
  forall w, (length (snd (update_sweep w l)) <= length l)%nat.
Proof.
  induction l as [| p rest IH]; intros w; [cbn; lia |].
  cbn [update_sweep]. destruct (update w p) as [[w1 p'] sp].
  specialize (IH w1). destruct (update_sweep w1 rest) as [[w2 rest'] sps].
  cbn [snd] in *. rewrite length_app. destruct sp; cbn [spawned_list length]; lia.
Qed.

(** [proj_UpdateAll] removes only what is dead for good.  A projectile
    that is alive after its update, or whose time of death is not before
    the start of the tick, stays in the list; every projectile left in the
    list is one of those or was spawned in this call; and the list at most
    doubles. *)
Theorem proj_UpdateAll_keeps_the_living
    (emplace_address : gmap Z PROJECTILE -> Z)
    (emplace_fresh : forall st, st !! emplace_address st = None)
    (w : World) (r : Registry) :
  registry_ok r ->
  let w' := fst (fst (update_sweep w (projectiles r))) in
  let updated := snd (fst (update_sweep w (projectiles r))) in
  let spawned := snd (update_sweep w (projectiles r)) in
  let after := projectiles (snd (proj_UpdateAll emplace_address w r)) in
  (forall p, In p updated ->
     p_died p = 0 \/ uint32 (gameTime w' - deltaGameTime w') <= p_died p ->
     In p after) /\
  (forall p, In p after ->
     In p spawned \/
     (In p updated /\
      (p_died p = 0 \/ uint32 (gameTime w' - deltaGameTime w') <= p_died p))) /\
  (length after <= 2 * length (projectiles r))%nat.
Proof.
  intros Hok. cbv zeta.
  rewrite (proj_UpdateAll_order emplace_address emplace_fresh w r Hok).
  pose proof (update_sweep_length (projectiles r) w) as Hlen.
  pose proof (update_sweep_spawned_length (projectiles r) w) as Hsp.
  destruct (update_sweep w (projectiles r)) as [[w' updated] spawned].
  cbn [fst snd] in *.
  assert (Hkeep : forall p,
            negb (reclaimable w' p) = true <->
            (p_died p = 0 \/ uint32 (gameTime w' - deltaGameTime w') <= p_died p)).
  { intros p. unfold reclaimable. rewrite negb_involutive, orb_true_iff.
    rewrite Z.eqb_eq, Z.geb_le. reflexivity. }
  split; [| split].
  - intros p Hp Hlive. apply in_or_app. left. apply filter_In. split; [exact Hp |].
    apply Hkeep. exact Hlive.
  - intros p Hp. apply in_app_or in Hp. destruct Hp as [Hp | Hp]; [right | left; exact Hp].
    apply filter_In in Hp. destruct Hp as [Hin Hk]. split; [exact Hin |].
    apply Hkeep. exact Hk.
  - rewrite length_app.
    pose proof (List.filter_length_le (fun p => negb (reclaimable w' p)) updated). lia.
Qed.

(** *** Who is damaged by the area effects *)

(** The conditions under which the radius sweep damages the object [o]
    at the address [a] (lines 1023-1066), in the world as it is when the
    loop reaches the object. *)
Definition sweep_victim
    (w : World) (psObj : PROJECTILE) (psStats : WEAPON_STATS) (targetPos : Vector3i)
    (isEmp : bool) (a : ptr) (o : BASE_OBJECT) : Prop :=
  objects w !! a = Some o /\
  o_died o = 0 /\
  Some a <> psDest psObj /\
  spared_as_friend w psObj psStats o = false /\
  o_type o <> OBJ_PROJECTILE /\
  (o_type o = OBJ_FEATURE -> o_damageable o = true) /\
  Z.land (surfaceToAir psStats)
    (if OBJECT_TYPE_eqb (o_type o) OBJ_DROID && (o_travelsByAir o && negb (o_moveInactive o))
     then SHOOT_IN_AIR else SHOOT_ON_GROUND) <> 0 /\
  (o_type o = OBJ_DROID ->
     Vector3i_InSphere X (o_pos o) targetPos (sweep_radius psObj psStats isEmp) = true).

(** What a damage event of the sweep says, [w] being the world in which
    the loop reaches the object of the event. *)
Definition sweep_damage
    (w : World) (psObj : PROJECTILE) (psStats : WEAPON_STATS) (targetPos : Vector3i)
    (isEmp : bool) (d : DAMAGE) : Prop :=
  exists o,
    sweep_victim w psObj psStats targetPos isEmp (dmg_dest d) o /\
    dmg_projectile d = psObj /\ dmg_empRadiusHit d = isEmp /\
    dmg_isDamagePerSecond d = false /\ dmg_impactTime d = p_time psObj /\
    dmg_damage d = calcDamage (weaponRadDamage X psStats (p_player psObj))
                              (weaponEffect psStats) o.

Lemma proj_radiusSweep_body_victims psObj psStats pos isEmp w a :
  exists events,
    damageLog (proj_radiusSweep_body psObj psStats pos isEmp w a) = damageLog w ++ events /\
    Forall (fun d => dmg_dest d = a /\ sweep_damage w psObj psStats pos isEmp d) events.
Proof.
  unfold proj_radiusSweep_body.
  assert (Hnone : exists events,
            damageLog w = damageLog w ++ events /\
            Forall (fun d => dmg_dest d = a /\ sweep_damage w psObj psStats pos isEmp d)
              events).
  { exists []. rewrite app_nil_r. split; [reflexivity | constructor]. }
  destruct (objects w !! a) as [o |] eqn:Eo; [| exact Hnone].
  destruct (Z.eqb_spec (o_died o) 0) as [Ealive | Ealive]; cbn [negb]; [| exact Hnone].
  destruct (optr_eqb (Some a) (psDest psObj)) eqn:Edest; [exact Hnone |].
  destruct (spared_as_friend w psObj psStats o) eqn:Efriend; [exact Hnone |].
  assert (Hdest : Some a <> psDest psObj).
  { intros Heq. rewrite <- Heq in Edest. cbn in Edest.
    unfold ptr_eqb in Edest. rewrite Z.eqb_refl in Edest. discriminate Edest. }
  assert (Hhit :
    forall inAir sphere,
      o_type o <> OBJ_PROJECTILE ->
      (o_type o = OBJ_FEATURE -> o_damageable o = true) ->
      inAir = (OBJECT_TYPE_eqb (o_type o) OBJ_DROID
               && (o_travelsByAir o && negb (o_moveInactive o))) ->
      (o_type o = OBJ_DROID -> sphere = true) ->
      let w' :=
        if Z.land (surfaceToAir psStats) (if inAir then SHOOT_IN_AIR else SHOOT_ON_GROUND) =? 0
        then w
        else if sphere && negb (Vector3i_InSphere X (o_pos o) pos
                                  (sweep_radius psObj psStats isEmp))
        then w
        else fst (objectDamage
                    (mkDAMAGE psObj a
                       (calcDamage (weaponRadDamage X psStats (p_player psObj))
                          (weaponEffect psStats) o)
                       (weaponClass psStats) (weaponSubClass psStats) (p_time psObj) false
                       (int32 (minimumDamage (upgrade psStats (p_player psObj)))) isEmp) w) in
      exists events,
        damageLog w' = damageLog w ++ events /\
        Forall (fun d => dmg_dest d = a /\ sweep_damage w psObj psStats pos isEmp d) events).
  { intros inAir sphere Htype Hdam HinAir Hsphere. cbv zeta.
    destruct (Z.eqb_spec (Z.land (surfaceToAir psStats)
                (if inAir then SHOOT_IN_AIR else SHOOT_ON_GROUND)) 0) as [Eflag | Eflag];
      [exact Hnone |].
    destruct (sphere && negb (Vector3i_InSphere X (o_pos o) pos
                                (sweep_radius psObj psStats isEmp))) eqn:Eout;
      [exact Hnone |].
    match goal with |- context [objectDamage ?d w] =>
      pose proof (objectDamage_frame d w) as [_ Hl]; set (ev := d) in * end.
    exists [ev]. split; [exact Hl |].
    constructor; [| constructor]. split; [reflexivity |].
    exists o. split; [| repeat split].
    unfold sweep_victim, ev. cbn [dmg_dest].
    split; [exact Eo |]. split; [exact Ealive |]. split; [exact Hdest |].
    split; [exact Efriend |]. split; [exact Htype |]. split; [exact Hdam |].
    split; [rewrite <- HinAir; exact Eflag |].
    intros Hdroid. rewrite (Hsphere Hdroid) in Eout. cbn [andb] in Eout.
    apply negb_false_iff in Eout. exact Eout. }
  cbv zeta in Hhit.
  destruct (o_type o) eqn:Etype.
  - cbn [negb].
    apply (Hhit (o_travelsByAir o && negb (o_moveInactive o)) true);
      try discriminate; reflexivity.
  - cbn [negb]. apply (Hhit false false); try discriminate; reflexivity.
  - destruct (o_damageable o) eqn:Edam; cbn [negb]; [| exact Hnone].
    apply (Hhit false false); try discriminate; reflexivity.
  - exact Hnone.
Qed.

(** The events of a loop over a grid list: each is an event of the
    iteration on one position of the list, in the world the iterations
    before it have left. *)
Lemma loop_events (body : World -> ptr -> World) (P : World -> DAMAGE -> Prop) :
  (forall w a, exists events,
      damageLog (body w a) = damageLog w ++ events /\
      Forall (fun d => dmg_dest d = a /\ P w d) events) ->
  forall (l done : list ptr) (w : World),
  exists events,
    damageLog (fold_left body l (fold_left body done w))
      = damageLog (fold_left body done w) ++ events /\
    Forall (fun d => exists before after,
                       done ++ l = before ++ dmg_dest d :: after /\
                       P (fold_left body before w) d) events.
Proof.
  intros Hbody. induction l as [| a l IH]; intros done w; cbn [fold_left].
  - exists []. rewrite app_nil_r. split; [reflexivity | constructor].
  - destruct (Hbody (fold_left body done w) a) as (ev1 & Hl1 & Hf1).
    destruct (IH (done ++ [a]) w) as (ev2 & Hl2 & Hf2).
    rewrite fold_left_app in Hl2. cbn [fold_left] in Hl2.
    exists (ev1 ++ ev2). split; [rewrite Hl2, Hl1, app_assoc; reflexivity |].
    apply Forall_app. split.
    + eapply Forall_impl; [exact Hf1 |]. intros d [Hd HP]. cbv beta.
      exists done, l. rewrite Hd. split; [reflexivity | exact HP].
    + eapply Forall_impl; [exact Hf2 |]. intros d (before & after & Hsplit & HP). cbv beta.
      exists before, after. split; [| exact HP].
      rewrite <- Hsplit, <- app_assoc. reflexivity.
Qed.

(** The radius sweep damages only what it may.  The sweep adds damage
    events to the log and nothing else; every event is on an object at
    some position of the grid list and was dispatched because, in the
    world the iterations before that position had left, the object was
    alive, was not the destination of the projectile, was not protected by
    the no-friendly-fire flag, was not a feature that cannot be damaged,
    could be shot at by the weapon where it was (in the air or on the
    ground) and, if a droid, lay in the sphere of the radius; the damage
    is the radius damage of the weapon on that object. *)
Theorem proj_radiusSweep_victims psObj psStats targetPos isEmp (w : World) :
  let grid := gridStartIterate X (objects w) (vx targetPos) (vy targetPos)
                (sweep_radius psObj psStats isEmp) in
  exists events,
    damageLog (proj_radiusSweep psObj psStats targetPos isEmp w) = damageLog w ++ events /\
    Forall (fun d =>
              exists before after,
                grid = before ++ dmg_dest d :: after /\
                sweep_damage
                  (fold_left (proj_radiusSweep_body psObj psStats targetPos isEmp) before w)
                  psObj psStats targetPos isEmp d) events.
Proof.
  cbv zeta. unfold proj_radiusSweep.
  apply (loop_events (proj_radiusSweep_body psObj psStats targetPos isEmp)
           (fun wi d => sweep_damage wi psObj psStats targetPos isEmp d)
           (fun wi a => proj_radiusSweep_body_victims psObj psStats targetPos isEmp wi a)
           _ [] w).
Qed.

(** The conditions under which the fire damages the object [o] at the
    address [a] (lines 1503-1524). *)
Definition fire_victim (w : World) (psProj : PROJECTILE) (a : ptr) (o : BASE_OBJECT) : Prop :=
  objects w !! a = Some o /\
  o_died o = 0 /\
  aiCheckAlliances X (p_player psProj) (o_player o) = false /\
  ~ (o_type o = OBJ_DROID /\ o_isVtol o = true /\ o_moveInactive o = false) /\
  ~ (o_type o = OBJ_FEATURE /\ o_damageable o = false).

(** What a damage event of the fire says, [w] being the world in which
    the loop reaches the object of the event. *)
Definition fire_damage (w : World) (psProj : PROJECTILE) (d : DAMAGE) : Prop :=
  exists o,
    fire_victim w psProj (dmg_dest d) o /\
    dmg_projectile d = psProj /\ dmg_isDamagePerSecond d = true /\
    dmg_empRadiusHit d = false /\
    dmg_impactTime d = uint32 (gameTime w - deltaGameTime w / 2 + 1).

Lemma proj_checkPeriodicalDamage_body_victims psProj w a :
  exists events,
    damageLog (proj_checkPeriodicalDamage_body psProj w a) = damageLog w ++ events /\
    Forall (fun d => dmg_dest d = a /\ fire_damage w psProj d) events.
Proof.
  unfold proj_checkPeriodicalDamage_body. cbv zeta.
  assert (Hnone : exists events,
            damageLog w = damageLog w ++ events /\
            Forall (fun d => dmg_dest d = a /\ fire_damage w psProj d) events).
  { exists []. rewrite app_nil_r. split; [reflexivity | constructor]. }
  destruct (objects w !! a) as [o |] eqn:Eo; [| exact Hnone].
  destruct (Z.eqb_spec (o_died o) 0) as [Ealive | Ealive]; cbn [negb]; [| exact Hnone].
  destruct (aiCheckAlliances X (p_player psProj) (o_player o)) eqn:Eally; [exact Hnone |].
  destruct (OBJECT_TYPE_eqb (o_type o) OBJ_DROID && o_isVtol o && negb (o_moveInactive o))
    eqn:Evtol; [exact Hnone |].
  destruct (OBJECT_TYPE_eqb (o_type o) OBJ_FEATURE && negb (o_damageable o)) eqn:Efeat;
    [exact Hnone |].
  match goal with |- context [objectDamage ?d ?wm] =>
    pose proof (objectDamage_frame d wm) as [_ Hl]; set (ev := d) in *;
    set (wmid := wm) in * end.
  assert (Hlm : damageLog wmid = damageLog w) by reflexivity.
  exists [ev]. split; [rewrite Hl, Hlm; reflexivity |].
  constructor; [| constructor]. split; [reflexivity |].
  exists o.
  split; [| split; [reflexivity | split; [reflexivity | split; [reflexivity |]]]].
  - unfold fire_victim, ev. cbn [dmg_dest].
    split; [exact Eo |]. split; [exact Ealive |]. split; [exact Eally |]. split.
    + intros (Ht & Hv & Hm). rewrite Ht, Hv, Hm in Evtol. discriminate Evtol.
    + intros (Ht & Hd). rewrite Ht, Hd in Efeat. discriminate Efeat.
  - unfold ev, wmid. cbn [dmg_impactTime gameTime deltaGameTime with_objects]. reflexivity.
Qed.

Lemma proj_checkPeriodicalDamage_body_frame psProj w a :
  same_books w (proj_checkPeriodicalDamage_body psProj w a).
Proof.
  unfold proj_checkPeriodicalDamage_body. cbv zeta.
  destruct (objects w !! a) as [o |]; [| apply same_books_refl].
  repeat match goal with
         | |- context [if ?c then w else _] => destruct c; [apply same_books_refl |]
         end.
  match goal with |- context [objectDamage ?d ?wm] =>
    pose proof (objectDamage_frame d wm) as [Hb _]; set (wmid := wm) in * end.
  eapply same_books_trans; [| exact Hb]. unfold wmid. repeat split.
Qed.

Lemma proj_checkPeriodicalDamage_loop_frame psProj (l : list ptr) :
  forall w, same_books w (fold_left (proj_checkPeriodicalDamage_body psProj) l w).
Proof.
  induction l as [| a l IH]; intros w; cbn [fold_left]; [apply same_books_refl |].
  eapply same_books_trans; [apply proj_checkPeriodicalDamage_body_frame | apply IH].
Qed.

(** The fire damages only what it may.  [proj_checkPeriodicalDamage]
    adds damage events to the log and nothing else; every event is on an
    object at some position of the grid list and was dispatched because,
    in the world the iterations before that position had left, the object
    was alive, was not allied with the owner of the projectile (nor owned
    by it), was not a VTOL in motion and was not a feature that cannot be
    damaged; the event is marked as damage per second and timed at
    [gameTime - deltaGameTime / 2 + 1]. *)
Theorem proj_checkPeriodicalDamage_victims (w : World) (psProj : PROJECTILE) :
  let grid := gridStartIterate X (objects w) (vx (p_pos psProj)) (vy (p_pos psProj))
                (periodicalDamageRadius (upgrade (psWStats psProj) (p_player psProj))) in
  exists events,
    damageLog (proj_checkPeriodicalDamage w psProj) = damageLog w ++ events /\
    Forall (fun d =>
              exists before after,
                grid = before ++ dmg_dest d :: after /\
                fire_damage (fold_left (proj_checkPeriodicalDamage_body psProj) before w)
                  psProj d /\
                dmg_impactTime d = uint32 (gameTime w - deltaGameTime w / 2 + 1)) events.
Proof.
  cbv zeta. unfold proj_checkPeriodicalDamage.
  destruct (loop_events (proj_checkPeriodicalDamage_body psProj)
              (fun wi d => fire_damage wi psProj d)
              (fun wi a => proj_checkPeriodicalDamage_body_victims psProj wi a)
              (gridStartIterate X (objects w) (vx (p_pos psProj)) (vy (p_pos psProj))
                 (periodicalDamageRadius (upgrade (psWStats psProj) (p_player psProj))))
              [] w) as (events & Hlog & Hall).
  exists events. split; [exact Hlog |].
  eapply Forall_impl; [exact Hall |]. intros d (before & after & Hsplit & Hfire). cbv beta.
  exists before, after. split; [exact Hsplit |]. split; [exact Hfire |].
  destruct Hfire as (o & _ & _ & _ & _ & Htime). rewrite Htime.
  destruct (proj_checkPeriodicalDamage_loop_frame psProj before w) as (Hg & Hdl & _).
  rewrite Hg, Hdl. reflexivity.
Qed.

(** The end of the area effect.  [proj_PostImpactFunc] never changes
    anything of the projectile but its state, which it leaves alone or
    sets to INACTIVE; it sets it to INACTIVE exactly when the age of the
    effect exceeds both the life of the radius and the time of the
    periodical damage, and then the world is left as it is; it damages
    nothing when the weapon has no periodical damage. *)
Theorem proj_PostImpactFunc_spec (w : World) (psObj : PROJECTILE) :
  let age := int32 (uint32 (gameTime w - p_born psObj)) in
  let up := upgrade (psWStats psObj) (p_player psObj) in
  (radiusLife (psWStats psObj) < age /\ periodicalDamageTime up < age ->
     proj_PostImpactFunc w psObj = (w, set_state PROJ_INACTIVE psObj)) /\
  (age <= radiusLife (psWStats psObj) \/ age <= periodicalDamageTime up ->
     snd (proj_PostImpactFunc w psObj) = psObj /\
     (periodicalDamageTime up <= 0 -> fst (proj_PostImpactFunc w psObj) = w) /\
     (0 < periodicalDamageTime up ->
        fst (proj_PostImpactFunc w psObj) = proj_checkPeriodicalDamage w psObj)).
Proof.
  cbv zeta. unfold proj_PostImpactFunc. cbv zeta.
  set (age := int32 (uint32 (gameTime w - p_born psObj))).
  set (pdt := periodicalDamageTime (upgrade (psWStats psObj) (p_player psObj))).
  split.
  - intros [H1 H2].
    destruct (Z.gtb_spec age (radiusLife (psWStats psObj))); [| lia].
    destruct (Z.gtb_spec age pdt); [| lia]. reflexivity.
  - intros Hyoung.
    assert (Hc : (age >? radiusLife (psWStats psObj)) && (age >? pdt) = false).
    { destruct (Z.gtb_spec age (radiusLife (psWStats psObj)));
        destruct (Z.gtb_spec age pdt); cbn; try reflexivity; lia. }
    rewrite Hc.
    destruct (Z.gtb_spec pdt 0); cbn [fst snd];
      (split; [reflexivity |]); split; intros; try reflexivity; lia.
Qed.

End Code.

(* ===================================================================== *)
(** ** A concrete setting *)
(* ===================================================================== *)

(** A small instance of the collaborators, used to run the model on
    concrete scenarios: a flat 8192 x 8192 map whose terrain is never hit,
    every player allied with itself only, a spatial query returning the
    objects within the given distance on both axes, damage handlers that
    report the damage as relative damage and never destroy, and no
    commanders or sensors. *)
Definition near (x y r : Z) (o : BASE_OBJECT) : bool :=
  (Z.abs (vx (o_pos o) - x) <=? r) && (Z.abs (vy (o_pos o) - y) <=? r).

Definition in_sphere (v c : Vector3i) (r : Z) : bool :=
  (vx v - vx c) * (vx v - vx c) + (vy v - vy c) * (vy v - vy c)
  + (vz v - vz c) * (vz v - vz c) <? r * r.

Definition sample : Collaborators := {|
  MAX_PLAYERS := 8;
  LINE_OF_FIRE_MINIMUM := 5;
  TILE_UNITS := 128;
  selectedPlayer := 0;
  aiCheckAlliances := fun a b => a =? b;
  isDead := fun o => o_died o >? 1;
  worldOnMap := fun x y => (0 <=? x) && (x <? 8192) && (0 <=? y) && (y <? 8192);
  map_LineIntersect := fun _ _ _ => NO_COLLISION_TIME;
  gridStartIterate := fun objs x y r =>
    (map_to_list (filter (fun kv => Is_true (near x y r (snd kv))) objs)).*1;
  iHypot := fun x y => Z.sqrt (x * x + y * y);
  iAtan2 := axis_iAtan2;
  iSin := axis_iSin;
  iCos := axis_iCos;
  interpolatePos := fun _ cur _ => st_pos cur;
  interpolateRot := fun _ cur _ => st_rot cur;
  targetHeightOf := fun _ _ _ => 16;
  establishTargetShape := fun objs a =>
    match objs !! a with
    | Some o =>
        match o_type o with
        | OBJ_DROID => mkObjectShape false 32 32
        | _ => mkObjectShape true 64 64
        end
    | None => mkObjectShape false 0 0
    end;
  homingStep := fun _ _ p => (p_dst p, p_pos p, p_rot p);
  weaponDamage := fun _ _ => 20;
  weaponRadDamage := fun _ _ => 10;
  weaponPeriodicalDamage := fun _ _ => 5;
  structStrengthModifier := fun _ _ => 100;
  weaponModifier := fun _ _ => 100;
  weaponModifierBody := fun _ _ => 100;
  Vector3i_InSphere := in_sphere;
  droidDamage := fun objs d => (objs, Z.min (dmg_damage d) 100);
  structureDamage := fun objs d => (objs, Z.min (dmg_damage d) 100);
  featureDamage := fun objs d => (objs, Z.min (dmg_damage d) 100);
  electronicDamage := fun objs _ _ _ => (objs, false);
  stopAttacker := fun objs _ => objs;
  calcDroidPower := fun _ => 100;
  calcDroidPoints := fun _ => 100;
  cmdDroidGetDesignator := fun _ _ => None;
  droidCommander := fun _ _ => None;
  fireSupportSensor := fun _ _ => None;
  objGuessFutureDamage := fun _ _ _ t => match t with Some _ => 10 | None => 0 end;
  muzzleLocation := fun objs a _ =>
    match objs !! a with Some o => o_pos o | None => mkVector3i 0 0 0 end;
  areaOfFire := fun _ _ _ _ => 0;
  visibleForLocalDisplay := fun _ => true;
  gameRand := fun seed limit => (seed mod limit, (seed * 1103515245 + 12345) mod 2147483648)
|}.

Definition sample_upgrade (range rad emp pdTime : Z) : WEAPON_UPGRADE :=
  mkWEAPON_UPGRADE range rad emp pdTime rad 1.

(** Weapon stats with the members the scenarios vary. *)
Definition sample_stats
    (model : MOVEMENT_MODEL) (sub : WEAPON_SUBCLASS) (speed : Z) (pen : bool)
    (range rad emp pdTime : Z) : WEAPON_STATS :=
  mkWEAPON_STATS model 0 sub 0 0 WSC_FLAME 0 speed pen
    (Z.lor SHOOT_ON_GROUND SHOOT_IN_AIR) 100 0 false
    (fun _ => sample_upgrade range rad emp pdTime).

Definition sample_droid (player : Z) (pos : Vector3i) : BASE_OBJECT :=
  mkBASE_OBJECT OBJ_DROID player 0 pos pos false false false true false None true 0 0.

Definition sample_feature (pos : Vector3i) (damageable : bool) : BASE_OBJECT :=
  mkBASE_OBJECT OBJ_FEATURE 7 0 pos pos false false false true false None damageable 0 0.

Definition sample_world (objs : gmap ptr BASE_OBJECT) (expected : gmap ptr Z) (time : Z)
  : World :=
  mkWorld objs expected ∅ ∅ [] time 100 false 42 (fun _ => 100) 0.

(** A projectile in flight from [src] towards [dst], at position [pos]. *)
Definition sample_projectile
    (stats : WEAPON_STATS) (player : Z) (source dest : option ptr)
    (src pos dst : Vector3i) (born time expected : Z) : PROJECTILE :=
  mkPROJECTILE 1 player 0 pos (mkRotation 0 0 0) time
    (mkSpacetime (time - 1) pos (mkRotation 0 0 0))
    PROJ_INFLIGHT false stats source dest [] src dst 0 0 born expected 0.

(** *** Storages *)

(** Two ways for the storage to pick a free slot: above every slot in
    use, and below every slot in use. *)
Definition top_slot (l : list (Z * PROJECTILE)) : Z :=
  foldr (fun kv acc => Z.max (fst kv) acc) 0 l.

Definition bottom_slot (l : list (Z * PROJECTILE)) : Z :=
  foldr (fun kv acc => Z.min (fst kv) acc) 0 l.

Definition storage_up (st : gmap Z PROJECTILE) : Z := top_slot (map_to_list st) + 1.

Definition storage_down (st : gmap Z PROJECTILE) : Z := bottom_slot (map_to_list st) - 1.

Lemma top_slot_bound (l : list (Z * PROJECTILE)) k v : (k, v) ∈ l -> k <= top_slot l.
Proof.
  induction l as [| [k' v'] l IH]; intros H; [inversion H |].
  apply elem_of_cons in H. cbn. destruct H as [H | H].
  - inversion H. lia.
  - specialize (IH H). unfold top_slot in IH. lia.
Qed.

Lemma bottom_slot_bound (l : list (Z * PROJECTILE)) k v : (k, v) ∈ l -> bottom_slot l <= k.
Proof.
  induction l as [| [k' v'] l IH]; intros H; [inversion H |].
  apply elem_of_cons in H. cbn. destruct H as [H | H].
  - inversion H. lia.
  - specialize (IH H). unfold bottom_slot in IH. lia.
Qed.

Lemma storage_up_fresh (st : gmap Z PROJECTILE) : st !! storage_up st = None.
Proof.
  destruct (st !! storage_up st) as [v |] eqn:E; [| reflexivity].
  apply elem_of_map_to_list in E. apply top_slot_bound in E.
  unfold storage_up in E. lia.
Qed.

Lemma storage_down_fresh (st : gmap Z PROJECTILE) : st !! storage_down st = None.
Proof.
  destruct (st !! storage_down st) as [v |] eqn:E; [| reflexivity].
  apply elem_of_map_to_list in E. apply bottom_slot_bound in E.
  unfold storage_down in E. lia.
Qed.

Lemma registry_ok_one (p : PROJECTILE) (a : Z) : registry_ok (mkRegistry (<[a := p]> ∅) [a]).
Proof.
  split; cbn.
  - apply NoDup_singleton.
  - intros x Hx. apply list_elem_of_singleton in Hx. subst. rewrite lookup_insert_eq. eauto.
Qed.

Lemma registry_ok_empty : registry_ok (mkRegistry ∅ []).
Proof. split; cbn; [constructor | intros x Hx; inversion Hx]. Qed.

(** *** Scenarios for the range limit (C6) *)

Definition cannon : WEAPON_STATS := sample_stats MM_DIRECT WSC_CANNON 1000 false 2 0 0 0.

(** A shell fired at tick 0 along the x axis, with a maximum range of 2
    units and an extension factor of 100 percent, on an empty map. *)
Definition shell : PROJECTILE :=
  sample_projectile cannon 0 None None
    (mkVector3i 100 100 0) (mkVector3i 100 100 0) (mkVector3i 1100 100 0) 0 0 0.

Definition empty_map (time : Z) : World := sample_world ∅ ∅ time.

(** C6, as stated, fails: at tick 2 the shell has travelled exactly
    [longRange * distanceExtensionFactor / 100 = 2] units, which does not
    exceed the limit, no collision is found, and the update still forces
    the miss and moves to IMPACT. *)
Lemma range_limit_reached_not_exceeded :
  currentDistance_of sample (empty_map 2) shell = 2 /\
  proj_GetLongRange sample cannon 0 * distanceExtensionFactor cannon / 100 = 2 /\
  collision_found (flight_scan sample (empty_map 2)
                     (moved_projectile sample (empty_map 2) shell)) = false /\
  p_state (snd (fst (proj_InFlightFunc sample (empty_map 2) shell))) = PROJ_IMPACT.
Proof. vm_compute. repeat split; reflexivity. Qed.

Lemma range_limit_forces_miss_witness :
  (proj_GetLongRange sample (psWStats shell) (p_player shell)
     * distanceExtensionFactor (psWStats shell)
   <= currentDistance_of sample (empty_map 1) shell * 100 ->
     p_state (snd (fst (proj_InFlightFunc sample (empty_map 1) shell))) = PROJ_IMPACT /\
     psDest (snd (fst (proj_InFlightFunc sample (empty_map 1) shell))) = None /\
     snd (proj_InFlightFunc sample (empty_map 1) shell) = None) /\
  (currentDistance_of sample (empty_map 1) shell * 100
   < proj_GetLongRange sample (psWStats shell) (p_player shell)
     * distanceExtensionFactor (psWStats shell) ->
     p_state (snd (fst (proj_InFlightFunc sample (empty_map 1) shell))) = p_state shell /\
     psDest (snd (fst (proj_InFlightFunc sample (empty_map 1) shell))) = psDest shell /\
     snd (proj_InFlightFunc sample (empty_map 1) shell) = None).
Proof.
  apply range_limit_forces_miss
    with (w' := fst (fst (proj_InFlightFunc sample (empty_map 1) shell))).
  - vm_compute. reflexivity.
  - vm_compute. reflexivity.
  - vm_compute. split; discriminate.
  - vm_compute. split; discriminate.
  - destruct (proj_InFlightFunc sample (empty_map 1) shell) as [[w' p'] s]. reflexivity.
Defined.

(** *** Scenario for the experience gate (C9) *)

Definition mortar : WEAPON_STATS := sample_stats MM_INDIRECT WSC_MORTARS 1000 false 1000 64 0 0.

(** The droid 1 of player 0 fired a mortar shell that missed (no
    destination) and comes down at (510, 500) next to the damageable
    feature 2 and to the droid 3 of the same player 0. *)
Definition splash_world : World :=
  sample_world
    (<[1 := sample_droid 0 (mkVector3i 100 100 0)]>
     (<[2 := sample_feature (mkVector3i 500 500 0) true]>
      (<[3 := sample_droid 0 (mkVector3i 520 500 0)]> ∅)))
    ∅ 50.

Definition mortar_shell : PROJECTILE :=
  set_state PROJ_IMPACT
    (sample_projectile mortar 0 (Some 1) None
       (mkVector3i 100 100 0) (mkVector3i 510 500 0) (mkVector3i 510 500 0) 0 50 0).

(** C9 fails on the code: the splash of the shell damages exactly the
    feature 2 and the friendly droid 3, and the firing droid 1 gains
    experience from both events (10 each). *)
Lemma splash_grants_experience :
  map dmg_dest (damageLog (fst (proj_ImpactFunc sample splash_world mortar_shell))) = [3; 2] /\
  isFeature splash_world (Some 2) = true /\
  option_map o_player (objects splash_world !! 3)
    = option_map o_player (objects splash_world !! 1) /\
  experience_of splash_world 1 = 0 /\
  experience_of (fst (proj_ImpactFunc sample splash_world mortar_shell)) 1 = 20.
Proof. vm_compute. repeat split; reflexivity. Qed.

(** A direct hit of the same shell on the friendly droid 3: the
    destination of the projectile is the object damaged, and the gate
    holds the experience back. *)
Definition friendly_hit : DAMAGE :=
  mkDAMAGE (set_psDest (Some 3) mortar_shell) 3 20 0 WSC_MORTARS 50 false 1 false.

Lemma objectDamage_experience_gate_witness :
  experience (fst (objectDamage sample friendly_hit splash_world))
    = experience splash_world /\
  kills (fst (objectDamage sample friendly_hit splash_world)) = kills splash_world.
Proof.
  apply (proj2 (objectDamage_experience_gate sample friendly_hit splash_world)).
  right. right. eexists. eexists.
  split; [vm_compute; reflexivity |]. split; [vm_compute; reflexivity |]. reflexivity.
Defined.

(** *** Scenarios for the area effects (C8) *)





(** *** Scenario for the expected-damage bookkeeping (C1) *)

Definition long_cannon : WEAPON_STATS := sample_stats MM_DIRECT WSC_CANNON 1000 false 4000 0 0 0.

(** The droid 7 expects 10 points of damage from the one projectile that
    is aimed at it; the projectile has flown past the edge of the map. *)
Definition edge_world : World :=
  sample_world (<[7 := sample_droid 1 (mkVector3i 500 500 0)]> ∅) (<[7 := 10]> ∅) 1000.

Definition stray_shell : PROJECTILE :=
  sample_projectile long_cannon 0 None (Some 7)
    (mkVector3i 100 100 0) (mkVector3i (-5) 100 0) (mkVector3i 500 500 0) 900 999 10.

(** The registry holds the shell alone. *)
Definition edge_registry : Registry := mkRegistry (<[0 := stray_shell]> ∅) [0].

(** C1 fails on the code: before the update the counter of the droid is
    the sum over the live projectiles aimed at it; the update marks the
    off-map projectile dead without reassigning its destination,
    [proj_UpdateAll] removes it, and the droid keeps expecting 10 points
    of damage that no projectile will deliver. *)
Lemma stale_expected_damage :
  projectiles edge_registry = [stray_shell] /\
  expected_of edge_world 7 = expected_sum 7 (projectiles edge_registry) /\
  worldOnMap sample (vx (p_pos stray_shell)) (vy (p_pos stray_shell)) = false /\
  p_died (snd (fst (update sample edge_world stray_shell))) = 1 /\
  psDest (snd (fst (update sample edge_world stray_shell))) = Some 7 /\
  expected_of (fst (fst (update sample edge_world stray_shell))) 7 = 10 /\
  projectiles (snd (proj_UpdateAll sample storage_up edge_world edge_registry)) = [] /\
  expected_of (fst (proj_UpdateAll sample storage_up edge_world edge_registry)) 7 = 10 /\
  expected_sum 7 (projectiles (snd (proj_UpdateAll sample storage_up edge_world edge_registry)))
    = 0.
Proof. vm_compute. repeat split; reflexivity. Qed.

(** *** The bookkeeping where it holds *)

(** The same shell while it is still over the map. *)
Definition aimed_shell : PROJECTILE := set_pos (mkVector3i 300 300 0) stray_shell.

Lemma edge_world_accounted : accounted edge_world ([] ++ aimed_shell :: []).
Proof.
  intros o. destruct (decide (o = 7)) as [-> | Hne]; [reflexivity |].
  unfold expected_of, edge_world, sample_world. cbn [expectedDamage].
  rewrite lookup_insert_ne by auto. rewrite lookup_empty.
  unfold expected_sum, contribution. cbn [app List.filter aimed_shell stray_shell
    sample_projectile set_pos p_died Z.eqb fold_right psDest expectedDamageCaused optr_eqb].
  unfold ptr_eqb. destruct (Z.eqb_spec 7 o) as [E | _]; [congruence | reflexivity].
Qed.

Lemma setProjectileDestination_accounted_witness :
  accounted (fst (setProjectileDestination None edge_world aimed_shell))
            ([] ++ snd (setProjectileDestination None edge_world aimed_shell) :: []).
Proof.
  apply (setProjectileDestination_accounted None edge_world aimed_shell [] []).
  - vm_compute. split; discriminate.
  - reflexivity.
  - exact edge_world_accounted.
Defined.

Lemma release_expected_damage_spec_witness :
  expectedDamageCaused (snd (release_expected_damage edge_world aimed_shell)) = 0 /\
  psDest (snd (release_expected_damage edge_world aimed_shell)) = psDest aimed_shell /\
  forall o, contribution o (snd (release_expected_damage edge_world aimed_shell)) = 0 /\
            expected_of (fst (release_expected_damage edge_world aimed_shell)) o
            = expected_of edge_world o - contribution o aimed_shell.
Proof.
  apply (release_expected_damage_spec edge_world aimed_shell).
  vm_compute. split; discriminate.
Defined.

(** *** Scenarios for penetration (C7) *)

(** A penetrating cannon with a maximum range of 4 units, so that
    [1.25 * 4 = 5]. *)
Definition lance : WEAPON_STATS := sample_stats MM_DIRECT WSC_CANNON 1000 true 4 0 0 0.

(** The enemy droid 3 stands in the line of fire. *)
Definition lane_world (time : Z) : World :=
  sample_world (<[3 := sample_droid 1 (mkVector3i 105 100 0)]> ∅) ∅ time.

(** A bolt fired at tick 0 along the x axis, one unit per tick. *)
Definition bolt : PROJECTILE :=
  sample_projectile lance 0 None None
    (mkVector3i 100 100 0) (mkVector3i 100 100 0) (mkVector3i 1100 100 0) 0 1 0.

(** C7, as stated, fails: at tick 5 the bolt has travelled 5 units, which
    is not past 1.25 times its maximum range of 4, it hits the droid 3 and
    the weapon penetrates, and no child is spawned. *)
Lemma penetration_stops_at_limit :
  currentDistance_of sample (lane_world 5) bolt = 5 /\
  5 * proj_GetLongRange sample lance 0 = 4 * 5 /\
  penetrate lance = true /\
  isDroid (lane_world 5) (Some 3) = true /\
  psDest (snd (fst (proj_InFlightFunc sample (lane_world 5) bolt))) = Some 3 /\
  p_state (snd (fst (proj_InFlightFunc sample (lane_world 5) bolt))) = PROJ_IMPACT /\
  snd (proj_InFlightFunc sample (lane_world 5) bolt) = None.
Proof. vm_compute. repeat split; reflexivity. Qed.


(** At tick 4 the bolt has travelled 4 units: the droid is hit and a
    child is spawned; the registry holds the bolt alone. *)
Lemma penetration_child_spawned_and_deferred_witness :
  (currentDistance_of sample (lane_world 4) bolt
     < penetration_limit (proj_GetLongRange sample (psWStats bolt) (p_player bolt)) ->
   exists w' p' child,
     proj_InFlightFunc sample (lane_world 4) bolt = (w', p', Some child) /\
     p_state p' = PROJ_IMPACT /\ psDest p' = Some 3 /\
     psDamaged p' = psDamaged bolt ++ [3] /\
     p_born child = p_born bolt /\
     psDamaged child = psDamaged bolt ++ [3] /\
     psSource child = psSource bolt /\
     p_pos child = p_pos p' /\
     p_dst child = set_vz (int32 (vz (p_dst p') + LINE_OF_FIRE_MINIMUM sample)) (p_dst p') /\
     p_state child = PROJ_INFLIGHT /\ psDest child = None /\ p_died child = 0) /\
  (penetration_limit (proj_GetLongRange sample (psWStats bolt) (p_player bolt))
     <= currentDistance_of sample (lane_world 4) bolt ->
   exists w' p',
     proj_InFlightFunc sample (lane_world 4) bolt = (w', p', None) /\
     p_state p' = PROJ_IMPACT /\ psDest p' = Some 3) /\
  (let s := update_sweep sample (lane_world 4) (projectiles (mkRegistry (<[0 := bolt]> ∅) [0])) in
   projectiles (snd (proj_UpdateAll sample storage_up (lane_world 4) (mkRegistry (<[0 := bolt]> ∅) [0])))
     = List.filter (fun p => negb (reclaimable (fst (fst s)) p)) (snd (fst s)) ++ snd s /\
   length (snd (fst s)) = length (projectiles (mkRegistry (<[0 := bolt]> ∅) [0])) /\
   forall c, c ∈ snd s -> exists w1 p1, snd (proj_InFlightFunc sample w1 p1) = Some c).
Proof.
  apply (penetration_child_spawned_and_deferred sample storage_up storage_up_fresh
           (lane_world 4) bolt 3 (lane_world 4) (mkRegistry (<[0 := bolt]> ∅) [0])).
  - vm_compute. reflexivity.
  - vm_compute. reflexivity.
  - vm_compute. reflexivity.
  - vm_compute. reflexivity.
  - vm_compute. reflexivity.
  - apply registry_ok_one.
Defined.

(** In one tick the bolt penetrates the droid: after [proj_UpdateAll] the
    list holds the parent, spent, and behind it the child, in flight at
    the point of the hit and not updated. *)
Example penetration_tick :
  map (fun p => (p_state p, p_pos p, p_dst p, p_born p, psDamaged p))
      (snd (proj_UpdateAll_values sample (lane_world 4) [bolt]))
  = [(PROJ_INACTIVE, mkVector3i 104 100 0, mkVector3i 1100 100 0, 0, [3; 3]);
     (PROJ_INFLIGHT, mkVector3i 104 100 0, mkVector3i 1100 100 5, 0, [3])].
Proof. vm_compute. reflexivity. Qed.

(** *** Scenario for the replay (C2) *)

(** The droid 1 of player 0 faces the enemy droid 3. *)
Definition duel_world : World :=
  sample_world
    (<[1 := sample_droid 0 (mkVector3i 100 100 0)]>
     (<[3 := sample_droid 1 (mkVector3i 105 100 0)]> ∅))
    ∅ 1000.

(** The droid fires at its enemy, the clock advances, the projectiles are
    updated twice. *)
Definition duel : list Command :=
  [Fire lance (Some 1) 0 (mkVector3i 105 100 0) (Some 3) true 0;
   Elsewhere (with_gameTime 1004);
   UpdateAll;
   Elsewhere (with_gameTime 1104);
   UpdateAll].

Lemma projectile_replay_deterministic_witness :
  (fst (run sample storage_up duel (duel_world, (mkRegistry ∅ [])))
     = fst (run sample storage_down duel (duel_world, (mkRegistry ∅ []))) /\
   projectiles (snd (run sample storage_up duel (duel_world, (mkRegistry ∅ []))))
     = projectiles (snd (run sample storage_down duel (duel_world, (mkRegistry ∅ []))))) /\
  (let s := update_sweep sample duel_world (projectiles (mkRegistry ∅ [])) in
   projectiles (snd (proj_UpdateAll sample storage_up duel_world (mkRegistry ∅ [])))
     = List.filter (fun p => negb (reclaimable (fst (fst s)) p)) (snd (fst s)) ++ snd s) /\
  (forall psStats psAttacker player target psTarget bVisible slot,
     exists tail,
       projectiles (snd (proj_SendProjectile sample storage_up psStats psAttacker player target
                           psTarget bVisible slot duel_world (mkRegistry ∅ [])))
         = projectiles (mkRegistry ∅ []) ++ tail /\ (length tail <= 1)%nat).
Proof.
  apply (projectile_replay_deterministic sample storage_up storage_down
           storage_up_fresh storage_down_fresh duel duel_world (mkRegistry ∅ []) (mkRegistry ∅ [])).
  - apply registry_ok_empty.
  - apply registry_ok_empty.
  - reflexivity.
Defined.

(** The two storages put the projectile of the duel at different
    addresses. *)
Example duel_addresses :
  psProjectileList (snd (run sample storage_up [Fire lance (Some 1) 0 (mkVector3i 105 100 0) (Some 3) true 0] (duel_world, (mkRegistry ∅ [])))) = [1] /\
  psProjectileList (snd (run sample storage_down [Fire lance (Some 1) 0 (mkVector3i 105 100 0) (Some 3) true 0] (duel_world, (mkRegistry ∅ [])))) = [-1].
Proof. vm_compute. split; reflexivity. Qed.

(** *** The further properties on concrete inputs *)

Lemma proj_UpdateExperience_out_of_range_witness :
  proj_UpdateExperience sample mortar_shell 300000 splash_world = splash_world.
Proof.
  apply (proj_UpdateExperience_out_of_range sample mortar_shell 300000 splash_world).
  unfold EXPERIENCE_LIMIT. lia.
Defined.

Lemma proj_ImpactFunc_releases_witness :
  expectedDamageCaused (snd (proj_ImpactFunc sample edge_world aimed_shell)) = 0 /\
  psDest (snd (proj_ImpactFunc sample edge_world aimed_shell)) = psDest aimed_shell /\
  forall o, expected_of (fst (proj_ImpactFunc sample edge_world aimed_shell)) o
            = expected_of edge_world o - contribution o aimed_shell.
Proof.
  apply (proj_ImpactFunc_releases sample edge_world aimed_shell).
  - vm_compute. split; discriminate.
  - vm_compute. discriminate.
Defined.

Lemma direct_flight_endpoints_witness :
  (snd (move_projectile sample (lane_world 5) bolt 5) = 0 ->
     p_pos (fst (move_projectile sample (lane_world 5) bolt 5)) = p_src bolt) /\
  (snd (move_projectile sample (lane_world 5) bolt 5)
   = Z.max (iHypot sample (vx (vsub (p_dst bolt) (p_src bolt)))
                          (vy (vsub (p_dst bolt) (p_src bolt)))) 1 ->
     p_pos (fst (move_projectile sample (lane_world 5) bolt 5)) = p_dst bolt).
Proof.
  apply (direct_flight_endpoints sample (lane_world 5) bolt 5).
  - reflexivity.
  - reflexivity.
  - unfold vec_in_limit, in_limit, LIMIT. cbn. lia.
  - unfold vec_in_limit, in_limit, LIMIT. cbn. lia.
  - vm_compute. discriminate.
Defined.

(** A straight flight that arrives: after one second a bolt of speed
    1000 aimed at a point 1000 units away is at that point. *)
Example direct_flight_arrives :
  p_pos (fst (move_projectile sample (lane_world 1000) bolt 1000)) = p_dst bolt.
Proof. vm_compute. reflexivity. Qed.

(** The droid 7 has died while the shell was on its way. *)
Definition grave_world : World :=
  sample_world
    (<[7 := mkBASE_OBJECT OBJ_DROID 1 950 (mkVector3i 500 500 0) (mkVector3i 500 500 0)
              false false false true false None true 0 0]> ∅)
    (<[7 := 10]> ∅) 1000.

Lemma drop_dead_references_spec_witness :
  objects (fst (drop_dead_references sample grave_world aimed_shell)) = objects grave_world /\
  (forall s, psSource (snd (drop_dead_references sample grave_world aimed_shell)) = Some s ->
             psSource aimed_shell = Some s /\ obj_died grave_world s = false) /\
  (forall d, psDest (snd (drop_dead_references sample grave_world aimed_shell)) = Some d ->
             psDest aimed_shell = Some d /\ obj_died grave_world d = false) /\
  psDamaged (snd (drop_dead_references sample grave_world aimed_shell))
    = List.filter (fun a => negb (is_dead sample grave_world a)) (psDamaged aimed_shell) /\
  (forall a, In a (psDamaged (snd (drop_dead_references sample grave_world aimed_shell))) ->
             is_dead sample grave_world a = false) /\
  (forall o, expected_of (fst (drop_dead_references sample grave_world aimed_shell)) o
             = expected_of grave_world o - contribution o aimed_shell
               + contribution o (snd (drop_dead_references sample grave_world aimed_shell))).
Proof.
  apply (drop_dead_references_spec sample grave_world aimed_shell).
  vm_compute. split; discriminate.
Defined.

(** The dead destination is dropped and its counter is cleared. *)
Example dead_destination_dropped :
  psDest (snd (drop_dead_references sample grave_world aimed_shell)) = None /\
  expected_of grave_world 7 = 10 /\
  expected_of (fst (drop_dead_references sample grave_world aimed_shell)) 7 = 0.
Proof. vm_compute. repeat split; reflexivity. Qed.

Lemma duel_world_accounted : accounted duel_world [].
Proof. intros o. reflexivity. Qed.

Lemma firing_keeps_accounts_witness :
  accounted
    (fst (proj_SendProjectile_values sample lance (Some 1) 0 (mkVector3i 105 100 0) (Some 3)
            true 0 duel_world []))
    (snd (proj_SendProjectile_values sample lance (Some 1) 0 (mkVector3i 105 100 0) (Some 3)
            true 0 duel_world [])).
Proof.
  apply (firing_keeps_accounts sample lance (Some 1) 0 (mkVector3i 105 100 0) (Some 3)
           true 0 duel_world []).
  - vm_compute. split; discriminate.
  - exact duel_world_accounted.
Defined.

(** Two shots of the duel, one after the other. *)
Definition first_shot : World * option PROJECTILE :=
  proj_SendProjectileAngledInternal sample lance (AttackerObject 1) 0
    (mkVector3i 105 100 0) (Some 3) true 0 0 999 duel_world.

Definition second_shot : World * option PROJECTILE :=
  proj_SendProjectileAngledInternal sample lance (AttackerObject 3) 1
    (mkVector3i 100 100 0) (Some 1) true 0 0 999 (fst first_shot).

Lemma consecutive_ids_differ_witness :
  p_id (default bolt (snd first_shot)) <> p_id (default bolt (snd second_shot)).
Proof.
  apply (consecutive_ids_differ sample
           lance (AttackerObject 1) 0 (mkVector3i 105 100 0) (Some 3) true 0 0 999
           lance (AttackerObject 3) 1 (mkVector3i 100 100 0) (Some 1) true 0 0 999
           duel_world (fst first_shot) (fst second_shot)).
  - vm_compute. reflexivity.
  - vm_compute. reflexivity.
Defined.



Lemma registry_tight_empty : registry_tight (mkRegistry ∅ []).
Proof.
  split; [apply registry_ok_empty |].
  cbn. intros a [q Hq]. rewrite lookup_empty in Hq. discriminate Hq.
Qed.

Lemma registry_stays_tight_witness :
  registry_tight (snd (run sample storage_up duel (duel_world, mkRegistry ∅ []))) /\
  registry_tight (proj_FreeAllProjectiles (mkRegistry ∅ [])) /\
  projectiles (proj_FreeAllProjectiles (mkRegistry ∅ [])) = [].
Proof.
  apply (registry_stays_tight sample storage_up storage_up_fresh duel duel_world
           (mkRegistry ∅ [])).
  exact registry_tight_empty.
Defined.

Lemma proj_UpdateAll_keeps_the_living_witness :
  let r := mkRegistry (<[0 := bolt]> ∅) [0] in
  let w' := fst (fst (update_sweep sample (lane_world 4) (projectiles r))) in
  let updated := snd (fst (update_sweep sample (lane_world 4) (projectiles r))) in
  let spawned := snd (update_sweep sample (lane_world 4) (projectiles r)) in
  let after := projectiles (snd (proj_UpdateAll sample storage_up (lane_world 4) r)) in
  (forall p, In p updated ->
     p_died p = 0 \/ uint32 (gameTime w' - deltaGameTime w') <= p_died p ->
     In p after) /\
  (forall p, In p after ->
     In p spawned \/
     (In p updated /\
      (p_died p = 0 \/ uint32 (gameTime w' - deltaGameTime w') <= p_died p))) /\
  (length after <= 2 * length (projectiles r))%nat.
Proof.
  apply (proj_UpdateAll_keeps_the_living sample storage_up storage_up_fresh (lane_world 4)
           (mkRegistry (<[0 := bolt]> ∅) [0])).
  apply registry_ok_one.
Defined.


(** Three calls after a restart: the two droids fire at each other, then
    the first fires at a point on the ground. *)
Definition volley : list Command :=
  [Fire lance (Some 1) 0 (mkVector3i 105 100 0) (Some 3) true 0;
   Fire lance (Some 3) 1 (mkVector3i 100 100 0) (Some 1) true 0;
   Fire lance (Some 1) 0 (mkVector3i 500 500 0) None true 0].

Lemma proj_InitSystem_restarts_ids_witness :
  let w0 := fst (fst (proj_InitSystem sample duel_world edge_registry)) in
  let r0 := snd (fst (proj_InitSystem sample duel_world edge_registry)) in
  let final := run sample storage_up volley (w0, r0) in
  projectiles r0 = [] /\
  (forall x, 0 <= x < MAX_PLAYERS sample -> getExpGain w0 x = 100) /\
  List.map p_id (projectiles (snd final))
    = List.map (fun k => uint32 (ProjectileTrackerID + Z.of_nat k))
        (seq 1 (length (projectiles (snd final)))) /\
  projectileTrackerIDIncrement (fst final)
    = uint32 (Z.of_nat (length (projectiles (snd final)))).
Proof.
  apply (proj_InitSystem_restarts_ids sample storage_up storage_up_fresh volley duel_world
           edge_registry).
  - reflexivity.
  - vm_compute. discriminate.
Defined.

(** The ids of that volley. *)
Example volley_ids :
  List.map p_id
    (projectiles
       (snd (run sample storage_up volley
               (fst (fst (proj_InitSystem sample duel_world edge_registry)),
                snd (fst (proj_InitSystem sample duel_world edge_registry))))))
  = [3735879681; 3735879682; 3735879683].
Proof. vm_compute. reflexivity. Qed.

End Projectile.
